(** * chrome-profile-router: routing, single-instance guard and dispatcher

    A shallow embedding of the Go program.  Two builds of [main.go] are
    modelled, each in its own module:

    - [OneShot]  : src/main.go            (waits for one URL or a timeout);
    - [Listener] : src/unnamed/part_003   (long-running, pid-file guarded).

    The Go standard library and logrus are not part of the repository; the
    functions of theirs that the program calls are interfaces here (type
    classes [RegexpLib], [UrlLib], [PathLib], [JsonLib], [LogrusLib]) or
    fields of the [World] the process runs in.  [strconv.Atoi], [strconv.Itoa]
    and the level filter of a logrus logger are written out.  The logger
    appends the entries it writes to the log file, which is one of the files
    of the world; [os.WriteFile] truncates the file when it opens it, so a
    write that fails after the open leaves what was written before.

    The builds src/unnamed/part_002 (lock file instead of pid file) and
    src/unnamed/part_001 (command-line arguments) have the text of
    [loadConfig], [chooseProfile] and [openInChrome] of the listener and of
    the one-shot build respectively. *)

From Stdlib Require Import ZArith String Ascii List Lia.
From stdpp Require Import base tactics option list strings pretty gmap.

Local Open Scope Z_scope.

(** ** Go values *)

(** A Go [error] is modelled by its message, the text [err.Error()] returns. *)
Definition error := string.

(** [strings.HasPrefix]. *)
Definition HasPrefix (s p : string) : bool := String.prefix p s.

(** A formatted write: the format string as written in the source, with the
    arguments it is applied to ([%s], [%q] and [%v] are not rendered). *)
Record Printf := { format : string; args : list string }.

(** [regexp]: compilation may fail, matching is a boolean test. *)
Class RegexpLib := {
  Regexp : Type;
  regexp_Compile : string -> Regexp + error;
  MatchString : Regexp -> string -> bool
}.

(** [net/url]: of the parsed URL only [Scheme] is read. *)
Record URL := { Scheme : string }.

Class UrlLib := {
  url_Parse : string -> URL + error
}.

(** A file name: not empty, not [.] or [..], and without a separator. *)
Definition file_name (s : string) : bool :=
  negb (bool_decide (s = "")) && negb (bool_decide (s = "."))
  && negb (bool_decide (s = ".."))
  && forallb (fun c => negb (Ascii.eqb c "/")) (list_ascii_of_string s).

(** [path/filepath].  [filepath.Join] joins its elements with the separator
    and cleans the result; of the cleaning the one fact used is that a file
    name under the directory [/tmp] stays as it is. *)
Class PathLib := {
  filepath_Join : list string -> string;
  filepath_Join_tmp : forall name,
    file_name name = true -> filepath_Join ["/tmp"; name] = "/tmp/" +:+ name
}.

(** [encoding/json]: [json.Unmarshal(data, &cfg)] fills [cfg] and may fail. *)
Class JsonLib (Config : Type) := {
  json_Unmarshal : string -> Config -> Config * option error
}.

(** ** Rules (the same text in every build) *)

Record Rule := {
  Pattern : string;
  ProfileDirectory : string
}.

Record compiledRule `{RegexpLib} := {
  re : Regexp;
  profileDirectory : string
}.

Section Rules.
Context `{RegexpLib}.

(** The loop [for i, r := range cfg.Rules] of [loadConfig], entered at
    index [i] with [cr] compiled so far.  An early return leaves the
    compiled rules nil. *)
Fixpoint loadConfig_rules (i : nat) (rules : list Rule) (cr : list compiledRule)
  : list compiledRule * option error :=
  match rules with
  | [] => (cr, None)
  | r :: rest =>
      if decide (Pattern r = "" \/ ProfileDirectory r = "") then
        ([], Some ("rule " +:+ pretty i
                   +:+ " invalid: pattern and profile_directory are required"))
      else
        match regexp_Compile (Pattern r) with
        | inr err =>
            ([], Some ("rule " +:+ pretty i +:+ ": compile regexp: " +:+ err))
        | inl re0 =>
            loadConfig_rules (S i) rest
              (cr ++ [{| re := re0; profileDirectory := ProfileDirectory r |}])
        end
  end.

(** What the loop rejects. *)
Definition offending (r : Rule) : Prop :=
  Pattern r = "" \/ ProfileDirectory r = "" \/
  exists err, regexp_Compile (Pattern r) = inr err.

(** The error the loop reports for an offending rule at index [i]. *)
Definition rule_error (i : nat) (r : Rule) (e : error) : Prop :=
  (Pattern r = "" \/ ProfileDirectory r = "") /\
     e = "rule " +:+ pretty i
         +:+ " invalid: pattern and profile_directory are required"
  \/
  (Pattern r <> "" /\ ProfileDirectory r <> "") /\
     exists err, regexp_Compile (Pattern r) = inr err /\
                 e = "rule " +:+ pretty i +:+ ": compile regexp: " +:+ err.

(** A compiled rule is the rule it was derived from. *)
Definition compiled_from (r : Rule) (c : compiledRule) : Prop :=
  regexp_Compile (Pattern r) = inl (re c) /\
  profileDirectory c = ProfileDirectory r.

(** The range loop of [chooseProfile]: it returns the profile of the first
    rule whose expression matches; [None] when the loop runs to its end and
    control reaches the statements after it. *)
Fixpoint chooseProfile_range (urlStr : string) (compiled : list compiledRule)
  : option string :=
  match compiled with
  | [] => None
  | r :: rest =>
      if MatchString (re r) urlStr then Some (profileDirectory r)
      else chooseProfile_range urlStr rest
  end.
(** The first rule of [compiled], in its order, whose expression matches the
    URL: [Some r] with no rule before [r] matching, whatever follows it, or
    [None] when no rule matches. *)
Inductive FirstMatch (urlStr : string)
  : list compiledRule -> option compiledRule -> Prop :=
| FirstMatch_none compiled :
    Forall (fun c => MatchString (re c) urlStr = false) compiled ->
    FirstMatch urlStr compiled None
| FirstMatch_some before r after :
    Forall (fun c => MatchString (re c) urlStr = false) before ->
    MatchString (re r) urlStr = true ->
    FirstMatch urlStr (before ++ r :: after) (Some r).
End Rules.

(** ** The world a process runs in *)

(** [exec.Command(name, args...)]. *)
Record Cmd := { cmd_name : string; cmd_args : list string }.

(** logrus levels, in the library's order: a logger set to level [l] writes
    the entries whose level is [l] or more severe. *)
Inductive Level :=
  PanicLevel | FatalLevel | ErrorLevel | WarnLevel | InfoLevel | DebugLevel | TraceLevel.

#[global] Instance Level_eq_dec : EqDecision Level.
Proof. solve_decision. Defined.

Definition Level_rank (l : Level) : nat :=
  match l with
  | PanicLevel => 0 | FatalLevel => 1 | ErrorLevel => 2 | WarnLevel => 3
  | InfoLevel => 4 | DebugLevel => 5 | TraceLevel => 6
  end%nat.

Definition IsLevelEnabled (logger_level l : Level) : bool :=
  bool_decide (Level_rank l <= Level_rank logger_level)%nat.

Record Entry := { entry_level : Level; entry_line : Printf }.

(** A [*logrus.Logger]: its level and the entries it has written. *)
Record Logger := { level : Level; written : list Entry }.

Class LogrusLib := {
  logrus_ParseLevel : string -> Level + error
}.

Record World := {
  (* the environment, as the operating system answers *)
  UserHomeDir : string + error;
  files : gmap string string;          (* the readable files and their contents *)
  errno : string -> string;            (* why an operation on a path fails *)
  read_faults : gset string;           (* paths that open but fail while read *)
  write_faults : gset string;          (* paths that cannot be created or written *)
  Getpid : Z;
  Kill : Z -> Z -> option error;       (* syscall.Kill(pid, sig) *)
  Run : nat -> Cmd -> option error;    (* result of the n-th command run *)
  write_progress : string -> option nat;
    (* for a path of [write_faults]: [None] when it cannot be opened for
       writing, or the bytes [os.WriteFile] writes after its open before it
       fails *)
  log_text : nat -> Entry -> string;
    (* the line the formatter of the logger makes of its n-th entry, the
       time stamp included *)
  (* what the process has done *)
  stderr : list Printf;
  spawned : list Cmd;
  logger : option Logger               (* the global [logger], nil at start *)
}.

(** The liveness check of the single-instance guard: a process is taken to
    be alive when signal 0 can be sent to it ([syscall.Kill(pid, 0)] returns
    nil). *)
Definition alive (w : World) (pid : Z) : Prop := Kill w pid 0 = None.

Definition PathError (w : World) (op path : string) : error :=
  op +:+ " " +:+ path +:+ ": " +:+ errno w path.

Definition set_files (f : gmap string string) (w : World) : World :=
  {| UserHomeDir := UserHomeDir w; files := f; errno := errno w;
     read_faults := read_faults w; write_faults := write_faults w;
     Getpid := Getpid w; Kill := Kill w; Run := Run w;
     write_progress := write_progress w; log_text := log_text w;
     stderr := stderr w; spawned := spawned w; logger := logger w |}.

Definition set_stderr (l : list Printf) (w : World) : World :=
  {| UserHomeDir := UserHomeDir w; files := files w; errno := errno w;
     read_faults := read_faults w; write_faults := write_faults w;
     Getpid := Getpid w; Kill := Kill w; Run := Run w;
     write_progress := write_progress w; log_text := log_text w;
     stderr := l; spawned := spawned w; logger := logger w |}.

Definition set_spawned (l : list Cmd) (w : World) : World :=
  {| UserHomeDir := UserHomeDir w; files := files w; errno := errno w;
     read_faults := read_faults w; write_faults := write_faults w;
     Getpid := Getpid w; Kill := Kill w; Run := Run w;
     write_progress := write_progress w; log_text := log_text w;
     stderr := stderr w; spawned := l; logger := logger w |}.

Definition set_logger (l : option Logger) (w : World) : World :=
  {| UserHomeDir := UserHomeDir w; files := files w; errno := errno w;
     read_faults := read_faults w; write_faults := write_faults w;
     Getpid := Getpid w; Kill := Kill w; Run := Run w;
     write_progress := write_progress w; log_text := log_text w;
     stderr := stderr w; spawned := spawned w; logger := l |}.

(** A computation of the process: it returns, or the process ends in
    [os.Exit(code)], or it dies in a run-time panic. *)
Inductive Outcome (A : Type) :=
| Ret (a : A) (w : World)
| Exit (code : Z) (w : World)
| Crash (w : World).
Arguments Ret {A} a w.
Arguments Exit {A} code w.
Arguments Crash {A} w.

Definition Proc (A : Type) : Type := World -> Outcome A.

#[global] Instance Proc_ret : MRet Proc := fun A a w => Ret a w.
#[global] Instance Proc_bind : MBind Proc := fun A B f m w =>
  match m w with
  | Ret a w' => f a w'
  | Exit code w' => Exit code w'
  | Crash w' => Crash w'
  end.

Definition os_Exit {A} (code : Z) : Proc A := fun w => Exit code w.

Definition final_world {A} (o : Outcome A) : World :=
  match o with Ret _ w | Exit _ w | Crash w => w end.

(** [fmt.Fprintf(os.Stderr, format, args...)]. *)
Definition Fprintf_Stderr (fmt : string) (a : list string) : Proc unit :=
  fun w => Ret () (set_stderr (stderr w ++ [{| format := fmt; args := a |}]) w).

(** [os.Open] followed by [io.ReadAll], as [loadConfig] does. *)
Inductive FileRead := OpenError (e : error) | ReadError (e : error) | Data (s : string).

Definition Open_ReadAll (path : string) (w : World) : FileRead :=
  match files w !! path with
  | None => OpenError (PathError w "open" path)
  | Some data =>
      if decide (path ∈ read_faults w) then ReadError (PathError w "read" path)
      else Data data
  end.

(** [os.ReadFile]. *)
Definition os_ReadFile (path : string) (w : World) : string + error :=
  match Open_ReadAll path w with
  | OpenError e | ReadError e => inr e
  | Data s => inl s
  end.

(** [os.WriteFile(path, data, 0644)]: the file is opened with
    [O_WRONLY|O_CREATE|O_TRUNC], the data is written and the file closed.
    When the open fails the file is as it was; when the failure comes after
    the open, the file has been truncated and holds what was written before
    the failure. *)
Definition os_WriteFile (path data : string) : Proc (option error) :=
  fun w =>
    if decide (path ∈ write_faults w) then
      match write_progress w path with
      | None => Ret (Some (PathError w "open" path)) w
      | Some n =>
          Ret (Some (PathError w "write" path))
              (set_files (<[path := substring 0 n data]> (files w)) w)
      end
    else Ret None (set_files (<[path := data]> (files w)) w).

(** [cmd.Start()]: the command is recorded, and known by its position among
    the commands started. *)
Definition cmd_Start (c : Cmd) : Proc nat :=
  fun w => Ret (length (spawned w)) (set_spawned (spawned w ++ [c]) w).

(** [cmd.Wait()]: the world answers with the result of the command. *)
Definition cmd_Wait (n : nat) (c : Cmd) : Proc (option error) :=
  fun w => Ret (Run w n c) w.

(** [cmd.Run()] for [exec.Command(name, args...)]: [Start], then [Wait]. *)
Definition exec_Run (name : string) (a : list string) : Proc (option error) :=
  let c := {| cmd_name := name; cmd_args := a |} in
  n ← cmd_Start c; cmd_Wait n c.

(** [var logFilePath string = filepath.Join("/tmp", "chrome-profile-router.log")],
    the same in part_002 and part_003: the file [main] opens and gives the
    logger as its output, the only output the logger of the program ever
    has. *)
Definition logFilePath `{PathLib} : string :=
  filepath_Join ["/tmp"; "chrome-profile-router.log"].

(** A write of the logger on its output, the log file opened with
    [O_APPEND]: the text goes to the end of the file.  When the file is no
    longer at its path the write goes to the file that was opened, and
    nothing under a path changes. *)
Definition log_append `{PathLib} (text : string) (w : World) : World :=
  match files w !! logFilePath with
  | Some old => set_files (<[logFilePath := old +:+ text]> (files w)) w
  | None => w
  end.

(** The logger's methods: a nil logger panics, a disabled level writes
    nothing, an enabled one appends the formatted entry to the log file. *)
Definition logger_Logf `{PathLib} (l : Level) (fmt : string) (a : list string)
  : Proc unit :=
  fun w =>
    match logger w with
    | None => Crash w
    | Some lg =>
        if IsLevelEnabled (level lg) l then
          let e := {| entry_level := l;
                      entry_line := {| format := fmt; args := a |} |} in
          Ret () (set_logger
                    (Some {| level := level lg; written := written lg ++ [e] |})
                    (log_append (log_text w (length (written lg)) e) w))
        else Ret () w
    end.

(** The entries of level [l] the logger of the world has written. *)
Definition written_at (l : Level) (w : World) : list Entry :=
  match logger w with
  | Some lg => filter (fun e => entry_level e = l) (written lg)
  | None => []
  end.

(** From [w] to [w'] no file but the log file has changed, and the log
    file has only grown. *)
Definition log_grows `{PathLib} (w w' : World) : Prop :=
  (forall p, p <> logFilePath -> files w' !! p = files w !! p) /\
  match files w !! logFilePath with
  | Some old => exists added, files w' !! logFilePath = Some (old +:+ added)
  | None => files w' !! logFilePath = None
  end.

Definition logger_Debugf `{PathLib} := logger_Logf DebugLevel.
Definition logger_Errorf `{PathLib} := logger_Logf ErrorLevel.
Definition logger_Infof `{PathLib} := logger_Logf InfoLevel.

(** [os.OpenFile(path, O_CREATE|O_WRONLY|O_APPEND, 0644)]: the file is
    created when it does not exist. *)
Definition os_OpenFile_append (path : string) : Proc (option error) :=
  fun w =>
    if decide (path ∈ write_faults w) then Ret (Some (PathError w "open" path)) w
    else match files w !! path with
         | Some _ => Ret None w
         | None => Ret None (set_files (<[path := ""]> (files w)) w)
         end.

(** [logger = logrus.New(); logger.SetOutput(logFile); logger.SetLevel(l)],
    [logFile] being the file just opened at [logFilePath]: a new logger,
    which has written nothing, and whose entries go to that file
    ([logger_Logf]). *)
Definition logrus_New_SetLevel (l : Level) : Proc unit :=
  fun w => Ret () (set_logger (Some {| level := l; written := [] |}) w).

(** ** strconv *)

Definition digit_value (c : ascii) : option Z :=
  let n := Z.of_N (N_of_ascii c) in
  if decide (48 <= n <= 57) then Some (n - 48) else None.

Fixpoint digits_value (s : string) (acc : Z) : option Z :=
  match s with
  | EmptyString => Some acc
  | String c rest =>
      match digit_value c with
      | Some d => digits_value rest (10 * acc + d)
      | None => None
      end
  end.

(** [strconv.Atoi] on a 64-bit platform: an optional sign, then one or more
    decimal digits; a syntax or range error is [None]. *)
Definition Atoi (s : string) : option Z :=
  let '(neg, body) :=
    match s with
    | String c rest =>
        if bool_decide (c = "+"%char) then (false, rest)
        else if bool_decide (c = "-"%char) then (true, rest)
        else (false, s)
    | EmptyString => (false, s)
    end in
  match body with
  | EmptyString => None
  | _ =>
      match digits_value body 0 with
      | None => None
      | Some n =>
          let v := if neg then - n else n in
          if decide (- 2 ^ 63 <= v < 2 ^ 63) then Some v else None
      end
  end.

(** [strconv.Itoa]. *)
Definition Itoa (z : Z) : string := pretty z.

(** ** The URL hand-off (the same text in every build) *)

Section Handoff.
Context `{UrlLib}.

(** The first statement of [openInChrome]: the URL as it is handed off. *)
Definition openInChrome_url (urlStr : string) : string :=
  match url_Parse urlStr with
  | inr _ => urlStr
  | inl u =>
      if bool_decide (Scheme u = "") && negb (HasPrefix urlStr "http")
      then "http://" +:+ urlStr
      else urlStr
  end.
End Handoff.

(** ** src/main.go: the one-shot build *)

Module OneShot.

Record Config := {
  ChromeAppPath : string;
  DefaultProfileDirectory : string;
  Rules : list Rule
}.

(** [var cfg Config]. *)
Definition zero_Config : Config :=
  {| ChromeAppPath := ""; DefaultProfileDirectory := ""; Rules := [] |}.

Definition set_ChromeAppPath (s : string) (c : Config) : Config :=
  {| ChromeAppPath := s; DefaultProfileDirectory := DefaultProfileDirectory c;
     Rules := Rules c |}.

Definition set_DefaultProfileDirectory (s : string) (c : Config) : Config :=
  {| ChromeAppPath := ChromeAppPath c; DefaultProfileDirectory := s;
     Rules := Rules c |}.

(** [time.Second], in nanoseconds, and the argument of [time.After]. *)
Definition Second : Z := 1000000000.
Definition timeout : Z := 4 * Second.

(** The case of the [select] statement that fires. *)
Inductive SelectCase := RecvURL (url : string) | TimeoutFired.

(** Which case can fire, given the calls of [HandleURL] with the time of
    each, counted from the moment the timer is armed: the first call is the
    sender waiting on the channel; a case that is ready first is taken, and
    either may be when both are ready at once. *)
Inductive select_fires : list (Z * string) -> SelectCase -> Prop :=
| fires_recv t u rest :
    t <= timeout -> select_fires ((t, u) :: rest) (RecvURL u)
| fires_timeout_none :
    select_fires [] TimeoutFired
| fires_timeout_late t u rest :
    timeout <= t -> select_fires ((t, u) :: rest) TimeoutFired.

Section Program.
Context `{RegexpLib} `{UrlLib} `{PathLib} `{JsonLib Config}.

Definition defaultConfigPath (w : World) : string :=
  match UserHomeDir w with
  | inr _ => ""
  | inl home =>
      filepath_Join [home; ".config"; "chrome-profile-router"; "config.json"]
  end.

(** [loadConfig] from the statement after [json.Unmarshal] to the end. *)
Definition loadConfig_finish (cfg : Config)
  : Config * list compiledRule * option error :=
  let cfg := if decide (ChromeAppPath cfg = "")
             then set_ChromeAppPath "/Applications/Google Chrome.app" cfg
             else cfg in
  let cfg := if decide (DefaultProfileDirectory cfg = "")
             then set_DefaultProfileDirectory "Default" cfg
             else cfg in
  let '(cr, err) := loadConfig_rules 0 (Rules cfg) [] in
  (cfg, cr, err).

Definition loadConfig (path : string) (w : World)
  : Config * list compiledRule * option error :=
  let cfg := zero_Config in
  match Open_ReadAll path w with
  | OpenError e => (cfg, [], Some ("open config: " +:+ e))
  | ReadError e => (cfg, [], Some ("read config: " +:+ e))
  | Data data =>
      match json_Unmarshal data cfg with
      | (cfg, Some e) => (cfg, [], Some ("parse config JSON: " +:+ e))
      | (cfg, None) => loadConfig_finish cfg
      end
  end.

Definition chooseProfile (urlStr : string) (compiled : list compiledRule)
    (fallback : string) : string :=
  match chooseProfile_range urlStr compiled with
  | Some profile => profile
  | None => fallback
  end.

(** The arguments [openInChrome] builds for [exec.Command("open", args...)]. *)
Definition openInChrome_args (chromeAppPath profileDir urlStr : string)
  : list string :=
  let urlStr := openInChrome_url urlStr in
  [ "-na"; chromeAppPath;
    "--args";
    "--profile-directory=" +:+ profileDir;
    urlStr ].

Definition openInChrome (chromeAppPath profileDir urlStr : string)
  : Proc (option error) :=
  exec_Run "open" (openInChrome_args chromeAppPath profileDir urlStr).

(** [config] and [compiledRules] are the globals [main] has set. *)
Definition processURL (config : Config) (compiledRules : list compiledRule)
    (urlStr : string) : Proc unit :=
  let profile := chooseProfile urlStr compiledRules (DefaultProfileDirectory config) in
  Fprintf_Stderr "Routing: %s  ->  profile-directory=%q\n" [urlStr; profile] ;;
  err ← openInChrome (ChromeAppPath config) profile urlStr;
  match err with
  | Some e => Fprintf_Stderr "Failed to open URL in Chrome: %v\n" [e]
  | None => mret ()
  end.

(** [main] up to the [go] statement. *)
Definition main_startup : Proc (Config * list compiledRule) :=
  fun w =>
    match loadConfig (defaultConfigPath w) w with
    | (_, _, Some e) =>
        (Fprintf_Stderr "Error loading config: %v\n" [e] ;; os_Exit 2) w
    | (config, compiledRules, None) => Ret (config, compiledRules) w
    end.

(** The goroutine of [main], once its [select] has fired.
    [fmt.Fprintln(os.Stderr, s)] writes [s] and a newline. *)
Definition main_goroutine (config : Config) (compiledRules : list compiledRule)
    (c : SelectCase) : Proc unit :=
  match c with
  | RecvURL url => processURL config compiledRules url ;; os_Exit 0
  | TimeoutFired =>
      Fprintf_Stderr "%v\n" ["No URLs received within timeout"] ;; os_Exit 1
  end.

(** A run of the process: start up, then the goroutine takes the case that
    fires ([C.RunApp] delivers the events). *)
Definition main (c : SelectCase) : Proc unit :=
  '(config, compiledRules) ← main_startup;
  main_goroutine config compiledRules c.

End Program.
End OneShot.

(** ** src/unnamed/part_003: the long-running, pid-file guarded build *)

Module Listener.

(** [type StrategyForUnknownUrls string] and its two constants. *)
Definition StrategyForUnknownUrlsUseBrowserDefault : string := "use-browser-default".
Definition StrategyForUnknownUrlsUseDefaultProfile : string := "use-default-profile".

Record Config `{RegexpLib} := {
  ChromeAppPath : string;
  DefaultProfileDirectory : string;
  StrategyForUnknownUrls : string;
  Rules : list Rule;
  LogLevel : string;
  compiledRules : list compiledRule;
  parsedLogLevel : Level
}.

Section Program.
Context `{RegexpLib} `{UrlLib} `{PathLib} `{LogrusLib} `{JsonLib Config}.

(** [var cfg Config]; the zero [logrus.Level] is [PanicLevel]. *)
Definition zero_Config : Config :=
  {| ChromeAppPath := ""; DefaultProfileDirectory := "";
     StrategyForUnknownUrls := ""; Rules := []; LogLevel := "";
     compiledRules := []; parsedLogLevel := PanicLevel |}.

Definition set_ChromeAppPath (s : string) (c : Config) : Config :=
  {| ChromeAppPath := s; DefaultProfileDirectory := DefaultProfileDirectory c;
     StrategyForUnknownUrls := StrategyForUnknownUrls c; Rules := Rules c;
     LogLevel := LogLevel c; compiledRules := compiledRules c;
     parsedLogLevel := parsedLogLevel c |}.

Definition set_DefaultProfileDirectory (s : string) (c : Config) : Config :=
  {| ChromeAppPath := ChromeAppPath c; DefaultProfileDirectory := s;
     StrategyForUnknownUrls := StrategyForUnknownUrls c; Rules := Rules c;
     LogLevel := LogLevel c; compiledRules := compiledRules c;
     parsedLogLevel := parsedLogLevel c |}.

Definition set_StrategyForUnknownUrls (s : string) (c : Config) : Config :=
  {| ChromeAppPath := ChromeAppPath c;
     DefaultProfileDirectory := DefaultProfileDirectory c;
     StrategyForUnknownUrls := s; Rules := Rules c;
     LogLevel := LogLevel c; compiledRules := compiledRules c;
     parsedLogLevel := parsedLogLevel c |}.

Definition set_LogLevel (s : string) (c : Config) : Config :=
  {| ChromeAppPath := ChromeAppPath c;
     DefaultProfileDirectory := DefaultProfileDirectory c;
     StrategyForUnknownUrls := StrategyForUnknownUrls c; Rules := Rules c;
     LogLevel := s; compiledRules := compiledRules c;
     parsedLogLevel := parsedLogLevel c |}.

Definition set_compiledRules (cr : list compiledRule) (c : Config) : Config :=
  {| ChromeAppPath := ChromeAppPath c;
     DefaultProfileDirectory := DefaultProfileDirectory c;
     StrategyForUnknownUrls := StrategyForUnknownUrls c; Rules := Rules c;
     LogLevel := LogLevel c; compiledRules := cr;
     parsedLogLevel := parsedLogLevel c |}.

Definition set_parsedLogLevel (l : Level) (c : Config) : Config :=
  {| ChromeAppPath := ChromeAppPath c;
     DefaultProfileDirectory := DefaultProfileDirectory c;
     StrategyForUnknownUrls := StrategyForUnknownUrls c; Rules := Rules c;
     LogLevel := LogLevel c; compiledRules := compiledRules c;
     parsedLogLevel := l |}.

Definition pidFilePath : string :=
  filepath_Join ["/tmp"; "chrome-profile-router.pid"].
Definition logFilePath : string :=
  filepath_Join ["/tmp"; "chrome-profile-router.log"].

Definition defaultConfigPath (w : World) : string :=
  match UserHomeDir w with
  | inr _ => ""
  | inl home =>
      filepath_Join [home; ".config"; "chrome-profile-router"; "config.json"]
  end.

(** [loadConfig] from the statement after [json.Unmarshal] to the end. *)
Definition loadConfig_finish (cfg : Config) : Config * option error :=
  let cfg := if decide (ChromeAppPath cfg = "")
             then set_ChromeAppPath "/Applications/Google Chrome.app" cfg
             else cfg in
  let cfg := if decide (DefaultProfileDirectory cfg = "")
             then set_DefaultProfileDirectory "Default" cfg
             else cfg in
  match loadConfig_rules 0 (Rules cfg) [] with
  | (_, Some e) => (cfg, Some e)
  | (cr, None) =>
      let cfg := set_compiledRules cr cfg in
      let cfg := if decide (LogLevel cfg = "") then set_LogLevel "info" cfg
                 else cfg in
      match logrus_ParseLevel (LogLevel cfg) with
      | inr e => (cfg, Some ("parse log level: " +:+ e))
      | inl parsedLogLevel => (set_parsedLogLevel parsedLogLevel cfg, None)
      end
  end.

Definition loadConfig (path : string) (w : World) : Config * option error :=
  let cfg := zero_Config in
  match Open_ReadAll path w with
  | OpenError e => (cfg, Some ("open config: " +:+ e))
  | ReadError e => (cfg, Some ("read config: " +:+ e))
  | Data data =>
      match json_Unmarshal data cfg with
      | (cfg, Some e) => (cfg, Some ("parse config JSON: " +:+ e))
      | (cfg, None) => loadConfig_finish cfg
      end
  end.

Definition chooseProfile (urlStr : string) (config : Config) : string :=
  match chooseProfile_range urlStr (compiledRules config) with
  | Some profile => profile
  | None =>
      if decide (StrategyForUnknownUrls config
                 = StrategyForUnknownUrlsUseDefaultProfile)
      then DefaultProfileDirectory config
      else ""
  end.

(** The arguments [openInChrome] builds for [exec.Command("open", args...)]. *)
Definition openInChrome_args (chromeAppPath profileDir urlStr : string)
  : list string :=
  let urlStr := openInChrome_url urlStr in
  let args := [ "-na"; chromeAppPath; "--args" ] in
  let args := if decide (profileDir <> "")
              then args ++ ["--profile-directory=" +:+ profileDir]
              else args in
  args ++ [urlStr].

Definition openInChrome (chromeAppPath profileDir urlStr : string)
  : Proc (option error) :=
  exec_Run "open" (openInChrome_args chromeAppPath profileDir urlStr).

Definition processURL (urlStr : string) (config : Config) : Proc unit :=
  let profile := chooseProfile urlStr config in
  logger_Debugf "Routing: %s  ->  profile-directory=%q\n" [urlStr; profile] ;;
  err ← openInChrome (ChromeAppPath config) profile urlStr;
  match err with
  | Some e => logger_Errorf "Failed to open URL in Chrome: %v\n" [e]
  | None => mret ()
  end.

Definition isRunning (pidFilePath : string) (w : World) : bool :=
  match os_ReadFile pidFilePath w with
  | inl data =>
      match Atoi data with
      | Some pid =>
          match Kill w pid 0 with
          | None => true
          | Some _ => false
          end
      | None => false
      end
  | inr _ => false
  end.

(** [main] from the comment "exit if another instance is running" to the
    [go] statement; [logger.Debug(s)] and [logger.Info(s)] write [s]. *)
Definition main_acquire : Proc unit :=
  fun w =>
    if isRunning pidFilePath w then
      (logger_Debugf "%v" ["Another instance is running, exiting"] ;; os_Exit 0) w
    else
      (err ← os_WriteFile pidFilePath (Itoa (Getpid w));
       match err with
       | Some e => logger_Errorf "failed to write pid file: %v" [e] ;; os_Exit 2
       | None => logger_Infof "%v" ["Start listening for URLs"]
       end) w.

(** [main] up to the [go] statement: a return is the process going on to
    start the worker and the event loop with the configuration loaded.  The
    deferred [logFile.Close()] and [os.Remove(pidFilePath)] are left out:
    they run only when [main] returns, and [os.Exit] skips them. *)
Definition main_startup : Proc Config :=
  fun w =>
    match loadConfig (defaultConfigPath w) w with
    | (_, Some e) =>
        (Fprintf_Stderr "Error loading config: %v\n" [e] ;; os_Exit 2) w
    | (config, None) =>
        (err ← os_OpenFile_append logFilePath;
         match err with
         | Some e => Fprintf_Stderr "failed to open log file: %v\n" [e] ;; os_Exit 2
         | None =>
             logrus_New_SetLevel (parsedLogLevel config) ;;
             main_acquire ;;
             mret config
         end) w
    end.

(** The worker goroutine on the URLs it receives from [urlListener], in the
    order it receives them: [for url := range urlListener]. *)
Fixpoint worker (config : Config) (received : list string) : Proc unit :=
  match received with
  | [] => mret ()
  | url :: rest => processURL url config ;; worker config rest
  end.

(** *** The dispatcher: [HandleURL], the channel and the worker

    [urlListener] is made by [make(chan string)], a channel without a
    buffer: a send completes when a receive takes the value. *)

(** [processURL] up to the start of the command ([cmd.Start] in [cmd.Run]). *)
Definition processURL_launch (urlStr : string) (config : Config)
  : Proc (nat * Cmd) :=
  let profile := chooseProfile urlStr config in
  logger_Debugf "Routing: %s  ->  profile-directory=%q\n" [urlStr; profile] ;;
  let c := {| cmd_name := "open";
              cmd_args := openInChrome_args (ChromeAppPath config) profile urlStr |} in
  n ← cmd_Start c;
  mret (n, c).

(** [processURL] from [cmd.Wait] in [cmd.Run] to its end. *)
Definition processURL_complete (n : nat) (c : Cmd) : Proc unit :=
  err ← cmd_Wait n c;
  match err with
  | Some e => logger_Errorf "Failed to open URL in Chrome: %v\n" [e]
  | None => mret ()
  end.

(** The context that delivers URL events: in its event loop, or inside
    [HandleURL] at the send [urlListener <- url]. *)
Inductive Notifier := NIdle | NSending (url : string).

(** The worker goroutine: at the receive of its [range] loop, holding a URL
    it has received, or waiting for the command it has started. *)
Inductive Worker :=
| WReceiving
| WGot (url : string)
| WLaunching (url : string) (n : nat) (c : Cmd).

(** What has happened, for the record. *)
Inductive Event :=
| EvReceive (url : string)
| EvLaunchStart (url : string)
| EvLaunchEnd (url : string).

Record System := {
  events : list string;     (* the URLs the event source is still to deliver *)
  notifier : Notifier;
  wstate : Worker;
  world : World;
  history : list Event
}.

Definition init (urls : list string) (w : World) : System :=
  {| events := urls; notifier := NIdle; wstate := WReceiving;
     world := w; history := [] |}.

Inductive step (config : Config) : System -> System -> Prop :=
| step_HandleURL u es wk w h :
    (* the event source calls HandleURL(u), which reaches the send *)
    step config
      {| events := u :: es; notifier := NIdle; wstate := wk; world := w; history := h |}
      {| events := es; notifier := NSending u; wstate := wk; world := w; history := h |}
| step_handoff u es w h :
    (* the send meets the receive of the worker; HandleURL returns *)
    step config
      {| events := es; notifier := NSending u; wstate := WReceiving; world := w;
         history := h |}
      {| events := es; notifier := NIdle; wstate := WGot u; world := w;
         history := h ++ [EvReceive u] |}
| step_launch u es nt w h n c w' :
    processURL_launch u config w = Ret (n, c) w' ->
    step config
      {| events := es; notifier := nt; wstate := WGot u; world := w; history := h |}
      {| events := es; notifier := nt; wstate := WLaunching u n c; world := w';
         history := h ++ [EvLaunchStart u] |}
| step_complete u es nt w h n c w' :
    processURL_complete n c w = Ret () w' ->
    step config
      {| events := es; notifier := nt; wstate := WLaunching u n c; world := w;
         history := h |}
      {| events := es; notifier := nt; wstate := WReceiving; world := w';
         history := h ++ [EvLaunchEnd u] |}.

Definition steps (config : Config) : System -> System -> Prop :=
  rtc (step config).

(** No context can move. *)
Definition quiescent (config : Config) (s : System) : Prop :=
  forall s', ~ step config s s'.

(** The record of one URL processed from receive to the end of its launch. *)
Definition processed (url : string) : list Event :=
  [EvReceive url; EvLaunchStart url; EvLaunchEnd url].

(** The hand-off of the URL in [HandleURL] can complete in one step. *)
Definition handoff_enabled (config : Config) (s : System) : Prop :=
  exists s', step config s s' /\ notifier s' = NIdle /\ events s' = events s.

(** The command [processURL] runs for a URL. *)
Definition launch_cmd (config : Config) (urlStr : string) : Cmd :=
  {| cmd_name := "open";
     cmd_args := openInChrome_args (ChromeAppPath config)
                   (chooseProfile urlStr config) urlStr |}.

(** The entry [processURL] writes when the command fails with [e]. *)
Definition failure_entry (e : error) : Entry :=
  {| entry_level := ErrorLevel;
     entry_line := {| format := "Failed to open URL in Chrome: %v\n"; args := [e] |} |}.

(** The record of a run that processes the URLs one after the other. *)
Definition expected (urls : list string) : list Event :=
  concat (map processed urls).

(** The URL the worker holds and the URL [HandleURL] is sending, if any. *)
Definition held_by_worker (s : System) : list string :=
  match wstate s with
  | WReceiving => []
  | WGot u | WLaunching u _ _ => [u]
  end.

Definition held_by_notifier (s : System) : list string :=
  match notifier s with
  | NIdle => []
  | NSending u => [u]
  end.

(** The state of a run on [urls] from the world [w0]: some of the URLs are
    done, and the world and the record are those of the worker having
    processed them in order, up to the URL it holds. *)
Definition consistent (config : Config) (urls : list string) (w0 : World)
    (s : System) : Prop :=
  exists done,
    urls = done ++ held_by_worker s ++ held_by_notifier s ++ events s /\
    is_Some (logger (world s)) /\
    match wstate s with
    | WReceiving =>
        history s = expected done /\
        worker config done w0 = Ret () (world s)
    | WGot u =>
        history s = expected done ++ [EvReceive u] /\
        worker config done w0 = Ret () (world s)
    | WLaunching u n c =>
        history s = expected done ++ [EvReceive u; EvLaunchStart u] /\
        exists w1, worker config done w0 = Ret () w1 /\
                   processURL_launch u config w1 = Ret (n, c) (world s)
    end.

(** The launches started and not yet ended in a record. *)
Fixpoint in_flight (h : list Event) : Z :=
  match h with
  | [] => 0
  | EvReceive _ :: h' => in_flight h'
  | EvLaunchStart _ :: h' => in_flight h' + 1
  | EvLaunchEnd _ :: h' => in_flight h' - 1
  end.

(** The number of steps a state is away from rest. *)
Definition remaining (s : System) : nat :=
  (4 * length (events s)
   + match notifier s with NIdle => 0 | NSending _ => 3 end
   + match wstate s with WReceiving => 0 | WGot _ => 2 | WLaunching _ _ _ => 1 end)%nat.

End Program.
End Listener.

(** ** Library instances for the examples

    Small executable stand-ins for the libraries, used to run the program
    on concrete inputs.  The theorems below hold for every instance. *)

Module Sample.

(** *** regexp, for the fragment the examples use: literal characters, [.]
    and an escaped punctuation character, each optionally starred.  A match
    is looked for at every position of the string, as [MatchString] does. *)

Inductive Atom := Lit (c : ascii) | AnyChar.
Inductive Token := TAtom (a : Atom) | TStar | TUnsupported (c : ascii) | TDangling.
Record Item := { atom : Atom; starred : bool }.

Definition is_alnum (c : ascii) : bool :=
  let n := N_of_ascii c in
  ((48 <=? n) && (n <=? 57) || (65 <=? n) && (n <=? 90) || (97 <=? n) && (n <=? 122))%N.

Definition is_operator (c : ascii) : bool :=
  bool_decide (c ∈ ["("; ")"; "["; "]"; "{"; "}"; "+"; "?"; "|"; "^"; "$"]%char).

Fixpoint tokens (s : string) : list Token :=
  match s with
  | EmptyString => []
  | String "\" EmptyString => [TDangling]
  | String "\" (String c rest) =>
      (if is_alnum c then TUnsupported c else TAtom (Lit c)) :: tokens rest
  | String "." rest => TAtom AnyChar :: tokens rest
  | String "*" rest => TStar :: tokens rest
  | String c rest =>
      (if is_operator c then TUnsupported c else TAtom (Lit c)) :: tokens rest
  end.

Fixpoint items (ts : list Token) : list Item + error :=
  match ts with
  | [] => inl []
  | TAtom a :: TStar :: rest =>
      match items rest with
      | inl p => inl ({| atom := a; starred := true |} :: p)
      | inr e => inr e
      end
  | TAtom a :: rest =>
      match items rest with
      | inl p => inl ({| atom := a; starred := false |} :: p)
      | inr e => inr e
      end
  | TStar :: _ => inr "missing argument to repetition operator"
  | TUnsupported _ :: _ => inr "operator outside the fragment"
  | TDangling :: _ => inr "trailing backslash at end of expression"
  end.

Definition atom_matches (a : Atom) (c : ascii) : bool :=
  match a with
  | Lit d => bool_decide (c = d)
  | AnyChar => negb (bool_decide (c = "010"%char))
  end.

(** Does the program match a prefix of the string? *)
Fixpoint match_here (p : list Item) (s : string) : bool :=
  match p with
  | [] => true
  | {| atom := a; starred := false |} :: p' =>
      match s with
      | String c s' => atom_matches a c && match_here p' s'
      | EmptyString => false
      end
  | {| atom := a; starred := true |} :: p' =>
      (fix star (s : string) : bool :=
         match_here p' s ||
         match s with
         | String c s' => atom_matches a c && star s'
         | EmptyString => false
         end) s
  end.

Fixpoint match_anywhere (p : list Item) (s : string) : bool :=
  match_here p s ||
  match s with
  | String _ s' => match_anywhere p s'
  | EmptyString => false
  end.

#[global] Instance regexp : RegexpLib := {|
  Regexp := list Item;
  regexp_Compile pattern := items (tokens pattern);
  MatchString := match_anywhere
|}.

(** *** net/url: the scheme, as [getScheme] splits it off, and the checks
    of [Parse] on control characters and on a colon in the first segment of
    a relative path.  Errors of authority and escape parsing are left out. *)

Definition is_alpha (c : ascii) : bool :=
  let n := N_of_ascii c in
  ((65 <=? n) && (n <=? 90) || (97 <=? n) && (n <=? 122))%N.

Definition is_scheme_char (c : ascii) : bool :=
  let n := N_of_ascii c in
  ((48 <=? n) && (n <=? 57))%N || bool_decide (c ∈ ["+"; "-"; "."]%char).

Definition ToLower_ascii (c : ascii) : ascii :=
  let n := N_of_ascii c in
  if ((65 <=? n) && (n <=? 90))%N then ascii_of_N (n + 32) else c.

Fixpoint ToLower (s : string) : string :=
  match s with
  | EmptyString => EmptyString
  | String c rest => String (ToLower_ascii c) (ToLower rest)
  end.

(** [getScheme], at index [i] with [seen] the characters read so far in
    reverse: the scheme and the rest, or an error. *)
Fixpoint getScheme_from (first : bool) (seen : string) (s rawURL : string)
  : (string * string) + error :=
  match s with
  | EmptyString => inl (EmptyString, rawURL)
  | String c rest =>
      if is_alpha c then getScheme_from false (seen +:+ String c EmptyString) rest rawURL
      else if is_scheme_char c then
        if first then inl (EmptyString, rawURL)
        else getScheme_from false (seen +:+ String c EmptyString) rest rawURL
      else if bool_decide (c = ":"%char) then
        if first then inr "missing protocol scheme"
        else inl (seen, rest)
      else inl (EmptyString, rawURL)
  end.

Definition getScheme (rawURL : string) : (string * string) + error :=
  getScheme_from true EmptyString rawURL rawURL.

Fixpoint has_control (s : string) : bool :=
  match s with
  | EmptyString => false
  | String c rest =>
      let n := N_of_ascii c in
      ((n <? 32) || (n =? 127))%N || has_control rest
  end.

(** Up to the first occurrence of [stop], or all of it. *)
Fixpoint upto (stop : ascii) (s : string) : string :=
  match s with
  | EmptyString => EmptyString
  | String c rest => if bool_decide (c = stop) then EmptyString
                     else String c (upto stop rest)
  end.

Fixpoint contains (stop : ascii) (s : string) : bool :=
  match s with
  | EmptyString => false
  | String c rest => bool_decide (c = stop) || contains stop rest
  end.

Definition Parse (rawURL : string) : URL + error :=
  let u := upto "#" rawURL in
  if has_control u then inr "net/url: invalid control character in URL"
  else if bool_decide (u = "*") then inl {| Scheme := "" |}
  else
    match getScheme u with
    | inr e => inr e
    | inl (scheme, rest) =>
        let rest := upto "?" rest in
        if negb (HasPrefix rest "/") && bool_decide (scheme = "")
           && contains ":" (upto "/" rest)
        then inr "first path segment in URL cannot contain colon"
        else inl {| Scheme := ToLower scheme |}
    end.

#[global] Instance url : UrlLib := {| url_Parse := Parse |}.

(** *** path/filepath: the elements joined by the separator (the examples
    use clean elements, which [Clean] leaves alone). *)
Fixpoint Join (elem : list string) : string :=
  match elem with
  | [] => ""
  | [e] => e
  | e :: rest => e +:+ "/" +:+ Join rest
  end.

#[global] Instance path : PathLib :=
  {| filepath_Join := Join; filepath_Join_tmp := fun name _ => eq_refl |}.

(** *** The text formatter of logrus, without the time stamp. *)
Definition log_line (n : nat) (e : Entry) : string :=
  "msg=" +:+ format (entry_line e).

(** *** logrus.ParseLevel *)
Definition ParseLevel (lvl : string) : Level + error :=
  let l := ToLower lvl in
  if bool_decide (l = "panic") then inl PanicLevel
  else if bool_decide (l = "fatal") then inl FatalLevel
  else if bool_decide (l = "error") then inl ErrorLevel
  else if bool_decide (l = "warn") || bool_decide (l = "warning") then inl WarnLevel
  else if bool_decide (l = "info") then inl InfoLevel
  else if bool_decide (l = "debug") then inl DebugLevel
  else if bool_decide (l = "trace") then inl TraceLevel
  else inr ("not a valid logrus Level: " +:+ lvl).

#[global] Instance logrus : LogrusLib := {| logrus_ParseLevel := ParseLevel |}.

End Sample.

(** ** Concrete inputs *)

Module Examples.
Import Sample.

(** [regexp.MustCompile], for patterns of the fragment. *)
Definition MustCompile (pattern : string) : Regexp :=
  match regexp_Compile pattern with
  | inl r => r
  | inr _ => []
  end.

Definition rule (pattern profile : string) : Rule :=
  {| Pattern := pattern; ProfileDirectory := profile |}.

Definition compiled (pattern profile : string) : compiledRule :=
  {| re := MustCompile pattern; profileDirectory := profile |}.

(** Rules [("a", "P1"), (".*", "P2")]: on ["a.com"] both match. *)
Definition overlapping : list compiledRule := [compiled "a" "P1"; compiled ".*" "P2"].

(** The configuration [{defaultProfile: "Default", rules: [{pattern:
    "github\.com/acme", profile: "Work"}]}] as decoded from JSON, with the
    strategy and log level given. *)
Definition acme_decoded (strategy logLevel : string) : Listener.Config :=
  {| Listener.ChromeAppPath := "";
     Listener.DefaultProfileDirectory := "Default";
     Listener.StrategyForUnknownUrls := strategy;
     Listener.Rules := [rule "github\.com/acme" "Work"];
     Listener.LogLevel := logLevel;
     Listener.compiledRules := [];
     Listener.parsedLogLevel := PanicLevel |}.

(** The same configuration as [loadConfig] completes it. *)
Definition acme (strategy logLevel : string) : Listener.Config :=
  (Listener.loadConfig_finish (acme_decoded strategy logLevel)).1.

Definition acme_oneshot_decoded : OneShot.Config :=
  {| OneShot.ChromeAppPath := "";
     OneShot.DefaultProfileDirectory := "";
     OneShot.Rules := [rule "github\.com/acme" "Work"] |}.

(** A world with no pid file, in which every command succeeds; the logger
    is set to [lvl]. *)
Definition quiet (lvl : Level) : World :=
  {| UserHomeDir := inl "/Users/me";
     files := ∅;
     errno := fun _ => "no such file or directory";
     read_faults := ∅;
     write_faults := ∅;
     Getpid := 4711;
     Kill := fun _ _ => Some "no such process";
     Run := fun _ _ => None;
     write_progress := fun _ => None;
     log_text := Sample.log_line;
     stderr := [];
     spawned := [];
     logger := Some {| level := lvl; written := [] |} |}.

(** The same world, but every command fails. *)
Definition failing (lvl : Level) : World :=
  {| UserHomeDir := inl "/Users/me";
     files := ∅;
     errno := fun _ => "no such file or directory";
     read_faults := ∅;
     write_faults := ∅;
     Getpid := 4711;
     Kill := fun _ _ => Some "no such process";
     Run := fun _ _ => Some "exit status 1";
     write_progress := fun _ => None;
     log_text := Sample.log_line;
     stderr := [];
     spawned := [];
     logger := Some {| level := lvl; written := [] |} |}.

(** A world whose pid file names process 4242, which answers signal 0. *)
Definition held : World :=
  {| UserHomeDir := inl "/Users/me";
     files := {[ Listener.pidFilePath := "4242" ]};
     errno := fun _ => "no such file or directory";
     read_faults := ∅;
     write_faults := ∅;
     Getpid := 4711;
     Kill := fun pid _ => if decide (pid = 4242) then None else Some "no such process";
     Run := fun _ _ => None;
     write_progress := fun _ => None;
     log_text := Sample.log_line;
     stderr := [];
     spawned := [];
     logger := Some {| level := InfoLevel; written := [] |} |}.

(** A world whose pid file names process 4242, which is gone. *)
Definition stale : World :=
  {| UserHomeDir := inl "/Users/me";
     files := {[ Listener.pidFilePath := "4242" ]};
     errno := fun _ => "no such file or directory";
     read_faults := ∅;
     write_faults := ∅;
     Getpid := 4711;
     Kill := fun _ _ => Some "no such process";
     Run := fun _ _ => None;
     write_progress := fun _ => None;
     log_text := Sample.log_line;
     stderr := [];
     spawned := [];
     logger := Some {| level := InfoLevel; written := [] |} |}.

(** A world whose pid file names process 4242, which is gone; the file
    belongs to another user and cannot be written. *)
Definition foreign_stale : World :=
  {| UserHomeDir := inl "/Users/me";
     files := {[ Listener.pidFilePath := "4242" ]};
     errno := fun _ => "permission denied";
     read_faults := ∅;
     write_faults := {[ Listener.pidFilePath ]};
     Getpid := 4711;
     Kill := fun _ _ => Some "no such process";
     Run := fun _ _ => None;
     write_progress := fun _ => None;
     log_text := Sample.log_line;
     stderr := [];
     spawned := [];
     logger := Some {| level := InfoLevel; written := [] |} |}.

(** The listener with URLs ["a"] and ["b"] to deliver, at the moment the
    worker waits for the command it started for ["a"] and [HandleURL] has
    been called with ["b"]. *)
Definition blocked : Listener.System :=
  {| Listener.events := [];
     Listener.notifier := Listener.NSending "b";
     Listener.wstate :=
       Listener.WLaunching "a" 0 (Listener.launch_cmd (acme "" "") "a");
     Listener.world :=
       final_world (Listener.processURL_launch "a" (acme "" "") (quiet InfoLevel));
     Listener.history := [Listener.EvReceive "a"; Listener.EvLaunchStart "a"] |}.

End Examples.

(** ** src/unnamed/part_002: the lock-file guarded build

    [Config], [loadConfig], [chooseProfile], [openInChrome] and [processURL]
    have the text of the listener; [main] differs in its guard. *)

(** [os.OpenFile(path, O_CREATE|O_EXCL, 0600)]: fails when the file exists,
    or cannot be created; otherwise the file is created empty. *)
Definition os_OpenFile_excl (path : string) : Proc (option error) :=
  fun w =>
    match files w !! path with
    | Some _ => Ret (Some (PathError w "open" path)) w
    | None =>
        if decide (path ∈ write_faults w) then Ret (Some (PathError w "open" path)) w
        else Ret None (set_files (<[path := ""]> (files w)) w)
    end.


Module LockFile.
Section Program.
Context `{RegexpLib} `{UrlLib} `{PathLib} `{LogrusLib} `{JsonLib Listener.Config}.

Definition lockFilePath : string :=
  filepath_Join ["/tmp"; "chrome-profile-router.lock"].
Definition logFilePath : string :=
  filepath_Join ["/tmp"; "chrome-profile-router.log"].

(** [main] from the comment "exit if another instance is running" to the
    [go] statement; [logger.Debugln(s)] writes [s]. *)
Definition main_acquire : Proc unit :=
  err ← os_OpenFile_excl lockFilePath;
  match err with
  | Some _ =>
      logger_Debugf "%v" ["Another instance is already running, exiting"] ;;
      os_Exit 0
  | None => mret ()
  end.


(** [main] up to the [go] statement. *)
Definition main_startup : Proc Listener.Config :=
  fun w =>
    match Listener.loadConfig (Listener.defaultConfigPath w) w with
    | (_, Some e) =>
        (Fprintf_Stderr "Error loading config: %v\n" [e] ;; os_Exit 2) w
    | (config, None) =>
        (err ← os_OpenFile_append logFilePath;
         match err with
         | Some e => Fprintf_Stderr "failed to open log file: %v\n" [e] ;; os_Exit 2
         | None =>
             logrus_New_SetLevel (Listener.parsedLogLevel config) ;;
             main_acquire ;;
             mret config
         end) w
    end.

End Program.
End LockFile.

(** ** src/unnamed/part_001: the command-line build

    [Config], [loadConfig], [chooseProfile] and [openInChrome] have the text
    of the one-shot build. *)

(** [strings.Contains]. *)
Fixpoint Contains (s substr : string) : bool :=
  String.prefix substr s ||
  match s with
  | EmptyString => false
  | String _ rest => Contains rest substr
  end.

(** [strings.TrimSpace]. *)
Class StringsLib := {
  strings_TrimSpace : string -> string
}.

Module CommandLine.

(** The flags as [flag.Parse] has set them. *)
Record Flags := {
  config : string;
  dry_run : bool;
  version : bool
}.

(** Standard input as [main] finds it: [os.Stdin.Stat()] fails, or reports
    a character device, or something else, from which [io.ReadAll] gets
    [bytes]. *)
Inductive Stdin :=
| StatFails
| CharDevice
| Piped (bytes : string).

Definition isLikelyURL (s : string) : bool :=
  if HasPrefix s "http://" || HasPrefix s "https://" || HasPrefix s "file://"
     || HasPrefix s "mailto:"
  then true
  else Contains s "." || Contains s ":".

Section Program.
Context `{RegexpLib} `{UrlLib} `{PathLib} `{StringsLib} `{JsonLib OneShot.Config}.

(** The arguments to route: [flag.Args()], or the trimmed text of standard
    input when there are none.  [stat.Mode()] on the nil [FileInfo] of a
    failed [Stat] is a run-time panic. *)
Definition main_args (flag_Args : list string) (stdin : Stdin) : Proc (list string) :=
  match flag_Args with
  | _ :: _ => mret flag_Args
  | [] =>
      match stdin with
      | StatFails => fun w => Crash w
      | CharDevice => mret flag_Args
      | Piped stdinBytes =>
          let txt := strings_TrimSpace stdinBytes in
          if decide (txt <> "") then mret (flag_Args ++ [txt]) else mret flag_Args
      end
  end.

(** The loop [for _, raw := range args] of [main], entered with [firstErr];
    it returns [firstErr] as the loop leaves it. *)
Fixpoint main_loop (cfg : OneShot.Config) (compiledRules : list compiledRule)
    (dryRun : bool) (args : list string) (firstErr : option error)
  : Proc (option error) :=
  match args with
  | [] => mret firstErr
  | raw :: rest =>
      if negb (isLikelyURL raw) then
        main_loop cfg compiledRules dryRun rest firstErr
      else
        let urlStr := strings_TrimSpace raw in
        let profile := OneShot.chooseProfile urlStr compiledRules
                         (OneShot.DefaultProfileDirectory cfg) in
        Fprintf_Stderr "Routing: %s  ->  profile-directory=%q\n" [urlStr; profile] ;;
        if dryRun then main_loop cfg compiledRules dryRun rest firstErr
        else
          err ← OneShot.openInChrome (OneShot.ChromeAppPath cfg) profile urlStr;
          match err with
          | Some e =>
              Fprintf_Stderr "Failed to open URL in Chrome: %v\n" [e] ;;
              main_loop cfg compiledRules dryRun rest
                (match firstErr with None => Some e | Some _ => firstErr end)
          | None => main_loop cfg compiledRules dryRun rest firstErr
          end
  end.

(** [main]: it returns the lines it has printed on standard output; a
    return is the process ending with status 0. *)
Definition main (flags : Flags) (flag_Args : list string) (stdin : Stdin)
  : Proc (list string) :=
  if version flags then mret ["chrome-profile-router 1.0.0"]
  else fun w =>
    let cfgPath := if decide (config flags = "") then OneShot.defaultConfigPath w
                   else config flags in
    match OneShot.loadConfig cfgPath w with
    | (_, _, Some e) =>
        (Fprintf_Stderr "Error loading config: %v\n" [e] ;; os_Exit 2) w
    | (cfg, compiledRules, None) =>
        (args ← main_args flag_Args stdin;
         match args with
         | [] => Fprintf_Stderr "%v\n" ["No URL provided."] ;; os_Exit 1
         | _ =>
             firstErr ← main_loop cfg compiledRules (dry_run flags) args None;
             match firstErr with
             | Some _ =>
                 Fprintf_Stderr "%v\n" ["One or more URLs failed to open."] ;;
                 os_Exit 3
             | None => mret []
             end
         end) w
    end.

(** The URLs [main_loop] routes: the arguments that look like URLs, trimmed. *)
Definition routed (args : list string) : list string :=
  strings_TrimSpace <$> filter (fun raw => isLikelyURL raw = true) args.

(** The command [main_loop] runs for a routed URL. *)
Definition launch_cmd (cfg : OneShot.Config) (compiledRules : list compiledRule)
    (urlStr : string) : Cmd :=
  {| cmd_name := "open";
     cmd_args := OneShot.openInChrome_args (OneShot.ChromeAppPath cfg)
                   (OneShot.chooseProfile urlStr compiledRules
                      (OneShot.DefaultProfileDirectory cfg)) urlStr |}.

End Program.
End CommandLine.

(** The URLs whose launch a record of the dispatcher shows as started, in
    the order of the record. *)
Fixpoint started (h : list Listener.Event) : list string :=
  match h with
  | [] => []
  | Listener.EvLaunchStart u :: h' => u :: started h'
  | _ :: h' => started h'
  end.

(** The errors of the commands [cmds] when they are run one after the other,
    the first of them as the [n]-th command of the process. *)
Fixpoint run_failures (run : nat -> Cmd -> option error) (n : nat) (cmds : list Cmd)
  : list error :=
  match cmds with
  | [] => []
  | c :: cs =>
      match run n c with
      | Some e => e :: run_failures run (S n) cs
      | None => run_failures run (S n) cs
      end
  end.

(** ** More concrete inputs *)

Module MoreExamples.
Import Sample.

(** A world as a second process finds it once the process 4711 of
    [Examples.stale] has taken the pid file: 4711 answers signal 0. *)
Definition second_view : World :=
  {| UserHomeDir := inl "/Users/me";
     files := files (final_world (Listener.main_acquire Examples.stale));
     errno := fun _ => "no such file or directory";
     read_faults := ∅;
     write_faults := ∅;
     Getpid := 5000;
     Kill := fun pid _ => if decide (pid = 4711) then None else Some "no such process";
     Run := fun _ _ => None;
     write_progress := fun _ => None;
     log_text := Sample.log_line;
     stderr := [];
     spawned := [];
     logger := Some {| level := InfoLevel; written := [] |} |}.

(** The same, after process 4711 has died. *)
Definition second_view_after_crash : World :=
  {| UserHomeDir := inl "/Users/me";
     files := files (final_world (Listener.main_acquire Examples.stale));
     errno := fun _ => "no such file or directory";
     read_faults := ∅;
     write_faults := ∅;
     Getpid := 5000;
     Kill := fun _ _ => Some "no such process";
     Run := fun _ _ => None;
     write_progress := fun _ => None;
     log_text := Sample.log_line;
     stderr := [];
     spawned := [];
     logger := Some {| level := InfoLevel; written := [] |} |}.

(** A world whose pid file holds the identifier of a live process followed
    by a line feed. *)
Definition newline_pid : World :=
  {| UserHomeDir := inl "/Users/me";
     files := {[ Listener.pidFilePath := "4242" +:+ String "010" "" ]};
     errno := fun _ => "no such file or directory";
     read_faults := ∅;
     write_faults := ∅;
     Getpid := 4711;
     Kill := fun _ _ => None;
     Run := fun _ _ => None;
     write_progress := fun _ => None;
     log_text := Sample.log_line;
     stderr := [];
     spawned := [];
     logger := Some {| level := InfoLevel; written := [] |} |}.

(** [strings.TrimSpace] on ASCII text: spaces, tabs, line feeds, vertical
    tabs, form feeds and carriage returns are cut from both ends. *)
Definition is_space (c : ascii) : bool :=
  let n := N_of_ascii c in
  ((n =? 32) || ((9 <=? n) && (n <=? 13)))%N.

Fixpoint TrimLeft (s : string) : string :=
  match s with
  | EmptyString => EmptyString
  | String c rest => if is_space c then TrimLeft rest else s
  end.

Fixpoint TrimRight (s : string) : string :=
  match s with
  | EmptyString => EmptyString
  | String c rest =>
      match TrimRight rest with
      | EmptyString => if is_space c then EmptyString else String c EmptyString
      | t => String c t
      end
  end.

#[global] Instance strings : StringsLib :=
  {| strings_TrimSpace s := TrimRight (TrimLeft s) |}.

(** The listener of process 4711 at work after it took the pid file in
    [Examples.stale]: the worker waits for the command it started for
    ["a"]. *)
Definition running : Listener.System :=
  {| Listener.events := [];
     Listener.notifier := Listener.NIdle;
     Listener.wstate :=
       Listener.WLaunching "a" 0 (Listener.launch_cmd (Examples.acme "" "") "a");
     Listener.world :=
       final_world (Listener.processURL_launch "a" (Examples.acme "" "")
                      (final_world (Listener.main_acquire Examples.stale)));
     Listener.history := [Listener.EvReceive "a"; Listener.EvLaunchStart "a"] |}.

(** A world in which [main] has opened the log file. *)
Definition with_log (w : World) : World :=
  set_files (<[logFilePath := ""]> (files w)) w.



(** A world as a process of the lock-file build finds it after an earlier
    process took the lock in [Examples.quiet] and died without releasing
    it: no process answers a signal. *)
Definition lock_left_behind : World :=
  {| UserHomeDir := inl "/Users/me";
     files := files (final_world (LockFile.main_acquire (Examples.quiet InfoLevel)));
     errno := fun _ => "file exists";
     read_faults := ∅;
     write_faults := ∅;
     Getpid := 5000;
     Kill := fun _ _ => Some "no such process";
     Run := fun _ _ => None;
     write_progress := fun _ => None;
     log_text := Sample.log_line;
     stderr := [];
     spawned := [];
     logger := Some {| level := InfoLevel; written := [] |} |}.

(** The compiled rules of the example configuration of the one-shot and
    command-line builds. *)
Definition acme_oneshot : OneShot.Config :=
  (OneShot.loadConfig_finish Examples.acme_oneshot_decoded).1.1.
Definition acme_oneshot_rules : list compiledRule :=
  (OneShot.loadConfig_finish Examples.acme_oneshot_decoded).1.2.

End MoreExamples.

(** * Properties *)

(** ** Routing *)

Section RoutingFacts.
Context `{RegexpLib}.

Lemma chooseProfile_range_first urlStr before r after :
  Forall (fun c => MatchString (re c) urlStr = false) before ->
  MatchString (re r) urlStr = true ->
  chooseProfile_range urlStr (before ++ r :: after) = Some (profileDirectory r).
Proof.
  intros Hbefore Hr. induction Hbefore as [|c before Hc _ IH]; simpl.
  - by rewrite Hr.
  - by rewrite Hc.
Qed.

Lemma chooseProfile_range_none urlStr compiled :
  Forall (fun c => MatchString (re c) urlStr = false) compiled <->
  chooseProfile_range urlStr compiled = None.
Proof.
  induction compiled as [|c compiled IH]; simpl.
  - split; [done | constructor].
  - destruct (MatchString (re c) urlStr) eqn:Hc.
    + split; [|done]. intros Hall. apply Forall_cons in Hall as [Hc' _]. congruence.
    + rewrite <- IH. split.
      * intros Hall. by apply Forall_cons in Hall as [_ ?].
      * intros Hall. by constructor.
Qed.

Lemma chooseProfile_range_FirstMatch urlStr compiled m :
  FirstMatch urlStr compiled m ->
  chooseProfile_range urlStr compiled = profileDirectory <$> m.
Proof.
  intros [compiled' Hnone | before r after Hbefore Hr]; simpl.
  - by apply chooseProfile_range_none.
  - by apply chooseProfile_range_first.
Qed.

(** Every URL has a first match or none: the relation is total... *)
Lemma FirstMatch_total urlStr compiled :
  exists m, FirstMatch urlStr compiled m.
Proof.
  induction compiled as [|c compiled [m IH]].
  - exists None. by constructor.
  - destruct (MatchString (re c) urlStr) eqn:Hc.
    + exists (Some c). by apply (FirstMatch_some urlStr [] c compiled).
    + inversion IH as [compiled' Hnone | before r after Hbefore Hr]; subst.
      * exists None. constructor. by constructor.
      * exists (Some r). apply (FirstMatch_some urlStr (c :: before) r after); [by constructor | done].
Qed.

(** ... and functional: two first matches carry the same profile. *)
Lemma FirstMatch_functional urlStr compiled m m' :
  FirstMatch urlStr compiled m ->
  FirstMatch urlStr compiled m' ->
  profileDirectory <$> m = profileDirectory <$> m'.
Proof.
  intros Hm Hm'. apply chooseProfile_range_FirstMatch in Hm, Hm'. congruence.
Qed.

(** C1.  For every URL and every list of compiled rules, both builds of
    [chooseProfile] return the profile directory of the first rule, in source
    order, whose expression matches the URL ([MatchString], the library's
    unanchored search), whatever rules follow it and whether or not they
    match too.  When no rule matches, the result is the fallback of the
    build, which is taken from no rule: the default profile directory in the
    one-shot build; in the listener the default profile directory under the
    strategy use-default-profile and the empty string otherwise.  It stays
    the fallback whatever profile directories the rules carry. *)
Theorem chooseProfile_first_match
    (urlStr : string) (compiled : list compiledRule) (m : option compiledRule) :
  FirstMatch urlStr compiled m ->
  (forall fallback,
     OneShot.chooseProfile urlStr compiled fallback =
       match m with Some r => profileDirectory r | None => fallback end) /\
  (forall config,
     Listener.compiledRules config = compiled ->
     Listener.chooseProfile urlStr config =
       match m with
       | Some r => profileDirectory r
       | None =>
           if decide (Listener.StrategyForUnknownUrls config
                      = Listener.StrategyForUnknownUrlsUseDefaultProfile)
           then Listener.DefaultProfileDirectory config
           else ""
       end) /\
  (m = None ->
   forall compiled' fallback,
     re <$> compiled' = re <$> compiled ->
     OneShot.chooseProfile urlStr compiled' fallback = fallback).
Proof.
  intros Hm. pose proof (chooseProfile_range_FirstMatch _ _ _ Hm) as Hrange.
  split; [|split].
  - intros fallback. unfold OneShot.chooseProfile. rewrite Hrange. by destruct m.
  - intros config <-. unfold Listener.chooseProfile. rewrite Hrange. by destruct m.
  - intros -> compiled' fallback Hre. unfold OneShot.chooseProfile.
    assert (Hnone : chooseProfile_range urlStr compiled' = None); [|by rewrite Hnone].
    apply chooseProfile_range_none.
    apply (Forall_fmap re (fun r => MatchString r urlStr = false)).
    rewrite Hre. apply Forall_fmap. by apply chooseProfile_range_none.
Qed.

End RoutingFacts.

(** With rules [("a", "P1"), (".*", "P2")] the URL ["a.com"] goes to [P1],
    though the second rule matches it as well. *)
Lemma chooseProfile_first_match_witness :
  FirstMatch "a.com" Examples.overlapping (Some (Examples.compiled "a" "P1")) /\
  MatchString (re (Examples.compiled ".*" "P2")) "a.com" = true /\
  OneShot.chooseProfile "a.com" Examples.overlapping "Default" = "P1".
Proof.
  assert (Hm : FirstMatch "a.com" Examples.overlapping
                 (Some (Examples.compiled "a" "P1"))).
  { apply (FirstMatch_some "a.com" [] (Examples.compiled "a" "P1")
             [Examples.compiled ".*" "P2"]); [constructor | reflexivity]. }
  split; [exact Hm|]. split; [reflexivity|].
  exact (proj1 (chooseProfile_first_match "a.com" Examples.overlapping _ Hm) "Default").
Defined.

(** ** strconv: [Atoi] reads back what [Itoa] writes *)

Lemma digit_value_pretty_N_char (d : N) :
  (d < 10)%N -> digit_value (pretty_N_char d) = Some (Z.of_N d).
Proof.
  intros Hd.
  assert (Hcases : d ∈ [0; 1; 2; 3; 4; 5; 6; 7; 8; 9]%N).
  { assert (Hnat : (N.to_nat d < 10)%nat) by lia.
    rewrite <- (N2Nat.id d).
    destruct (N.to_nat d) as [|[|[|[|[|[|[|[|[|[|n]]]]]]]]]]; [set_solver..|lia]. }
  repeat (apply elem_of_cons in Hcases as [->|Hcases]; [reflexivity|]).
  by apply elem_of_nil in Hcases.
Qed.

Lemma digits_value_pretty_N_go (x : N) (s : string) :
  digits_value (pretty_N_go x s) 0 = digits_value s (Z.of_N x).
Proof.
  revert s. induction (N.lt_wf_0 x) as [x _ IH]; intros s.
  destruct (decide (x = 0%N)) as [->|Hx]; [by rewrite pretty_N_go_0|].
  rewrite pretty_N_go_step by lia.
  rewrite IH by (apply N.div_lt; lia). simpl.
  rewrite digit_value_pretty_N_char by (apply N.mod_lt; lia).
  f_equal. rewrite (N.div_mod x 10) at 3 by lia. lia.
Qed.

Lemma pretty_N_go_head (x : N) (s : string) :
  (0 < x)%N ->
  exists d s', (d < 10)%N /\ pretty_N_go x s = String (pretty_N_char d) s'.
Proof.
  revert s. induction (N.lt_wf_0 x) as [x _ IH]; intros s Hx.
  rewrite pretty_N_go_step by lia.
  destruct (decide (x `div` 10 = 0)%N) as [->|Hdiv].
  - rewrite pretty_N_go_0. exists (x `mod` 10)%N, s. split; [|done].
    apply N.mod_lt. lia.
  - apply IH; [apply N.div_lt; lia | by apply N.neq_0_lt_0].
Qed.

Lemma Atoi_digits (s : string) (c : ascii) (d n : Z) :
  digit_value c = Some d ->
  digits_value (String c s) 0 = Some n ->
  - 2 ^ 63 <= n < 2 ^ 63 ->
  Atoi (String c s) = Some n.
Proof.
  intros Hc Hn Hrange. unfold Atoi.
  rewrite bool_decide_eq_false_2 by (intros ->; discriminate Hc).
  rewrite bool_decide_eq_false_2 by (intros ->; discriminate Hc).
  rewrite Hn. by rewrite decide_True.
Qed.

Lemma Atoi_positive (p : positive) :
  Z.pos p < 2 ^ 63 -> Atoi (Itoa (Z.pos p)) = Some (Z.pos p).
Proof.
  intros Hrange.
  change (Itoa (Z.pos p)) with (pretty_N_go (N.pos p) "").
  destruct (pretty_N_go_head (N.pos p) "") as (d & s' & Hd & Hs); [lia|].
  pose proof (digits_value_pretty_N_go (N.pos p) "") as Hv. rewrite Hs in *.
  apply (Atoi_digits s' _ (Z.of_N d)).
  - by apply digit_value_pretty_N_char.
  - by rewrite Hv.
  - lia.
Qed.

(** [Atoi] reads back every [int] that [Itoa] has written. *)
Lemma Atoi_Itoa (z : Z) :
  - 2 ^ 63 <= z < 2 ^ 63 -> Atoi (Itoa z) = Some z.
Proof.
  intros Hrange. destruct z as [|p|p].
  - reflexivity.
  - apply Atoi_positive. lia.
  - change (Itoa (Z.neg p)) with (String "-" (pretty_N_go (N.pos p) "")).
    pose proof (digits_value_pretty_N_go (N.pos p) "") as Hv. simpl in Hv.
    destruct (pretty_N_go_head (N.pos p) "") as (d & s' & Hd & Hs); [lia|].
    unfold Atoi. rewrite bool_decide_eq_false_2 by done.
    rewrite bool_decide_eq_true_2 by done. rewrite Hs in *.
    rewrite Hv. by rewrite decide_True by lia.
Qed.

Example Atoi_examples :
  Atoi "4711" = Some 4711 /\ Atoi "-12" = Some (-12) /\ Atoi "+7" = Some 7 /\
  Atoi "" = None /\ Atoi "-" = None /\ Atoi "47 " = None /\ Atoi "0x10" = None /\
  Atoi "9223372036854775807" = Some 9223372036854775807 /\
  Atoi "9223372036854775808" = None.
Proof. repeat split. Qed.

(** A decimal numeral followed by a character that is not a digit can be
    read in one way only. *)
Lemma digits_value_acc (s : string) (acc acc' : Z) :
  is_Some (digits_value s acc) -> is_Some (digits_value s acc').
Proof.
  revert acc acc'. induction s as [|c s IH]; intros acc acc'; simpl; [by eauto|].
  destruct (digit_value c); [apply IH|done].
Qed.

Lemma digits_prefix_unique (a b : string) (c d : ascii) (x y : string) :
  is_Some (digits_value a 0) -> is_Some (digits_value b 0) ->
  digit_value c = None -> digit_value d = None ->
  a +:+ String c x = b +:+ String d y ->
  a = b.
Proof.
  intros Ha Hb Hc Hd. revert b Hb.
  induction a as [|e a IH]; intros [|f b] Hb; simpl; intros Heq.
  - done.
  - injection Heq as <- _. simpl in Hb. rewrite Hc in Hb. by destruct Hb.
  - injection Heq as -> _. simpl in Ha. rewrite Hd in Ha. by destruct Ha.
  - injection Heq as <- Heq. f_equal. simpl in Ha, Hb.
    destruct (digit_value e); [|by destruct Ha].
    apply IH; [by eapply digits_value_acc|by eapply digits_value_acc|done].
Qed.

Lemma pretty_nat_digits (i : nat) : is_Some (digits_value (pretty i) 0).
Proof.
  change (pretty i) with (pretty (N.of_nat i)). unfold pretty, pretty_N.
  destruct (decide (N.of_nat i = 0%N)); [by eexists|].
  rewrite digits_value_pretty_N_go. by eexists.
Qed.

(** ** Rule compilation *)

Section CompileFacts.
Context `{RegexpLib}.

Lemma offending_dec (r : Rule) : {offending r} + {~ offending r}.
Proof.
  unfold offending.
  destruct (decide (Pattern r = "")) as [|Hp]; [by left; left|].
  destruct (decide (ProfileDirectory r = "")) as [|Hd]; [by left; right; left|].
  destruct (regexp_Compile (Pattern r)) as [re0|err] eqn:Hc.
  - right. intros [?|[?|[err Herr]]]; congruence.
  - left. right. right. by exists err.
Defined.

(** A run of the loop that reaches its end has compiled every rule, in
    order, after the rules compiled before it. *)
Lemma loadConfig_rules_success rules i cr :
  Forall (fun r => ~ offending r) rules ->
  exists cr', loadConfig_rules i rules cr = (cr ++ cr', None) /\
              Forall2 compiled_from rules cr'.
Proof.
  intros Hall. revert i cr.
  induction Hall as [|r rules Hr _ IH]; intros i cr; simpl.
  - exists []. by rewrite app_nil_r.
  - destruct (decide _) as [Hempty|Hfull].
    { exfalso. apply Hr. unfold offending. tauto. }
    destruct (regexp_Compile (Pattern r)) as [re0|err] eqn:Hc.
    + destruct (IH (S i) (cr ++ [{| re := re0; profileDirectory := ProfileDirectory r |}]))
        as (cr' & -> & Hcr').
      exists ({| re := re0; profileDirectory := ProfileDirectory r |} :: cr').
      split; [by rewrite <- app_assoc|].
      constructor; [by split|done].
    + exfalso. apply Hr. right. right. by exists err.
Qed.

(** A run of the loop that returns an error returns no compiled rule and
    stopped at the first offending rule, whose index the error carries. *)
Lemma loadConfig_rules_failure rules i cr cr' e :
  loadConfig_rules i rules cr = (cr', Some e) ->
  cr' = [] /\
  exists k r, rules !! k = Some r /\ offending r /\
              Forall (fun r' => ~ offending r') (take k rules) /\
              rule_error (i + k) r e.
Proof.
  revert i cr. induction rules as [|r rules IH]; intros i cr; simpl; [done|].
  destruct (decide _) as [Hempty|Hfull].
  - intros [= <- <-]. split; [done|]. exists 0%nat, r.
    rewrite Nat.add_0_r. repeat split; [|constructor|by left].
    unfold offending. tauto.
  - destruct (regexp_Compile (Pattern r)) as [re0|err] eqn:Hc.
    + intros Hrun. destruct (IH _ _ Hrun) as (-> & k & r' & Hk & Hoff & Hbefore & Herr).
      split; [done|]. exists (S k), r'. repeat split; [done..| |].
      * simpl. constructor; [|done].
        intros [?|[?|[err Herr']]]; [tauto|tauto|congruence].
      * by replace (i + S k)%nat with (S i + k)%nat by lia.
    + intros [= <- <-]. split; [done|]. exists 0%nat, r.
      rewrite Nat.add_0_r. repeat split; [|constructor|].
      * right. right. by exists err.
      * right. split; [tauto|]. by exists err.
Qed.

Lemma loadConfig_rules_no_error rules i cr cr' :
  loadConfig_rules i rules cr = (cr', None) ->
  Forall (fun r => ~ offending r) rules.
Proof.
  revert i cr. induction rules as [|r rules IH]; intros i cr; simpl; [by constructor|].
  destruct (decide _) as [?|Hfull]; [done|].
  destruct (regexp_Compile (Pattern r)) as [re0|err] eqn:Hc; [|done].
  intros Hrun. constructor; [|by eapply IH].
  intros [?|[?|[err Herr]]]; [tauto|tauto|congruence].
Qed.

Lemma valid_or_offending (rules : list Rule) :
  Forall (fun r => ~ offending r) rules \/ Exists offending rules.
Proof.
  induction rules as [|r rules [IH|IH]].
  - left. constructor.
  - destruct (offending_dec r); [right; by left | left; by constructor].
  - right. by right.
Qed.

Lemma valid_not_offending (rules : list Rule) :
  Forall (fun r => ~ offending r) rules -> ~ Exists offending rules.
Proof.
  intros Hall Hex. induction Hex as [r rules Hr|r rules _ IH].
  - apply Forall_cons in Hall as [Hr' _]. by apply Hr'.
  - apply Forall_cons in Hall as [_ Hall]. by apply IH.
Qed.

(** The message of a rule error tells the index of the rule. *)
Lemma rule_error_index (i j : nat) (r r' : Rule) (e : error) :
  rule_error i r e -> rule_error j r' e -> i = j.
Proof.
  unfold rule_error.
  intros [[_ ->]|[_ (err & _ & ->)]] [[_ He]|[_ (err' & _ & He)]];
    simpl in He; injection He as He;
    apply (inj pretty); eapply digits_prefix_unique; try exact He;
    auto using pretty_nat_digits.
Qed.

(** C6.  The rule loop of [loadConfig] returns an error, and then no compiled
    rule at all, if and only if some rule has an empty pattern, an empty
    profile directory, or a pattern that [regexp.Compile] rejects; the error
    message carries the index of the first such rule; when every rule is
    valid, the loop returns no error and one compiled rule per rule, in the
    order of the rules. *)
Theorem loadConfig_rules_spec (rules : list Rule) :
  (Exists offending rules <->
     exists e, loadConfig_rules 0 rules [] = ([], Some e)) /\
  (forall cr e,
     loadConfig_rules 0 rules [] = (cr, Some e) ->
     cr = [] /\
     exists i r, rules !! i = Some r /\ offending r /\
                 Forall (fun r' => ~ offending r') (take i rules) /\
                 rule_error i r e /\
                 forall j r', rule_error j r' e -> j = i) /\
  (Forall (fun r => ~ offending r) rules <->
     exists cr, loadConfig_rules 0 rules [] = (cr, None) /\
                Forall2 compiled_from rules cr).
Proof.
  split; [|split].
  - split.
    + intros Hex. destruct (loadConfig_rules 0 rules []) as [cr [e|]] eqn:Hrun.
      * destruct (loadConfig_rules_failure _ _ _ _ _ Hrun) as [-> _]. by exists e.
      * apply loadConfig_rules_no_error in Hrun.
        by destruct (valid_not_offending rules).
    + intros [e Hrun].
      destruct (loadConfig_rules_failure _ _ _ _ _ Hrun) as (_ & k & r & Hk & Hoff & _).
      apply Exists_exists. exists r. split; [|done].
      by eapply list_elem_of_lookup_2.
  - intros cr e Hrun.
    destruct (loadConfig_rules_failure _ _ _ _ _ Hrun) as (-> & k & r & Hk & Hoff & Hb & He).
    split; [done|]. exists k, r. repeat split; try done.
    intros j r' He'. by apply (rule_error_index j k r' r e).
  - split.
    + intros Hall. destruct (loadConfig_rules_success rules 0 [] Hall) as (cr & Hrun & Hcr).
      by exists cr.
    + intros (cr & Hrun & _). by apply loadConfig_rules_no_error in Hrun.
Qed.

End CompileFacts.

(** ** The unknown-URL strategy *)

Section StrategyFacts.
Context `{RegexpLib} `{LogrusLib}.

(** [loadConfig] never reads the strategy: it accepts or rejects a decoded
    configuration whatever the field holds, and leaves the field as it is. *)
Lemma loadConfig_finish_strategy (decoded : Listener.Config) (s : string) :
  Listener.loadConfig_finish (Listener.set_StrategyForUnknownUrls s decoded) =
    (Listener.set_StrategyForUnknownUrls s (Listener.loadConfig_finish decoded).1,
     (Listener.loadConfig_finish decoded).2).
Proof.
  unfold Listener.loadConfig_finish. destruct decoded as [app dflt strat rules lvl cr plvl].
  simpl.
  destruct (decide (app = "")); simpl; destruct (decide (dflt = "")); simpl;
    destruct (loadConfig_rules 0 rules []) as [cr' [err|]]; simpl; try done;
    destruct (decide (lvl = "")); simpl;
    match goal with
    | |- context [logrus_ParseLevel ?l] => destruct (logrus_ParseLevel l)
    end; done.
Qed.

Lemma chooseProfile_strategy (urlStr : string) (config : Listener.Config) :
  Listener.StrategyForUnknownUrls config
    <> Listener.StrategyForUnknownUrlsUseDefaultProfile ->
  Listener.chooseProfile urlStr config =
  Listener.chooseProfile urlStr
    (Listener.set_StrategyForUnknownUrls
       Listener.StrategyForUnknownUrlsUseBrowserDefault config).
Proof.
  intros Hs. unfold Listener.chooseProfile. simpl.
  destruct (chooseProfile_range urlStr (Listener.compiledRules config)); [done|].
  repeat case_decide; done.
Qed.

(** C10.  For a URL that matches no rule, [chooseProfile] returns the empty
    string whenever [strategy_for_unknown_urls] is anything but
    ["use-default-profile"], the empty (unset) value and unknown spellings
    included: on every URL the configuration then routes as it would with
    ["use-browser-default"].  [loadConfig] does not reject such a value (its
    result does not depend on the field, which it returns as decoded), and
    the default profile is not used. *)
Theorem unknown_strategy_is_browser_default
    (urlStr : string) (config : Listener.Config) :
  Forall (fun c => MatchString (re c) urlStr = false) (Listener.compiledRules config) ->
  Listener.StrategyForUnknownUrls config
    <> Listener.StrategyForUnknownUrlsUseDefaultProfile ->
  Listener.chooseProfile urlStr config = "" /\
  (forall url',
     Listener.chooseProfile url' config =
     Listener.chooseProfile url'
       (Listener.set_StrategyForUnknownUrls
          Listener.StrategyForUnknownUrlsUseBrowserDefault config)) /\
  (forall decoded,
     let s := Listener.StrategyForUnknownUrls config in
     let loaded := Listener.loadConfig_finish
                     (Listener.set_StrategyForUnknownUrls s decoded) in
     let reference := Listener.loadConfig_finish
                        (Listener.set_StrategyForUnknownUrls
                           Listener.StrategyForUnknownUrlsUseBrowserDefault decoded) in
     loaded.2 = reference.2 /\
     Listener.StrategyForUnknownUrls loaded.1 = s).
Proof.
  intros Hnone Hs. split; [|split].
  - unfold Listener.chooseProfile.
    apply chooseProfile_range_none in Hnone as ->. by case_decide.
  - intros url'. by apply chooseProfile_strategy.
  - intros decoded s loaded reference. subst loaded reference.
    by rewrite !loadConfig_finish_strategy.
Qed.

End StrategyFacts.

(** A misspelt strategy: ["https://example.com"] matches no rule of the
    example configuration and gets the empty profile. *)
Lemma unknown_strategy_is_browser_default_witness :
  let config := Examples.acme "use-defualt-profile" "" in
  Forall (fun c => MatchString (re c) "https://example.com" = false)
         (Listener.compiledRules config) /\
  Listener.StrategyForUnknownUrls config
    <> Listener.StrategyForUnknownUrlsUseDefaultProfile /\
  Listener.chooseProfile "https://example.com" config = "".
Proof.
  intros config.
  assert (Hnone : Forall (fun c => MatchString (re c) "https://example.com" = false)
                         (Listener.compiledRules config)).
  { repeat constructor. }
  assert (Hs : Listener.StrategyForUnknownUrls config
               <> Listener.StrategyForUnknownUrlsUseDefaultProfile).
  { discriminate. }
  split; [exact Hnone|]. split; [exact Hs|].
  exact (proj1 (unknown_strategy_is_browser_default "https://example.com" config Hnone Hs)).
Defined.

(** The unset strategy behaves in the same way. *)
Example unset_strategy_example :
  Listener.chooseProfile "https://example.com" (Examples.acme "" "") = "" /\
  Listener.chooseProfile "https://example.com"
    (Examples.acme "use-default-profile" "") = "Default" /\
  Listener.chooseProfile "https://github.com/acme/repo" (Examples.acme "" "") = "Work".
Proof. repeat split. Qed.

(** ** The launcher and [processURL] *)

Ltac unfold_proc :=
  unfold mbind, mret, Proc_bind, Proc_ret, os_Exit, exec_Run, cmd_Start, cmd_Wait,
    logger_Debugf, logger_Errorf, logger_Infof, Fprintf_Stderr, os_WriteFile in *.

(** *** The log file among the files *)

Lemma append_nil_r (s : string) : s +:+ "" = s.
Proof.
  induction s as [|c s IH]; [done|].
  unfold String.append; fold String.append. by rewrite IH.
Qed.

Lemma append_assoc (s1 s2 s3 : string) : (s1 +:+ s2) +:+ s3 = s1 +:+ (s2 +:+ s3).
Proof.
  induction s1 as [|c s1 IH]; [done|].
  unfold String.append; fold String.append. by rewrite IH.
Qed.

Section LogFacts.
Context `{PathLib}.

Lemma pidFilePath_value : Listener.pidFilePath = "/tmp/chrome-profile-router.pid".
Proof. unfold Listener.pidFilePath. by rewrite filepath_Join_tmp. Qed.

Lemma logFilePath_value : logFilePath = "/tmp/chrome-profile-router.log".
Proof. unfold logFilePath. by rewrite filepath_Join_tmp. Qed.

Lemma lockFilePath_value : LockFile.lockFilePath = "/tmp/chrome-profile-router.lock".
Proof. unfold LockFile.lockFilePath. by rewrite filepath_Join_tmp. Qed.

(** The pid file and the lock file are not the log file. *)
Lemma pid_not_log : Listener.pidFilePath <> logFilePath.
Proof. by rewrite pidFilePath_value, logFilePath_value. Qed.

Lemma lock_not_log : LockFile.lockFilePath <> logFilePath.
Proof. by rewrite lockFilePath_value, logFilePath_value. Qed.

Lemma log_grows_refl (w : World) : log_grows w w.
Proof.
  split; [done|]. destruct (files w !! logFilePath) as [old|]; [|done].
  exists "". by rewrite append_nil_r.
Qed.

Lemma log_grows_same (w w' : World) : files w' = files w -> log_grows w w'.
Proof.
  intros Hf. unfold log_grows. rewrite Hf. apply log_grows_refl.
Qed.

Lemma log_grows_trans (w1 w2 w3 : World) :
  log_grows w1 w2 -> log_grows w2 w3 -> log_grows w1 w3.
Proof.
  intros [Hother1 Hlog1] [Hother2 Hlog2]. split.
  - intros p Hp. by rewrite Hother2, Hother1.
  - destruct (files w1 !! logFilePath) as [old|].
    + destruct Hlog1 as [a1 Hlog1]. rewrite Hlog1 in Hlog2.
      destruct Hlog2 as [a2 Hlog2]. exists (a1 +:+ a2). by rewrite <- append_assoc.
    + by rewrite Hlog1 in Hlog2.
Qed.

Lemma log_grows_other (w w' : World) (p : string) :
  log_grows w w' -> p <> logFilePath -> files w' !! p = files w !! p.
Proof. intros [Hother _] Hp. by apply Hother. Qed.

Lemma log_append_grows (text : string) (w : World) : log_grows w (log_append text w).
Proof.
  unfold log_append. destruct (files w !! logFilePath) as [old|] eqn:Hlog;
    [|apply log_grows_refl].
  split; simpl.
  - intros p Hp. by rewrite lookup_insert_ne.
  - rewrite Hlog. exists text. apply lookup_insert_eq.
Qed.

Lemma log_append_frame (text : string) (w : World) :
  spawned (log_append text w) = spawned w /\ Run (log_append text w) = Run w /\
  stderr (log_append text w) = stderr w /\ logger (log_append text w) = logger w /\
  Getpid (log_append text w) = Getpid w /\ Kill (log_append text w) = Kill w /\
  write_faults (log_append text w) = write_faults w /\
  read_faults (log_append text w) = read_faults w /\
  write_progress (log_append text w) = write_progress w /\
  log_text (log_append text w) = log_text w.
Proof. unfold log_append. by destruct (files w !! logFilePath). Qed.

End LogFacts.

Section LauncherFacts.
Context `{RegexpLib} `{UrlLib} `{PathLib}.

Lemma logger_Logf_spec (l : Level) (fmt : string) (a : list string) (w : World) lg :
  logger w = Some lg ->
  exists w',
    logger_Logf l fmt a w = Ret () w' /\
    spawned w' = spawned w /\ Run w' = Run w /\ log_grows w w' /\
    stderr w' = stderr w /\
    exists lg', logger w' = Some lg' /\ level lg' = level lg /\
      written lg' = written lg ++
        (if IsLevelEnabled (level lg) l
         then [{| entry_level := l; entry_line := {| format := fmt; args := a |} |}]
         else []).
Proof.
  intros Hlg. unfold logger_Logf. rewrite Hlg.
  destruct (IsLevelEnabled (level lg) l); eexists; (split; [reflexivity|]); simpl.
  - destruct (log_append_frame
                (log_text w (length (written lg))
                   {| entry_level := l; entry_line := {| format := fmt; args := a |} |}) w)
      as (Hsp & Hrun & Hs & _).
    split; [done|]. split; [done|]. split; [apply log_append_grows|].
    split; [done|]. by eexists.
  - split; [done|]. split; [done|]. split; [apply log_grows_refl|].
    split; [done|]. exists lg. by rewrite app_nil_r.
Qed.

(** What a call of the logger leaves alone. *)
Lemma logger_Logf_frame (l : Level) (fmt : string) (a : list string) (w w' : World) :
  logger_Logf l fmt a w = Ret () w' ->
  Getpid w' = Getpid w /\ Kill w' = Kill w /\ write_faults w' = write_faults w /\
  read_faults w' = read_faults w /\ write_progress w' = write_progress w /\
  log_text w' = log_text w.
Proof.
  unfold logger_Logf. destruct (logger w) as [lg|]; [|done].
  destruct (IsLevelEnabled (level lg) l); intros [= <-]; [|done].
  simpl. destruct (log_append_frame
                     (log_text w (length (written lg))
                        {| entry_level := l;
                           entry_line := {| format := fmt; args := a |} |}) w)
    as (_ & _ & _ & _ & Hpid & Hkill & Hwf & Hrf & Hwp & Hlt).
  done.
Qed.

(** The URL handed off: prefixed exactly when it parses without a scheme
    and does not start with ["http"]. *)
Lemma openInChrome_url_spec (urlStr : string) :
  let bare := (exists u, url_Parse urlStr = inl u /\ Scheme u = "") /\
              HasPrefix urlStr "http" = false in
  (bare -> openInChrome_url urlStr = "http://" +:+ urlStr) /\
  (~ bare -> openInChrome_url urlStr = urlStr).
Proof.
  unfold openInChrome_url. split.
  - intros [(u & -> & ->) ->]. done.
  - intros Hbare. destruct (url_Parse urlStr) as [u|e] eqn:Hparse; [|done].
    destruct (bool_decide (Scheme u = "")) eqn:Hs; [|done].
    destruct (HasPrefix urlStr "http") eqn:Hp; [done|].
    exfalso. apply Hbare. split; [|done]. exists u. split; [done|].
    by apply bool_decide_eq_true in Hs.
Qed.

(** [processURL] is the start of the command followed by its completion. *)
Lemma processURL_split (urlStr : string) (config : Listener.Config) (w : World) :
  Listener.processURL urlStr config w =
  (p ← Listener.processURL_launch urlStr config;
   Listener.processURL_complete p.1 p.2) w.
Proof.
  unfold Listener.processURL, Listener.processURL_launch,
    Listener.processURL_complete, Listener.openInChrome.
  unfold_proc. by destruct (logger_Logf _ _ _ w).
Qed.

Lemma processURL_launch_spec (urlStr : string) (config : Listener.Config) (w : World) lg :
  logger w = Some lg ->
  exists w',
    Listener.processURL_launch urlStr config w
      = Ret (length (spawned w), Listener.launch_cmd config urlStr) w' /\
    spawned w' = spawned w ++ [Listener.launch_cmd config urlStr] /\
    Run w' = Run w /\ log_grows w w' /\ stderr w' = stderr w /\
    written_at ErrorLevel w' = written_at ErrorLevel w /\
    exists lg', logger w' = Some lg' /\ level lg' = level lg.
Proof.
  intros Hlg. unfold Listener.processURL_launch. unfold_proc.
  destruct (logger_Logf_spec DebugLevel "Routing: %s  ->  profile-directory=%q\n"
              [urlStr; Listener.chooseProfile urlStr config] w lg Hlg)
    as (w1 & -> & Hsp & Hrun & Hfiles & Herr & lg1 & Hlg1 & Hlvl & Hw).
  eexists. split; [by rewrite Hsp|]. simpl.
  split; [done|]. split; [done|]. split; [exact Hfiles|]. split; [done|].
  split.
  - unfold written_at. simpl. rewrite Hlg1, Hlg, Hw, filter_app.
    destruct (IsLevelEnabled (level lg) DebugLevel); simpl; [|by rewrite app_nil_r].
    rewrite filter_cons_False by done. by rewrite filter_nil, app_nil_r.
  - by exists lg1.
Qed.

Lemma processURL_complete_spec (n : nat) (c : Cmd) (w : World) lg :
  logger w = Some lg ->
  exists w',
    Listener.processURL_complete n c w = Ret () w' /\
    spawned w' = spawned w /\ Run w' = Run w /\ log_grows w w' /\
    stderr w' = stderr w /\
    written_at ErrorLevel w' = written_at ErrorLevel w ++
      match Run w n c with
      | Some e => if IsLevelEnabled (level lg) ErrorLevel
                  then [Listener.failure_entry e] else []
      | None => []
      end /\
    exists lg', logger w' = Some lg' /\ level lg' = level lg.
Proof.
  intros Hlg. unfold Listener.processURL_complete. unfold_proc. simpl.
  destruct (Run w n c) as [e|].
  - destruct (logger_Logf_spec ErrorLevel "Failed to open URL in Chrome: %v\n" [e] w lg Hlg)
      as (w1 & Hl & Hsp & Hrun & Hfiles & Herr & lg1 & Hlg1 & Hlvl & Hw).
    exists w1. split; [exact Hl|]. split; [done|]. split; [done|]. split; [done|].
    split; [done|]. split; [|by exists lg1].
    unfold written_at. rewrite Hlg1, Hlg, Hw, filter_app.
    destruct (IsLevelEnabled (level lg) ErrorLevel); [|done].
    by rewrite filter_cons_True by done.
  - exists w. split; [done|]. split; [done|]. split; [done|].
    split; [apply log_grows_refl|]. split; [done|].
    split; [by rewrite app_nil_r | by exists lg].
Qed.

(** [processURL] returns in every world whose logger is set: it neither
    exits nor panics, whatever the URL and whatever the command does. *)
Lemma processURL_spec (urlStr : string) (config : Listener.Config) (w : World) lg :
  logger w = Some lg ->
  exists w',
    Listener.processURL urlStr config w = Ret () w' /\
    spawned w' = spawned w ++ [Listener.launch_cmd config urlStr] /\
    Run w' = Run w /\ log_grows w w' /\ stderr w' = stderr w /\
    written_at ErrorLevel w' = written_at ErrorLevel w ++
      match Run w (length (spawned w)) (Listener.launch_cmd config urlStr) with
      | Some e => if IsLevelEnabled (level lg) ErrorLevel
                  then [Listener.failure_entry e] else []
      | None => []
      end /\
    exists lg', logger w' = Some lg' /\ level lg' = level lg.
Proof.
  intros Hlg. rewrite processURL_split.
  destruct (processURL_launch_spec urlStr config w lg Hlg)
    as (w1 & Hl & Hsp1 & Hrun1 & Hf1 & Hs1 & He1 & lg1 & Hlg1 & Hlvl1).
  destruct (processURL_complete_spec (length (spawned w))
              (Listener.launch_cmd config urlStr) w1 lg1 Hlg1)
    as (w2 & Hc & Hsp2 & Hrun2 & Hf2 & Hs2 & He2 & lg2 & Hlg2 & Hlvl2).
  exists w2. unfold mbind, Proc_bind. rewrite Hl. simpl. rewrite Hc.
  split; [done|]. split; [congruence|]. split; [congruence|].
  split; [by eapply log_grows_trans|]. split; [congruence|]. split.
  - rewrite He2, He1, Hrun1, Hlvl1. done.
  - exists lg2. split; congruence.
Qed.

End LauncherFacts.

Section HandoffFacts.
Context `{RegexpLib} `{UrlLib} `{PathLib}.

Lemma chooseProfile_range_elem urlStr compiled p :
  chooseProfile_range urlStr compiled = Some p ->
  exists c, c ∈ compiled /\ MatchString (re c) urlStr = true /\ p = profileDirectory c.
Proof.
  induction compiled as [|c compiled IH]; simpl; [done|].
  destruct (MatchString (re c) urlStr) eqn:Hc.
  - intros [= <-]. exists c. split; [left|done].
  - intros Hrest. destruct (IH Hrest) as (c' & Hin & Hm & ->).
    exists c'. split; [by right|done].
Qed.

(** In the one-shot build the profile handed to [openInChrome] is never
    empty: [loadConfig] defaults the default profile directory and rejects
    rules without a profile directory. *)
Lemma OneShot_profile_nonempty decoded config compiled urlStr :
  OneShot.loadConfig_finish decoded = (config, compiled, None) ->
  OneShot.chooseProfile urlStr compiled (OneShot.DefaultProfileDirectory config) <> "".
Proof.
  unfold OneShot.loadConfig_finish.
  set (cfg1 := if decide (OneShot.ChromeAppPath decoded = "") then _ else _).
  set (cfg2 := if decide (OneShot.DefaultProfileDirectory cfg1 = "") then _ else _).
  destruct (loadConfig_rules 0 (OneShot.Rules cfg2) []) as [cr err] eqn:Hrun.
  intros [= <- <- ->].
  assert (Hdefault : OneShot.DefaultProfileDirectory cfg2 <> "").
  { subst cfg2. by case_decide. }
  pose proof (loadConfig_rules_no_error _ _ _ _ Hrun) as Hvalid.
  destruct (loadConfig_rules_success _ 0 [] Hvalid) as (cr' & Hrun' & Hfrom).
  rewrite Hrun in Hrun'. simpl in Hrun'. injection Hrun' as ->.
  unfold OneShot.chooseProfile.
  destruct (chooseProfile_range urlStr cr') as [p|] eqn:Hp; [|done].
  apply chooseProfile_range_elem in Hp as (c & Hin & _ & ->).
  apply list_elem_of_lookup in Hin as [i Hi].
  destruct (Forall2_lookup_r _ _ _ _ _ Hfrom Hi) as (r & Hr & _ & ->).
  rewrite Forall_lookup in Hvalid. specialize (Hvalid _ _ Hr).
  intros Hempty. apply Hvalid. unfold offending. tauto.
Qed.

(** C7.  [openInChrome] hands the URL off prefixed with ["http://"] when it
    parses without a scheme and does not start with ["http"], and unchanged
    otherwise.  It runs [open] once with the flag [-na] (new instance of the
    application) followed by the application path, then [--args], then the
    profile-selection argument, then the URL as the last argument.  In the
    listener build the profile-selection argument is there only when the
    profile is not empty; the one-shot build always passes it, and its
    profile is never empty. *)
Theorem launcher_handoff (chromeAppPath profileDir urlStr : string) (w : World) :
  let handed := openInChrome_url urlStr in
  let bare := (exists u, url_Parse urlStr = inl u /\ Scheme u = "") /\
              HasPrefix urlStr "http" = false in
  (bare -> handed = "http://" +:+ urlStr) /\
  (~ bare -> handed = urlStr) /\
  (exists argv,
     Listener.openInChrome chromeAppPath profileDir urlStr w =
       Ret (Run w (length (spawned w)) {| cmd_name := "open"; cmd_args := argv |})
           (set_spawned (spawned w ++ [{| cmd_name := "open"; cmd_args := argv |}]) w) /\
     (profileDir <> "" ->
        argv = ["-na"; chromeAppPath; "--args";
                "--profile-directory=" +:+ profileDir; handed]) /\
     (profileDir = "" -> argv = ["-na"; chromeAppPath; "--args"; handed]) /\
     last argv = Some handed) /\
  (exists argv,
     OneShot.openInChrome chromeAppPath profileDir urlStr w =
       Ret (Run w (length (spawned w)) {| cmd_name := "open"; cmd_args := argv |})
           (set_spawned (spawned w ++ [{| cmd_name := "open"; cmd_args := argv |}]) w) /\
     argv = ["-na"; chromeAppPath; "--args";
             "--profile-directory=" +:+ profileDir; handed] /\
     last argv = Some handed /\
     forall decoded config compiled,
       OneShot.loadConfig_finish decoded = (config, compiled, None) ->
       OneShot.chooseProfile urlStr compiled (OneShot.DefaultProfileDirectory config)
         <> "").
Proof.
  intros handed bare.
  destruct (openInChrome_url_spec urlStr) as [Hbare Hnot].
  split; [exact Hbare|]. split; [exact Hnot|]. split.
  - exists (Listener.openInChrome_args chromeAppPath profileDir urlStr).
    split; [reflexivity|]. unfold Listener.openInChrome_args.
    destruct (decide (profileDir <> "")) as [Hp|Hp]; simpl.
    + repeat split; done.
    + assert (profileDir = "") as -> by (by destruct (decide (profileDir = ""))).
      repeat split; done.
  - exists (OneShot.openInChrome_args chromeAppPath profileDir urlStr).
    split; [reflexivity|]. repeat split.
    intros decoded config compiled Hload.
    by apply (OneShot_profile_nonempty decoded).
Qed.

End HandoffFacts.

(** Bare text is prefixed; a URL with a scheme, text starting with ["http"]
    and text that does not parse are handed off as they are. *)
Example launcher_handoff_examples :
  Listener.openInChrome_args "/Applications/Google Chrome.app" "Work" "example.com/x"
    = ["-na"; "/Applications/Google Chrome.app"; "--args";
       "--profile-directory=Work"; "http://example.com/x"] /\
  Listener.openInChrome_args "/Applications/Google Chrome.app" "" "https://example.com"
    = ["-na"; "/Applications/Google Chrome.app"; "--args"; "https://example.com"] /\
  openInChrome_url "httpbin.org" = "httpbin.org" /\
  openInChrome_url "mailto:a@b.c" = "mailto:a@b.c" /\
  openInChrome_url "a b:c" = "a b:c" /\
  OneShot.openInChrome_args "/Applications/Google Chrome.app" "Default" "example.com"
    = ["-na"; "/Applications/Google Chrome.app"; "--args";
       "--profile-directory=Default"; "http://example.com"].
Proof. repeat split. Qed.

(** ** The worker *)

Section WorkerFacts.
Context `{RegexpLib} `{UrlLib} `{PathLib}.

Lemma worker_app (config : Listener.Config) (urls urls' : list string) (w : World) :
  Listener.worker config (urls ++ urls') w =
  (Listener.worker config urls ;; Listener.worker config urls') w.
Proof.
  revert w. induction urls as [|u urls IH]; intros w; simpl; [done|].
  unfold mbind, Proc_bind in *.
  destruct (Listener.processURL u config w) as [[] w1|code w1|w1]; [|done..].
  by rewrite IH.
Qed.

(** The worker processes every URL it receives, in order, and returns to its
    receive: it neither exits nor panics. *)
Lemma worker_spec (config : Listener.Config) (urls : list string) (w : World) lg :
  logger w = Some lg ->
  exists w',
    Listener.worker config urls w = Ret () w' /\
    spawned w' = spawned w ++ map (Listener.launch_cmd config) urls /\
    Run w' = Run w /\ log_grows w w' /\ stderr w' = stderr w /\
    exists lg', logger w' = Some lg' /\ level lg' = level lg.
Proof.
  revert w lg. induction urls as [|u urls IH]; intros w lg Hlg; simpl.
  - exists w. rewrite app_nil_r. split; [done|]. split; [done|]. split; [done|].
    split; [apply log_grows_refl|]. split; [done|]. by exists lg.
  - destruct (processURL_spec u config w lg Hlg)
      as (w1 & Hp & Hsp1 & Hrun1 & Hf1 & Hs1 & _ & lg1 & Hlg1 & Hlvl1).
    destruct (IH w1 lg1 Hlg1) as (w2 & Hw & Hsp2 & Hrun2 & Hf2 & Hs2 & lg2 & Hlg2 & Hlvl2).
    exists w2. unfold mbind, Proc_bind. rewrite Hp. simpl.
    split; [done|]. split; [by rewrite Hsp2, Hsp1, <- app_assoc|].
    split; [congruence|]. split; [by eapply log_grows_trans|]. split; [congruence|].
    exists lg2. split; congruence.
Qed.

(** C2 (as the code has it).  For a URL that matches no rule: under the
    strategy use-default-profile [chooseProfile] returns the configured
    default profile directory; under use-browser-default it returns the
    empty string, and [processURL] still runs the launcher once for the URL,
    without a profile-selection argument. *)
Theorem unknown_url_decision
    (urlStr : string) (config : Listener.Config) (w : World) lg :
  logger w = Some lg ->
  Forall (fun c => MatchString (re c) urlStr = false) (Listener.compiledRules config) ->
  (Listener.StrategyForUnknownUrls config = Listener.StrategyForUnknownUrlsUseDefaultProfile ->
     Listener.chooseProfile urlStr config = Listener.DefaultProfileDirectory config) /\
  (Listener.StrategyForUnknownUrls config = Listener.StrategyForUnknownUrlsUseBrowserDefault ->
     Listener.chooseProfile urlStr config = "" /\
     exists w',
       Listener.processURL urlStr config w = Ret () w' /\
       spawned w' = spawned w ++
         [{| cmd_name := "open";
             cmd_args := ["-na"; Listener.ChromeAppPath config; "--args";
                          openInChrome_url urlStr] |}]).
Proof.
  intros Hlg Hnone. apply chooseProfile_range_none in Hnone.
  assert (Hchoose : Listener.StrategyForUnknownUrls config
                      = Listener.StrategyForUnknownUrlsUseBrowserDefault ->
                    Listener.chooseProfile urlStr config = "").
  { intros Hs. unfold Listener.chooseProfile. rewrite Hnone, Hs. done. }
  split.
  - intros Hs. unfold Listener.chooseProfile. rewrite Hnone, Hs. done.
  - intros Hs. split; [by apply Hchoose|].
    destruct (processURL_spec urlStr config w lg Hlg) as (w' & Hp & Hsp & _).
    exists w'. split; [done|]. rewrite Hsp. unfold Listener.launch_cmd.
    rewrite (Hchoose Hs). done.
Qed.

(** The levels at which [logger.Errorf] writes nothing. *)
Lemma ErrorLevel_disabled (l : Level) :
  IsLevelEnabled l ErrorLevel = false <-> l = PanicLevel \/ l = FatalLevel.
Proof.
  split.
  - destruct l; intros He; try discriminate He; tauto.
  - by intros [->| ->].
Qed.

(** C8 (as the code has it).  A launch that fails does not stop the worker:
    [processURL] returns, the failure is written by [logger.Errorf] as one
    entry when the level of the logger admits error entries (levels error,
    warn, info, debug and trace; none is written at fatal and panic), and
    the worker goes on to process every URL received after it: whatever the
    URLs are and whatever their launches return, the worker loop neither
    exits nor panics. *)
Theorem failed_launch_does_not_stop_worker
    (config : Listener.Config) (before : list string) (urlStr : string)
    (after : list string) (w : World) lg :
  logger w = Some lg ->
  (IsLevelEnabled (level lg) ErrorLevel = false <->
     level lg = PanicLevel \/ level lg = FatalLevel) /\
  exists w1 w2 w3,
    Listener.worker config before w = Ret () w1 /\
    Listener.processURL urlStr config w1 = Ret () w2 /\
    written_at ErrorLevel w2 =
      written_at ErrorLevel w1 ++
      match Run w (length (spawned w) + length before)%nat
              (Listener.launch_cmd config urlStr) with
      | Some e => if IsLevelEnabled (level lg) ErrorLevel
                  then [Listener.failure_entry e] else []
      | None => []
      end /\
    Listener.worker config after w2 = Ret () w3 /\
    spawned w3 = spawned w2 ++ map (Listener.launch_cmd config) after /\
    Listener.worker config (before ++ urlStr :: after) w = Ret () w3.
Proof.
  intros Hlg. split; [apply ErrorLevel_disabled|].
  destruct (worker_spec config before w lg Hlg)
    as (w1 & Hw1 & Hsp1 & Hrun1 & _ & _ & lg1 & Hlg1 & Hlvl1).
  destruct (processURL_spec urlStr config w1 lg1 Hlg1)
    as (w2 & Hp & Hsp2 & Hrun2 & _ & _ & Herr & lg2 & Hlg2 & Hlvl2).
  destruct (worker_spec config after w2 lg2 Hlg2)
    as (w3 & Hw3 & Hsp3 & _).
  exists w1, w2, w3. repeat split; try done.
  - rewrite Herr, Hrun1, Hsp1, length_app, length_map, Hlvl1. done.
  - rewrite worker_app. unfold mbind, Proc_bind. rewrite Hw1. simpl.
    unfold mbind, Proc_bind. by rewrite Hp.
Qed.

End WorkerFacts.

(** The URL ["https://example.com"] matches no rule of the example; under
    use-browser-default the launcher runs all the same, without a profile. *)
Lemma browser_default_still_launches :
  Forall (fun c => MatchString (re c) "https://example.com" = false)
    (Listener.compiledRules (Examples.acme "use-browser-default" "")) /\
  Listener.StrategyForUnknownUrls (Examples.acme "use-browser-default" "")
    = Listener.StrategyForUnknownUrlsUseBrowserDefault /\
  Listener.chooseProfile "https://example.com" (Examples.acme "use-browser-default" "")
    = "" /\
  spawned (Examples.quiet InfoLevel) = [] /\
  spawned (final_world
             (Listener.processURL "https://example.com"
                (Examples.acme "use-browser-default" "") (Examples.quiet InfoLevel)))
    = [{| cmd_name := "open";
          cmd_args := ["-na"; "/Applications/Google Chrome.app"; "--args";
                       "https://example.com"] |}].
Proof. repeat split. repeat constructor. Qed.

Lemma unknown_url_decision_witness :
  logger (Examples.quiet InfoLevel) = Some {| level := InfoLevel; written := [] |} /\
  Forall (fun c => MatchString (re c) "https://example.com" = false)
    (Listener.compiledRules (Examples.acme "use-default-profile" "")) /\
  Listener.chooseProfile "https://example.com" (Examples.acme "use-default-profile" "")
    = "Default".
Proof.
  assert (Hnone : Forall (fun c => MatchString (re c) "https://example.com" = false)
                    (Listener.compiledRules (Examples.acme "use-default-profile" ""))).
  { repeat constructor. }
  split; [reflexivity|]. split; [exact Hnone|].
  exact (proj1 (unknown_url_decision "https://example.com"
                  (Examples.acme "use-default-profile" "") (Examples.quiet InfoLevel)
                  _ eq_refl Hnone) eq_refl).
Defined.

(** With [log_level] "fatal" a failed launch leaves no entry in the log. *)
Lemma failed_launch_unreported_at_fatal :
  Listener.parsedLogLevel (Examples.acme "" "fatal") = FatalLevel /\
  Run (Examples.failing FatalLevel) 0
      (Listener.launch_cmd (Examples.acme "" "fatal") "https://example.com")
    = Some "exit status 1" /\
  logger (final_world
            (Listener.processURL "https://example.com" (Examples.acme "" "fatal")
               (Examples.failing FatalLevel)))
    = Some {| level := FatalLevel; written := [] |}.
Proof. repeat split. Qed.

Lemma failed_launch_does_not_stop_worker_witness :
  logger (Examples.failing InfoLevel) = Some {| level := InfoLevel; written := [] |} /\
  Run (Examples.failing InfoLevel) (0 + 1)
      (Listener.launch_cmd (Examples.acme "" "") "b") = Some "exit status 1" /\
  exists w1 w2 w3,
    Listener.worker (Examples.acme "" "") ["a"] (Examples.failing InfoLevel) = Ret () w1 /\
    Listener.processURL "b" (Examples.acme "" "") w1 = Ret () w2 /\
    written_at ErrorLevel w2 =
      written_at ErrorLevel w1 ++ [Listener.failure_entry "exit status 1"] /\
    Listener.worker (Examples.acme "" "") ["c"] w2 = Ret () w3 /\
    spawned w3 = spawned w2 ++ map (Listener.launch_cmd (Examples.acme "" "")) ["c"] /\
    Listener.worker (Examples.acme "" "") (["a"] ++ "b" :: ["c"]) (Examples.failing InfoLevel)
      = Ret () w3.
Proof.
  split; [reflexivity|]. split; [reflexivity|].
  exact (proj2 (failed_launch_does_not_stop_worker (Examples.acme "" "") ["a"] "b" ["c"]
                  (Examples.failing InfoLevel) _ eq_refl)).
Defined.

(** ** The single-instance guard *)

Section GuardFacts.
Context `{PathLib}.

(** [isRunning] answers true exactly when the pid file can be read, holds a
    decimal process identifier, and that process answers signal 0. *)
Lemma isRunning_spec (pidFile : string) (w : World) :
  Listener.isRunning pidFile w = true <->
  exists data pid,
    os_ReadFile pidFile w = inl data /\ Atoi data = Some pid /\ Kill w pid 0 = None.
Proof.
  unfold Listener.isRunning. split.
  - destruct (os_ReadFile pidFile w) as [data|]; [|done].
    destruct (Atoi data) as [pid|] eqn:Ha; [|done].
    destruct (Kill w pid 0) eqn:Hk; [done|]. intros _. by exists data, pid.
  - intros (data & pid & -> & -> & ->). done.
Qed.

(** A holder that is alive: exit with status 0, the pid file left alone. *)
Lemma acquire_held (w : World) lg :
  logger w = Some lg ->
  Listener.isRunning Listener.pidFilePath w = true ->
  exists w', Listener.main_acquire w = Exit 0 w' /\
             log_grows w w' /\ spawned w' = spawned w.
Proof.
  intros Hlg Hrun. unfold Listener.main_acquire. rewrite Hrun. unfold_proc.
  destruct (logger_Logf_spec DebugLevel "%v" ["Another instance is running, exiting"]
              w lg Hlg) as (w' & -> & Hsp & _ & Hf & _).
  by exists w'.
Qed.

(** No holder that is alive, and the pid file can be written: it is written
    with the identifier of this process, which goes on. *)
Lemma acquire_stale (w : World) lg :
  logger w = Some lg ->
  Listener.isRunning Listener.pidFilePath w = false ->
  Listener.pidFilePath ∉ write_faults w ->
  exists w', Listener.main_acquire w = Ret () w' /\
             files w' !! Listener.pidFilePath = Some (Itoa (Getpid w)) /\
             spawned w' = spawned w /\
             (exists lg', logger w' = Some lg' /\ level lg' = level lg) /\
             log_grows
               (set_files (<[Listener.pidFilePath := Itoa (Getpid w)]> (files w)) w) w'.
Proof.
  intros Hlg Hrun Hok. unfold Listener.main_acquire. rewrite Hrun. unfold_proc.
  rewrite decide_False by done.
  assert (Hlg' : logger (set_files (<[Listener.pidFilePath := Itoa (Getpid w)]> (files w)) w)
                 = Some lg) by done.
  destruct (logger_Logf_spec InfoLevel "%v" ["Start listening for URLs"] _ lg Hlg')
    as (w' & Hl & Hsp & _ & Hf & _ & lg' & Hlg'' & Hlvl & _).
  exists w'. split; [exact Hl|]. split.
  { rewrite (log_grows_other _ _ _ Hf pid_not_log). simpl. apply lookup_insert_eq. }
  split; [by rewrite Hsp|]. split; [by exists lg'|exact Hf].
Qed.

(** No holder that is alive, and the pid file cannot be written: exit with
    status 2.  The pid file is as it was when it could not be opened, and
    holds what was written when the failure came after the open. *)
Lemma acquire_unwritable (w : World) lg :
  logger w = Some lg ->
  Listener.isRunning Listener.pidFilePath w = false ->
  Listener.pidFilePath ∈ write_faults w ->
  exists w', Listener.main_acquire w = Exit 2 w' /\
             files w' !! Listener.pidFilePath =
               match write_progress w Listener.pidFilePath with
               | None => files w !! Listener.pidFilePath
               | Some n => Some (substring 0 n (Itoa (Getpid w)))
               end /\
             spawned w' = spawned w /\
             (forall p, p <> Listener.pidFilePath -> p <> logFilePath ->
                        files w' !! p = files w !! p).
Proof.
  intros Hlg Hrun Hfault. unfold Listener.main_acquire. rewrite Hrun. unfold_proc.
  rewrite decide_True by done.
  destruct (write_progress w Listener.pidFilePath) as [n|]; cbv beta iota.
  - assert (Hlg' : logger (set_files (<[Listener.pidFilePath :=
                                         substring 0 n (Itoa (Getpid w))]> (files w)) w)
                   = Some lg) by done.
    destruct (logger_Logf_spec ErrorLevel "failed to write pid file: %v"
                (@cons string (PathError w "write" Listener.pidFilePath) []) _ lg Hlg')
      as (w' & -> & Hsp & _ & Hf & _).
    exists w'. split; [done|]. split.
    { rewrite (log_grows_other _ _ _ Hf pid_not_log). simpl. apply lookup_insert_eq. }
    split; [by rewrite Hsp|]. intros p Hpid Hlog.
    rewrite (log_grows_other _ _ _ Hf Hlog). simpl. by rewrite lookup_insert_ne.
  - destruct (logger_Logf_spec ErrorLevel "failed to write pid file: %v"
                (@cons string (PathError w "open" Listener.pidFilePath) []) w lg Hlg)
      as (w' & -> & Hsp & _ & Hf & _).
    exists w'. split; [done|].
    split; [by apply (log_grows_other _ _ _ Hf), pid_not_log|].
    split; [done|]. intros p _ Hlog. by apply (log_grows_other _ _ _ Hf).
Qed.

(** C3 (as the code has it).  When the pid file records a process that is
    still alive, the process does not take the dispatcher role: it exits
    with status 0 and leaves the pid file alone.  Otherwise (no pid file,
    no readable identifier, or a process that is dead) the pid file is taken
    for stale and written anew with the identifier of this process; when the
    write succeeds the process goes on, and when it fails the process exits
    with status 2, the pid file being as it was when it could not be opened
    and holding what was written when the failure came after the open. *)
Theorem single_instance_acquire (w : World) lg :
  logger w = Some lg ->
  (Listener.isRunning Listener.pidFilePath w = true <->
     exists data pid,
       os_ReadFile Listener.pidFilePath w = inl data /\ Atoi data = Some pid /\
       alive w pid) /\
  (Listener.isRunning Listener.pidFilePath w = true ->
     exists w', Listener.main_acquire w = Exit 0 w' /\
                files w' !! Listener.pidFilePath = files w !! Listener.pidFilePath /\
                spawned w' = spawned w) /\
  (Listener.isRunning Listener.pidFilePath w = false ->
     Listener.pidFilePath ∉ write_faults w ->
     exists w', Listener.main_acquire w = Ret () w' /\
                files w' !! Listener.pidFilePath = Some (Itoa (Getpid w)) /\
                spawned w' = spawned w) /\
  (Listener.isRunning Listener.pidFilePath w = false ->
     Listener.pidFilePath ∈ write_faults w ->
     exists w', Listener.main_acquire w = Exit 2 w' /\
                files w' !! Listener.pidFilePath =
                  match write_progress w Listener.pidFilePath with
                  | None => files w !! Listener.pidFilePath
                  | Some n => Some (substring 0 n (Itoa (Getpid w)))
                  end /\
                spawned w' = spawned w).
Proof.
  intros Hlg. split; [apply isRunning_spec|]. split; [|split].
  - intros Hrun. destruct (acquire_held w lg Hlg Hrun) as (w' & Hexit & Hf & Hsp).
    exists w'. split; [done|]. split; [|done].
    by apply (log_grows_other _ _ _ Hf), pid_not_log.
  - intros Hrun Hok.
    destruct (acquire_stale w lg Hlg Hrun Hok) as (w' & Hret & Hfile & Hsp & _).
    by exists w'.
  - intros Hrun Hfault.
    destruct (acquire_unwritable w lg Hlg Hrun Hfault) as (w' & Hexit & Hfile & Hsp & _).
    by exists w'.
Qed.

End GuardFacts.

(** A stale pid file is replaced and the process goes on. *)
Lemma single_instance_acquire_witness :
  logger Examples.stale = Some {| level := InfoLevel; written := [] |} /\
  Listener.isRunning Listener.pidFilePath Examples.stale = false /\
  exists w', Listener.main_acquire Examples.stale = Ret () w' /\
             files w' !! Listener.pidFilePath = Some (Itoa (Getpid Examples.stale)) /\
             spawned w' = spawned Examples.stale.
Proof.
  split; [reflexivity|]. split; [reflexivity|].
  refine (proj1 (proj2 (proj2 (single_instance_acquire Examples.stale _ eq_refl)))
            eq_refl _).
  vm_compute. intros Hin. discriminate Hin.
Defined.

(** A live holder: the second process exits with status 0. *)
Example live_holder_example :
  Listener.isRunning Listener.pidFilePath Examples.held = true /\
  exists w', Listener.main_acquire Examples.held = Exit 0 w' /\
             files w' !! Listener.pidFilePath = Some "4242".
Proof. split; [reflexivity|]. eexists. split; reflexivity. Qed.

(** The pid file names a process that is gone, but the file cannot be
    written: it is not replaced and the process does not go on, it exits
    with status 2. *)
Lemma acquire_fails_when_pid_file_unwritable :
  files Examples.foreign_stale !! Listener.pidFilePath = Some "4242" /\
  Kill Examples.foreign_stale 4242 0 = Some "no such process" /\
  Listener.isRunning Listener.pidFilePath Examples.foreign_stale = false /\
  exists w', Listener.main_acquire Examples.foreign_stale = Exit 2 w' /\
             files w' !! Listener.pidFilePath = Some "4242".
Proof. repeat split. eexists. split; reflexivity. Qed.

(** ** The one-shot build *)

Section OneShotFacts.
Context `{RegexpLib} `{UrlLib} `{PathLib}.

(** The [select] always has a case to take. *)
Lemma select_fires_total (arrivals : list (Z * string)) :
  exists c, OneShot.select_fires arrivals c.
Proof.
  destruct arrivals as [|[t u] rest].
  - exists OneShot.TimeoutFired. constructor.
  - destruct (decide (t <= OneShot.timeout)).
    + exists (OneShot.RecvURL u). by constructor.
    + exists OneShot.TimeoutFired. constructor. lia.
Qed.

Lemma OneShot_processURL_spec (config : OneShot.Config) (compiled : list compiledRule)
    (urlStr : string) (w : World) :
  exists w',
    OneShot.processURL config compiled urlStr w = Ret () w' /\
    spawned w' = spawned w ++
      [{| cmd_name := "open";
          cmd_args := OneShot.openInChrome_args (OneShot.ChromeAppPath config)
                        (OneShot.chooseProfile urlStr compiled
                           (OneShot.DefaultProfileDirectory config)) urlStr |}].
Proof.
  unfold OneShot.processURL, OneShot.openInChrome. unfold_proc. simpl.
  destruct (Run w _ _); eexists; split; reflexivity.
Qed.

(** C4.  After startup the one-shot process waits on a [select] for one URL
    or for the timer of [4 * time.Second].  When the first URL arrives
    before the timer fires, that URL and no other is processed, with one
    launch, and the process exits with status 0; when no URL arrives before
    the timer has fired, the process writes that no URL was received,
    launches nothing, and exits with status 1. *)
Theorem one_shot_outcome
    (config : OneShot.Config) (compiled : list compiledRule)
    (arrivals : list (Z * string)) (c : OneShot.SelectCase) (w : World) :
  OneShot.select_fires arrivals c ->
  OneShot.timeout = 4 * OneShot.Second /\
  (forall t u rest,
     arrivals = (t, u) :: rest -> t < OneShot.timeout ->
     exists w',
       OneShot.main_goroutine config compiled c w = Exit 0 w' /\
       spawned w' = spawned w ++
         [{| cmd_name := "open";
             cmd_args := OneShot.openInChrome_args (OneShot.ChromeAppPath config)
                           (OneShot.chooseProfile u compiled
                              (OneShot.DefaultProfileDirectory config)) u |}]) /\
  (arrivals = [] \/ (exists t u rest, arrivals = (t, u) :: rest /\ OneShot.timeout < t) ->
     exists w',
       OneShot.main_goroutine config compiled c w = Exit 1 w' /\
       spawned w' = spawned w /\
       stderr w' = stderr w ++
         [{| format := "%v\n"; args := ["No URLs received within timeout"] |}]).
Proof.
  intros Hfires. split; [reflexivity|]. split.
  - intros t u rest -> Ht.
    inversion Hfires as [t' u' rest' Hle| |t' u' rest' Hle]; subst; [|lia].
    destruct (OneShot_processURL_spec config compiled u w) as (w' & Hp & Hsp).
    exists w'. split; [|done]. simpl. unfold_proc. by rewrite Hp.
  - intros [->|(t & u & rest & -> & Ht)].
    + inversion Hfires; subst. eexists. repeat split.
    + inversion Hfires as [t' u' rest' Hle| |t' u' rest' Hle]; subst; [lia|].
      eexists. repeat split.
Qed.

(** The process as a whole exits with status 2 when the configuration
    cannot be loaded, before any URL is waited for. *)
Lemma one_shot_config_error `{PathLib} `{JsonLib OneShot.Config}
    (c : OneShot.SelectCase) (w : World) cfg cr e :
  OneShot.loadConfig (OneShot.defaultConfigPath w) w = (cfg, cr, Some e) ->
  exists w', OneShot.main c w = Exit 2 w' /\ spawned w' = spawned w.
Proof.
  intros Hload. unfold OneShot.main, OneShot.main_startup. unfold_proc.
  rewrite Hload. eexists. split; reflexivity.
Qed.

End OneShotFacts.

(** A URL delivered one second after the timer is armed is processed and the
    process exits with status 0. *)
Lemma one_shot_outcome_witness :
  OneShot.select_fires [(1 * OneShot.Second, "https://github.com/acme/repo")]
    (OneShot.RecvURL "https://github.com/acme/repo") /\
  exists w',
    OneShot.main_goroutine (OneShot.loadConfig_finish Examples.acme_oneshot_decoded).1.1
      (OneShot.loadConfig_finish Examples.acme_oneshot_decoded).1.2
      (OneShot.RecvURL "https://github.com/acme/repo") (Examples.quiet InfoLevel)
      = Exit 0 w' /\
    spawned w' = spawned (Examples.quiet InfoLevel) ++
      [{| cmd_name := "open";
          cmd_args := ["-na"; "/Applications/Google Chrome.app"; "--args";
                       "--profile-directory=Work"; "https://github.com/acme/repo"] |}].
Proof.
  assert (Hfires : OneShot.select_fires
                     [(1 * OneShot.Second, "https://github.com/acme/repo")]
                     (OneShot.RecvURL "https://github.com/acme/repo")).
  { constructor. vm_compute. discriminate. }
  split; [exact Hfires|].
  exact (proj1 (proj2 (one_shot_outcome
                         (OneShot.loadConfig_finish Examples.acme_oneshot_decoded).1.1
                         (OneShot.loadConfig_finish Examples.acme_oneshot_decoded).1.2
                         _ _ (Examples.quiet InfoLevel) Hfires))
           _ _ _ eq_refl eq_refl).
Defined.

(** No URL: the timer fires and the process exits with status 1. *)
Example one_shot_timeout_example :
  OneShot.select_fires [] OneShot.TimeoutFired /\
  exists w',
    OneShot.main_goroutine (OneShot.loadConfig_finish Examples.acme_oneshot_decoded).1.1
      (OneShot.loadConfig_finish Examples.acme_oneshot_decoded).1.2
      OneShot.TimeoutFired (Examples.quiet InfoLevel) = Exit 1 w' /\
    spawned w' = [] /\
    stderr w' = [{| format := "%v\n"; args := ["No URLs received within timeout"] |}].
Proof. split; [constructor|]. eexists. repeat split. Qed.

(** ** The dispatcher *)

Section DispatcherFacts.
Context `{RegexpLib} `{UrlLib} `{PathLib}.
Variable config : Listener.Config.

Lemma expected_snoc (done : list string) (u : string) :
  Listener.expected (done ++ [u]) = Listener.expected done ++ Listener.processed u.
Proof.
  unfold Listener.expected. by rewrite map_app, concat_app.
Qed.

Lemma expected_app (done rest : list string) :
  Listener.expected (done ++ rest) = Listener.expected done ++ Listener.expected rest.
Proof. unfold Listener.expected. by rewrite map_app, concat_app. Qed.

Lemma worker_snoc (done : list string) (u : string) (w0 w1 w2 : World) :
  Listener.worker config done w0 = Ret () w1 ->
  Listener.processURL u config w1 = Ret () w2 ->
  Listener.worker config (done ++ [u]) w0 = Ret () w2.
Proof.
  intros Hdone Hu. rewrite worker_app. unfold mbind, Proc_bind. rewrite Hdone.
  simpl. unfold mbind, Proc_bind. by rewrite Hu.
Qed.

Lemma consistent_init (urls : list string) (w0 : World) lg :
  logger w0 = Some lg ->
  Listener.consistent config urls w0 (Listener.init urls w0).
Proof. intros Hlg. exists []. simpl. repeat split; by eauto. Qed.

(** Every step keeps the state consistent with the worker having processed
    a prefix of the URLs in order. *)
Lemma consistent_step (urls : list string) (w0 : World) (s s' : Listener.System) :
  Listener.consistent config urls w0 s ->
  Listener.step config s s' ->
  Listener.consistent config urls w0 s'.
Proof.
  intros (done & Hurls & [lg Hlg] & Hstate) Hstep.
  destruct Hstep as [u es wk w h|u es w h|u es nt w h n c w' Hl|u es nt w h n c w' Hc];
    simpl in *.
  - exists done. repeat split; [|by eauto|done].
    rewrite Hurls. unfold Listener.held_by_worker, Listener.held_by_notifier. done.
  - destruct Hstate as [-> Hw]. exists done. repeat split; by eauto.
  - destruct Hstate as [-> Hw].
    destruct (processURL_launch_spec u config w lg Hlg)
      as (w1 & Hl' & _ & _ & _ & _ & _ & lg1 & Hlg1 & _).
    rewrite Hl in Hl'. injection Hl' as -> -> <-.
    exists done. repeat split; [done|by eauto|by rewrite <- app_assoc|by eauto].
  - destruct Hstate as [-> (w1 & Hw & Hl)].
    destruct (processURL_complete_spec n c w lg Hlg)
      as (w2 & Hc' & _ & _ & _ & _ & _ & lg2 & Hlg2 & _).
    rewrite Hc in Hc'. injection Hc' as <-.
    exists (done ++ [u]). repeat split.
    + rewrite Hurls. unfold Listener.held_by_worker. simpl. by rewrite <- app_assoc.
    + by eauto.
    + rewrite expected_snoc. by rewrite <- app_assoc.
    + apply (worker_snoc done u w0 w1 w'); [done|].
      rewrite processURL_split. unfold mbind, Proc_bind. by rewrite Hl.
Qed.

Lemma consistent_steps (urls : list string) (w0 : World) (s s' : Listener.System) :
  Listener.consistent config urls w0 s ->
  Listener.steps config s s' ->
  Listener.consistent config urls w0 s'.
Proof.
  intros Hs Hsteps. induction Hsteps as [|s s1 s2 Hstep _ IH]; [done|].
  apply IH. by eapply consistent_step.
Qed.

(** What has happened so far is the beginning of the in-order record. *)
Lemma consistent_prefix (urls : list string) (w0 : World) (s : Listener.System) :
  Listener.consistent config urls w0 s ->
  Listener.history s `prefix_of` Listener.expected urls.
Proof.
  intros (done & -> & _ & Hstate). rewrite expected_app.
  unfold Listener.held_by_worker. destruct (Listener.wstate s) as [|u|u n c].
  - destruct Hstate as [-> _]. by apply prefix_app_r.
  - destruct Hstate as [-> _]. apply prefix_app, prefix_cons, prefix_nil.
  - destruct Hstate as [-> _]. apply prefix_app, prefix_cons, prefix_cons, prefix_nil.
Qed.

(** Each step brings the state one closer to rest. *)
Lemma step_remaining (s s' : Listener.System) :
  Listener.step config s s' -> Listener.remaining s = S (Listener.remaining s').
Proof. intros []; unfold Listener.remaining; simpl; lia. Qed.

(** Progress: a consistent state that is not at rest can move.  In
    particular the worker never gets stuck on a URL it holds. *)
Lemma consistent_progress (urls : list string) (w0 : World) (s : Listener.System) :
  Listener.consistent config urls w0 s ->
  Listener.remaining s <> 0%nat ->
  exists s', Listener.step config s s'.
Proof.
  intros (done & _ & [lg Hlg] & _) Hrem.
  destruct s as [es nt wk w h]. simpl in *. destruct wk as [|u|u n c].
  - destruct nt as [|u].
    + destruct es as [|u es]; [by unfold Listener.remaining in Hrem|].
      eexists. apply Listener.step_HandleURL.
    + eexists. apply Listener.step_handoff.
  - destruct (processURL_launch_spec u config w lg Hlg) as (w' & Hl & _).
    eexists. by eapply Listener.step_launch.
  - destruct (processURL_complete_spec n c w lg Hlg) as (w' & Hc & _).
    eexists. by eapply Listener.step_complete.
Qed.

Lemma quiescent_remaining (urls : list string) (w0 : World) (s : Listener.System) :
  Listener.consistent config urls w0 s ->
  Listener.quiescent config s <-> Listener.remaining s = 0%nat.
Proof.
  intros Hs. split.
  - intros Hq. destruct (decide (Listener.remaining s = 0%nat)) as [|Hrem]; [done|].
    destruct (consistent_progress urls w0 s Hs Hrem) as [s' Hstep].
    by destruct (Hq s').
  - intros Hrem s' Hstep. apply step_remaining in Hstep. lia.
Qed.

(** At rest every URL has been processed, in order. *)
Lemma consistent_at_rest (urls : list string) (w0 : World) (s : Listener.System) :
  Listener.consistent config urls w0 s ->
  Listener.remaining s = 0%nat ->
  Listener.history s = Listener.expected urls /\
  Listener.worker config urls w0 = Ret () (Listener.world s).
Proof.
  intros (done & -> & _ & Hstate) Hrem.
  destruct s as [es nt wk w h]. unfold Listener.remaining in Hrem. simpl in *.
  destruct wk as [|u|u n c]; [|lia..]. destruct nt as [|u]; [|lia].
  destruct es as [|u es]; [|simpl in Hrem; lia].
  unfold Listener.held_by_worker, Listener.held_by_notifier. simpl.
  by rewrite app_nil_r.
Qed.

(** Every run can be continued to rest. *)
Lemma consistent_reaches_rest (urls : list string) (w0 : World) (s : Listener.System) :
  Listener.consistent config urls w0 s ->
  exists s', Listener.steps config s s' /\ Listener.quiescent config s'.
Proof.
  remember (Listener.remaining s) as k eqn:Hk. revert s Hk.
  induction k as [|k IH]; intros s Hk Hs.
  - exists s. split; [apply rtc_refl|]. by apply (quiescent_remaining urls w0).
  - destruct (consistent_progress urls w0 s Hs) as [s1 Hstep]; [lia|].
    pose proof (step_remaining _ _ Hstep) as Hrem.
    destruct (IH s1) as (s' & Hsteps & Hq); [lia|by eapply consistent_step|].
    exists s'. split; [|done]. by eapply rtc_l.
Qed.

(** At no moment of the in-order record are two launches in progress. *)
Lemma expected_one_at_a_time (urls : list string) (h : list Listener.Event) :
  h `prefix_of` Listener.expected urls -> 0 <= Listener.in_flight h <= 1.
Proof.
  revert h. induction urls as [|u urls IH]; intros h Hh.
  - apply prefix_nil_inv in Hh as ->. simpl. lia.
  - change (Listener.expected (u :: urls))
      with (Listener.EvReceive u :: Listener.EvLaunchStart u
            :: Listener.EvLaunchEnd u :: Listener.expected urls) in Hh.
    destruct h as [|e1 h]; [simpl; lia|].
    pose proof (prefix_cons_inv_1 _ _ _ _ Hh) as ->.
    apply prefix_cons_inv_2 in Hh.
    destruct h as [|e2 h]; [simpl; lia|].
    pose proof (prefix_cons_inv_1 _ _ _ _ Hh) as ->.
    apply prefix_cons_inv_2 in Hh.
    destruct h as [|e3 h]; [simpl; lia|].
    pose proof (prefix_cons_inv_1 _ _ _ _ Hh) as ->.
    apply prefix_cons_inv_2 in Hh.
    specialize (IH h Hh). simpl. lia.
Qed.

(** C5.  URLs delivered by the producer in the order [urls] are received
    and processed by the single worker in exactly that order: in every state
    of every run the record is the beginning of the sequence "receive u1,
    launch of u1 starts, launch of u1 ends, receive u2, ...", so that each
    URL is processed to the end of its launch before the next is received
    and at no moment more than one launch is in progress; every run can be
    continued until nothing
    can move, and then all the URLs have been processed, the world being the
    one the worker loop leaves after processing [urls] one by one. *)
Theorem dispatcher_in_order (urls : list string) (w0 : World) lg (s : Listener.System) :
  logger w0 = Some lg ->
  Listener.steps config (Listener.init urls w0) s ->
  Listener.history s `prefix_of` Listener.expected urls /\
  (forall h, h `prefix_of` Listener.history s -> 0 <= Listener.in_flight h <= 1) /\
  (exists s', Listener.steps config s s' /\ Listener.quiescent config s') /\
  (Listener.quiescent config s ->
     Listener.history s = Listener.expected urls /\
     Listener.worker config urls w0 = Ret () (Listener.world s)).
Proof.
  intros Hlg Hsteps.
  pose proof (consistent_steps urls w0 _ _ (consistent_init urls w0 lg Hlg) Hsteps) as Hs.
  pose proof (consistent_prefix urls w0 s Hs) as Hprefix.
  split; [done|].
  split.
  { intros h Hh. apply (expected_one_at_a_time urls). by etrans. }
  split; [by apply (consistent_reaches_rest urls w0)|].
  intros Hq. apply (consistent_at_rest urls w0 s Hs).
  by apply (quiescent_remaining urls w0 s Hs).
Qed.

(** The hand-off of a URL that [HandleURL] is sending can complete exactly
    when the worker is at its receive. *)
Lemma handoff_enabled_iff (s : Listener.System) (u : string) :
  Listener.notifier s = Listener.NSending u ->
  Listener.handoff_enabled config s <-> Listener.wstate s = Listener.WReceiving.
Proof.
  intros Hn. split.
  - intros (s' & Hstep & Hidle & _).
    destruct Hstep; simpl in *; congruence.
  - destruct s as [es nt wk w h]. simpl in *. intros ->. subst nt.
    eexists. split; [apply Listener.step_handoff|]. done.
Qed.

(** The worker finishes the URL it holds and returns to its receive, while
    [HandleURL] stays at its send. *)
Lemma worker_returns_to_receive
    (urls : list string) (w0 : World) (s : Listener.System) :
  Listener.consistent config urls w0 s ->
  exists s',
    Listener.steps config s s' /\
    Listener.notifier s' = Listener.notifier s /\
    Listener.events s' = Listener.events s /\
    Listener.wstate s' = Listener.WReceiving.
Proof.
  intros (done & _ & [lg Hlg] & _).
  destruct s as [es nt wk w h]. simpl in *. destruct wk as [|u|u n c].
  - eexists. split; [apply rtc_refl|]. done.
  - destruct (processURL_launch_spec u config w lg Hlg)
      as (w1 & Hl & _ & _ & _ & _ & _ & lg1 & Hlg1 & _).
    destruct (processURL_complete_spec (length (spawned w))
                (Listener.launch_cmd config u) w1 lg1 Hlg1) as (w2 & Hc & _).
    exists {| Listener.events := es; Listener.notifier := nt;
              Listener.wstate := Listener.WReceiving; Listener.world := w2;
              Listener.history := (h ++ [Listener.EvLaunchStart u])
                                  ++ [Listener.EvLaunchEnd u] |}.
    split; [|done].
    eapply rtc_l; [exact (Listener.step_launch config u es nt w h _ _ w1 Hl)|].
    eapply rtc_l; [exact (Listener.step_complete config u es nt w1 _ _ _ w2 Hc)|].
    apply rtc_refl.
  - destruct (processURL_complete_spec n c w lg Hlg) as (w' & Hc & _).
    exists {| Listener.events := es; Listener.notifier := nt;
              Listener.wstate := Listener.WReceiving; Listener.world := w';
              Listener.history := h ++ [Listener.EvLaunchEnd u] |}.
    split; [|done].
    apply rtc_once. exact (Listener.step_complete config u es nt w h n c w' Hc).
Qed.

(** C9 (as the code has it).  [urlListener] has no buffer: the hand-off of a
    URL in [HandleURL] completes exactly when the worker is at its receive.
    While the worker holds a URL or waits for the command it started,
    [HandleURL] stays blocked at the send; the worker then finishes the URL
    it holds, returns to its receive, and the hand-off can complete. *)
Theorem handoff_waits_for_worker
    (urls : list string) (w0 : World) lg (s : Listener.System) (u : string) :
  logger w0 = Some lg ->
  Listener.steps config (Listener.init urls w0) s ->
  Listener.notifier s = Listener.NSending u ->
  (Listener.handoff_enabled config s <-> Listener.wstate s = Listener.WReceiving) /\
  exists s',
    Listener.steps config s s' /\
    Listener.notifier s' = Listener.NSending u /\
    Listener.events s' = Listener.events s /\
    Listener.wstate s' = Listener.WReceiving /\
    Listener.handoff_enabled config s'.
Proof.
  intros Hlg Hsteps Hn. split; [by apply (handoff_enabled_iff s u)|].
  pose proof (consistent_steps urls w0 _ _ (consistent_init urls w0 lg Hlg) Hsteps) as Hs.
  destruct (worker_returns_to_receive urls w0 s Hs) as (s' & Hrun & Hn' & He' & Hw').
  exists s'. rewrite Hn in Hn'. repeat split; try done.
  by apply (handoff_enabled_iff s' u).
Qed.

End DispatcherFacts.

(** The run that leads to [Examples.blocked]: ["a"] is delivered, handed
    off and launched, then [HandleURL] is called with ["b"]. *)
Lemma blocked_reachable :
  Listener.steps (Examples.acme "" "")
    (Listener.init ["a"; "b"] (Examples.quiet InfoLevel)) Examples.blocked.
Proof.
  unfold Listener.steps, Listener.init.
  eapply rtc_l; [apply Listener.step_HandleURL|].
  eapply rtc_l; [apply Listener.step_handoff|].
  eapply rtc_l.
  { apply (Listener.step_launch _ "a" ["b"] Listener.NIdle (Examples.quiet InfoLevel) _
             0%nat (Listener.launch_cmd (Examples.acme "" "") "a")
             (final_world (Listener.processURL_launch "a" (Examples.acme "" "")
                             (Examples.quiet InfoLevel)))).
    reflexivity. }
  eapply rtc_l; [apply Listener.step_HandleURL|].
  apply rtc_refl.
Qed.

(** Three URLs: the run can be completed, and then they have been processed
    in the order they were delivered. *)
Lemma dispatcher_in_order_witness :
  logger (Examples.quiet InfoLevel) = Some {| level := InfoLevel; written := [] |} /\
  exists s',
    Listener.steps (Examples.acme "" "")
      (Listener.init ["u1"; "u2"; "u3"] (Examples.quiet InfoLevel)) s' /\
    Listener.quiescent (Examples.acme "" "") s' /\
    Listener.history s' =
      [Listener.EvReceive "u1"; Listener.EvLaunchStart "u1"; Listener.EvLaunchEnd "u1";
       Listener.EvReceive "u2"; Listener.EvLaunchStart "u2"; Listener.EvLaunchEnd "u2";
       Listener.EvReceive "u3"; Listener.EvLaunchStart "u3"; Listener.EvLaunchEnd "u3"].
Proof.
  split; [reflexivity|].
  destruct (dispatcher_in_order (Examples.acme "" "") ["u1"; "u2"; "u3"]
              (Examples.quiet InfoLevel) _
              (Listener.init ["u1"; "u2"; "u3"] (Examples.quiet InfoLevel))
              eq_refl (rtc_refl _ _)) as (_ & _ & (s' & Hsteps & Hq) & _).
  exists s'. split; [exact Hsteps|]. split; [exact Hq|].
  exact (proj1 (proj2 (proj2 (proj2 (dispatcher_in_order (Examples.acme "" "")
                                       ["u1"; "u2"; "u3"] (Examples.quiet InfoLevel)
                                       _ s' eq_refl Hsteps))) Hq)).
Defined.

(** While the worker waits for the command it started for ["a"], the
    hand-off of ["b"] cannot complete: [HandleURL] is blocked. *)
Lemma handoff_blocks_while_launching :
  Listener.steps (Examples.acme "" "")
    (Listener.init ["a"; "b"] (Examples.quiet InfoLevel)) Examples.blocked /\
  Listener.notifier Examples.blocked = Listener.NSending "b" /\
  Listener.wstate Examples.blocked
    = Listener.WLaunching "a" 0 (Listener.launch_cmd (Examples.acme "" "") "a") /\
  ~ Listener.handoff_enabled (Examples.acme "" "") Examples.blocked.
Proof.
  split; [exact blocked_reachable|]. split; [reflexivity|]. split; [reflexivity|].
  intros Hen. apply (handoff_enabled_iff _ Examples.blocked "b" eq_refl) in Hen.
  discriminate Hen.
Qed.

Lemma handoff_waits_for_worker_witness :
  logger (Examples.quiet InfoLevel) = Some {| level := InfoLevel; written := [] |} /\
  Listener.steps (Examples.acme "" "")
    (Listener.init ["a"; "b"] (Examples.quiet InfoLevel)) Examples.blocked /\
  Listener.notifier Examples.blocked = Listener.NSending "b" /\
  exists s',
    Listener.steps (Examples.acme "" "") Examples.blocked s' /\
    Listener.notifier s' = Listener.NSending "b" /\
    Listener.events s' = Listener.events Examples.blocked /\
    Listener.wstate s' = Listener.WReceiving /\
    Listener.handoff_enabled (Examples.acme "" "") s'.
Proof.
  split; [reflexivity|]. split; [exact blocked_reachable|]. split; [reflexivity|].
  exact (proj2 (handoff_waits_for_worker (Examples.acme "" "") ["a"; "b"]
                  (Examples.quiet InfoLevel) _ Examples.blocked "b"
                  eq_refl blocked_reachable eq_refl)).
Defined.

(** ** The guard across two processes, and [main] as a whole *)

Section StartupFacts.
Context `{RegexpLib} `{UrlLib} `{PathLib} `{LogrusLib} `{JsonLib Listener.Config}.

(** A second process that finds the pid file of a holder that answers
    signal 0 exits with status 0 ... *)
Lemma second_acquire_while_held (w : World) lg (holder : Z) :
  logger w = Some lg ->
  - 2 ^ 63 <= holder < 2 ^ 63 ->
  files w !! Listener.pidFilePath = Some (Itoa holder) ->
  Listener.pidFilePath ∉ read_faults w ->
  Kill w holder 0 = None ->
  exists w', Listener.main_acquire w = Exit 0 w' /\ log_grows w w'.
Proof.
  intros Hlg Hrange Hfile Hread Hkill.
  destruct (acquire_held w lg Hlg) as (w' & Hexit & Hfiles & _); [|by exists w'].
  apply isRunning_spec. exists (Itoa holder), holder.
  split; [|split; [by apply Atoi_Itoa|done]].
  unfold os_ReadFile, Open_ReadAll. rewrite Hfile. by rewrite decide_False.
Qed.

(** ... and one that finds the pid file of a holder that is gone takes the
    file over. *)
Lemma acquire_after_holder_died (w : World) lg (holder : Z) (e : error) :
  logger w = Some lg ->
  - 2 ^ 63 <= holder < 2 ^ 63 ->
  files w !! Listener.pidFilePath = Some (Itoa holder) ->
  Kill w holder 0 = Some e ->
  Listener.pidFilePath ∉ write_faults w ->
  exists w', Listener.main_acquire w = Ret () w' /\
             files w' !! Listener.pidFilePath = Some (Itoa (Getpid w)).
Proof.
  intros Hlg Hrange Hfile Hkill Hwrite.
  destruct (acquire_stale w lg Hlg) as (w' & Hret & Hfiles & _ & _); [|done|].
  - unfold Listener.isRunning, os_ReadFile, Open_ReadAll. rewrite Hfile.
    case_decide; [done|]. by rewrite Atoi_Itoa, Hkill.
  - exists w'. by split.
Qed.

(** [main] exits with status 2 when the configuration cannot be loaded ... *)
Lemma startup_config_error (w : World) cfg e :
  Listener.loadConfig (Listener.defaultConfigPath w) w = (cfg, Some e) ->
  exists w', Listener.main_startup w = Exit 2 w' /\
             files w' = files w /\ spawned w' = spawned w.
Proof.
  intros Hload. unfold Listener.main_startup. rewrite Hload.
  eexists. split; [reflexivity|done].
Qed.

(** ... and otherwise reaches the guard with the logger set to the level of
    the configuration, so that the worker it starts never meets a nil
    logger. *)
Lemma startup_reaches_guard (w : World) config :
  Listener.loadConfig (Listener.defaultConfigPath w) w = (config, None) ->
  Listener.logFilePath ∉ write_faults w ->
  exists w1,
    logger w1 = Some {| level := Listener.parsedLogLevel config; written := [] |} /\
    spawned w1 = spawned w /\
    Listener.main_startup w = (Listener.main_acquire ;; mret config) w1.
Proof.
  intros Hload Hlog. unfold Listener.main_startup. rewrite Hload.
  unfold os_OpenFile_append, logrus_New_SetLevel. unfold_proc.
  rewrite decide_False by done.
  destruct (files w !! Listener.logFilePath).
  - by exists (set_logger (Some {| level := Listener.parsedLogLevel config;
                                   written := [] |}) w).
  - by exists (set_logger (Some {| level := Listener.parsedLogLevel config;
                                   written := [] |})
                 (set_files (<[Listener.logFilePath := ""]> (files w)) w)).
Qed.

(** When [main] goes on to start the worker, the logger is set, at the
    level of the configuration. *)
Lemma startup_logger (w : World) config w' :
  Listener.main_startup w = Ret config w' ->
  exists lg, logger w' = Some lg /\ level lg = Listener.parsedLogLevel config.
Proof.
  unfold Listener.main_startup.
  destruct (Listener.loadConfig _ w) as [cfg [e|]] eqn:Hload; [done|].
  destruct (decide (Listener.logFilePath ∈ write_faults w)) as [Hfault|Hok].
  { unfold os_OpenFile_append. unfold_proc. by rewrite decide_True. }
  destruct (startup_reaches_guard w cfg Hload Hok) as (w1 & Hlg1 & _ & Hrun).
  unfold Listener.main_startup in Hrun. rewrite Hload in Hrun. rewrite Hrun.
  unfold mbind, mret, Proc_bind, Proc_ret.
  destruct (Listener.isRunning Listener.pidFilePath w1) eqn:Hheld.
  - destruct (acquire_held w1 _ Hlg1 Hheld) as (w2 & -> & _). done.
  - destruct (decide (Listener.pidFilePath ∈ write_faults w1)) as [Hw|Hw].
    + destruct (acquire_unwritable w1 _ Hlg1 Hheld Hw) as (w2 & -> & _). done.
    + destruct (acquire_stale w1 _ Hlg1 Hheld Hw)
        as (w2 & -> & _ & _ & (lg & Hlg & Hlvl) & _).
      intros [= <- <-]. by exists lg.
Qed.

(** The listener as a whole: once [main] has started the worker, the URLs
    the event source delivers are processed in order, one at a time, and
    the run never gets stuck. *)
Corollary listener_in_order (w : World) config w0 (urls : list string)
    (s : Listener.System) :
  Listener.main_startup w = Ret config w0 ->
  Listener.steps config (Listener.init urls w0) s ->
  Listener.history s `prefix_of` Listener.expected urls /\
  exists s', Listener.steps config s s' /\ Listener.quiescent config s' /\
             Listener.history s' = Listener.expected urls.
Proof.
  intros Hstart Hsteps. destruct (startup_logger w config w0 Hstart) as (lg & Hlg & _).
  pose proof (consistent_steps config urls w0 _ _
                (consistent_init config urls w0 lg Hlg) Hsteps) as Hs.
  split; [by apply (consistent_prefix config urls w0)|].
  destruct (consistent_reaches_rest config urls w0 s Hs) as (s' & Hrun & Hq).
  exists s'. split; [done|]. split; [done|].
  pose proof (consistent_steps config urls w0 _ _ Hs Hrun) as Hs'.
  apply (consistent_at_rest config urls w0 s' Hs').
  by apply (quiescent_remaining config urls w0 s' Hs').
Qed.

End StartupFacts.

(** ** The sample expressions match anywhere in the string *)

Lemma match_anywhere_spec (p : list Sample.Item) (s : string) :
  Sample.match_anywhere p s = true <->
  exists skipped rest, s = skipped +:+ rest /\ Sample.match_here p rest = true.
Proof.
  induction s as [|c s IH].
  - simpl. rewrite orb_false_r. split.
    + intros Hm. by exists "", "".
    + intros ([|c skipped] & rest & Heq & Hm); unfold String.append in Heq;
        [by subst|discriminate].
  - cbn [Sample.match_anywhere]. rewrite orb_true_iff, IH. split.
    + intros [Hm|(skipped & rest & -> & Hm)].
      * by exists "", (String c s).
      * by exists (String c skipped), rest.
    + intros ([|c' skipped] & rest & Heq & Hm);
        unfold String.append in Heq; fold String.append in Heq.
      * left. by subst.
      * right. injection Heq as -> ->. by exists skipped, rest.
Qed.

(** ** The configuration of the specification, end to end *)

Example routing_examples :
  Listener.chooseProfile "https://github.com/acme/repo"
    (Examples.acme "use-default-profile" "") = "Work" /\
  Listener.chooseProfile "https://example.com"
    (Examples.acme "use-default-profile" "") = "Default" /\
  Listener.chooseProfile "https://example.com"
    (Examples.acme "use-browser-default" "") = "" /\
  Listener.chooseProfile "http://mirror.test/?u=github.com/acme"
    (Examples.acme "use-browser-default" "") = "Work".
Proof. repeat split. Qed.

(** Rule 1 has no profile directory and rule 2 an expression that does not
    compile: the error names rule 1, and nothing is compiled. *)
Example loadConfig_rules_examples :
  loadConfig_rules 0
    [Examples.rule "a" "P1"; Examples.rule "b" ""; Examples.rule "*c" "P3"] []
    = ([], Some "rule 1 invalid: pattern and profile_directory are required") /\
  (exists e,
     loadConfig_rules 0 [Examples.rule "a" "P1"; Examples.rule "*c" "P3"] []
       = ([], Some ("rule 1: compile regexp: " +:+ e))) /\
  loadConfig_rules 0 [Examples.rule "a" "P1"; Examples.rule ".*" "P2"] []
    = (Examples.overlapping, None).
Proof. split; [reflexivity|]. split; [eexists; reflexivity|reflexivity]. Qed.

(** * Further properties of the builds *)

(** ** The pid-file guard across processes *)

Section GuardHandover.
Context `{PathLib}.

(** A return of the guard means the pid file was taken over. *)
Lemma main_acquire_ret (w w' : World) lg :
  logger w = Some lg ->
  Listener.main_acquire w = Ret () w' ->
  Listener.isRunning Listener.pidFilePath w = false /\
  (Listener.pidFilePath ∉ write_faults w) /\
  files w' !! Listener.pidFilePath = Some (Itoa (Getpid w)).
Proof.
  intros Hlg Hret.
  destruct (Listener.isRunning Listener.pidFilePath w) eqn:Hrun.
  { destruct (acquire_held w lg Hlg Hrun) as (w1 & Hexit & _). congruence. }
  destruct (decide (Listener.pidFilePath ∈ write_faults w)) as [Hw|Hw].
  { destruct (acquire_unwritable w lg Hlg Hrun Hw) as (w1 & Hexit & _). congruence. }
  destruct (acquire_stale w lg Hlg Hrun Hw) as (w1 & Hret1 & Hfiles & _).
  rewrite Hret in Hret1. injection Hret1 as <-. done.
Qed.

(** X1.  Once a process has taken the pid file, a second process that sees
    the file, while the first still answers signal 0, exits with status 0
    and leaves the file to the first: what [Itoa] wrote, [Atoi] reads
    back. *)
Theorem second_process_exits_while_first_lives (w w' w2 : World) lg lg2 :
  logger w = Some lg ->
  - 2 ^ 63 <= Getpid w < 2 ^ 63 ->
  Listener.main_acquire w = Ret () w' ->
  files w2 = files w' ->
  Listener.pidFilePath ∉ read_faults w2 ->
  logger w2 = Some lg2 ->
  Kill w2 (Getpid w) 0 = None ->
  exists w2',
    Listener.main_acquire w2 = Exit 0 w2' /\
    files w2' !! Listener.pidFilePath = Some (Itoa (Getpid w)) /\
    spawned w2' = spawned w2.
Proof.
  intros Hlg Hrange Hret Hfiles Hread Hlg2 Hkill.
  destruct (main_acquire_ret w w' lg Hlg Hret) as (_ & _ & Hw').
  assert (Hfile : files w2 !! Listener.pidFilePath = Some (Itoa (Getpid w))).
  { by rewrite Hfiles. }
  assert (Hrun : Listener.isRunning Listener.pidFilePath w2 = true).
  { apply isRunning_spec. exists (Itoa (Getpid w)), (Getpid w).
    split; [|split; [by apply Atoi_Itoa|done]].
    unfold os_ReadFile, Open_ReadAll. rewrite Hfile. by rewrite decide_False. }
  destruct (acquire_held w2 lg2 Hlg2 Hrun) as (w2' & Hexit & Hf & Hsp).
  exists w2'. split; [done|]. split; [|done].
  by rewrite (log_grows_other _ _ _ Hf pid_not_log).
Qed.

(** X2.  Once the process that took the pid file no longer answers signal
    0, the next process takes the file over: it goes on, and the file holds
    its own identifier. *)
Theorem next_process_takes_over_after_crash (w w' w2 : World) lg lg2 (e : error) :
  logger w = Some lg ->
  - 2 ^ 63 <= Getpid w < 2 ^ 63 ->
  Listener.main_acquire w = Ret () w' ->
  files w2 = files w' ->
  Listener.pidFilePath ∉ write_faults w2 ->
  logger w2 = Some lg2 ->
  Kill w2 (Getpid w) 0 = Some e ->
  exists w2',
    Listener.main_acquire w2 = Ret () w2' /\
    files w2' !! Listener.pidFilePath = Some (Itoa (Getpid w2)).
Proof.
  intros Hlg Hrange Hret Hfiles Hwrite Hlg2 Hkill.
  destruct (main_acquire_ret w w' lg Hlg Hret) as (_ & _ & Hw').
  assert (Hfile : files w2 !! Listener.pidFilePath = Some (Itoa (Getpid w))).
  { by rewrite Hfiles. }
  assert (Hrun : Listener.isRunning Listener.pidFilePath w2 = false).
  { unfold Listener.isRunning, os_ReadFile, Open_ReadAll. rewrite Hfile.
    case_decide; [done|]. by rewrite Atoi_Itoa, Hkill. }
  destruct (acquire_stale w2 lg2 Hlg2 Hrun Hwrite) as (w2' & Hret2 & Hf & _).
  by exists w2'.
Qed.

Lemma digits_value_nondigit (s : string) (c : ascii) (rest : string) (acc : Z) :
  digit_value c = None ->
  digits_value (s +:+ String c rest) acc = None.
Proof.
  intros Hc. revert acc. induction s as [|a s IH]; intros acc;
    unfold String.append; fold String.append; simpl.
  - by rewrite Hc.
  - destruct (digit_value a); [apply IH|done].
Qed.

(** [Atoi] rejects text with a character that is not a digit after its
    first character. *)
Lemma Atoi_nondigit (s : string) (c : ascii) (rest : string) :
  s <> "" -> digit_value c = None -> Atoi (s +:+ String c rest) = None.
Proof.
  intros Hs Hc. destruct s as [|a s]; [done|].
  pose proof (digits_value_nondigit s c rest 0 Hc) as Hd1.
  pose proof (digits_value_nondigit (String a s) c rest 0 Hc) as Hd2.
  change (String a s +:+ String c rest) with (String a (s +:+ String c rest)) in *.
  unfold Atoi.
  destruct (bool_decide (a = "+"%char)); [|destruct (bool_decide (a = "-"%char))].
  - destruct (s +:+ String c rest); [done|]. by rewrite Hd1.
  - destruct (s +:+ String c rest); [done|]. by rewrite Hd1.
  - by rewrite Hd2.
Qed.

(** X3.  A pid file that holds anything after the number, a line feed for
    one, never counts as held: [isRunning] answers false whatever processes
    are alive, and the guard takes the file for stale.  When the file can be
    written, it is written anew and the process goes on; when it cannot,
    the process exits with status 2. *)
Theorem pid_file_with_trailing_text_is_stale
    (w : World) lg (s : string) (c : ascii) (rest : string) :
  files w !! Listener.pidFilePath = Some (s +:+ String c rest) ->
  s <> "" ->
  digit_value c = None ->
  logger w = Some lg ->
  Listener.isRunning Listener.pidFilePath w = false /\
  (Listener.pidFilePath ∉ write_faults w ->
     exists w',
       Listener.main_acquire w = Ret () w' /\
       files w' !! Listener.pidFilePath = Some (Itoa (Getpid w))) /\
  (Listener.pidFilePath ∈ write_faults w ->
     exists w', Listener.main_acquire w = Exit 2 w').
Proof.
  intros Hfile Hs Hc Hlg.
  assert (Hrun : Listener.isRunning Listener.pidFilePath w = false).
  { unfold Listener.isRunning, os_ReadFile, Open_ReadAll. rewrite Hfile.
    case_decide; [done|]. by rewrite Atoi_nondigit. }
  split; [done|]. split.
  - intros Hwrite.
    destruct (acquire_stale w lg Hlg Hrun Hwrite) as (w' & Hret & Hf & _).
    by exists w'.
  - intros Hfault.
    destruct (acquire_unwritable w lg Hlg Hrun Hfault) as (w' & Hexit & _).
    by exists w'.
Qed.

End GuardHandover.

Lemma second_process_exits_while_first_lives_witness :
  Listener.main_acquire Examples.stale
    = Ret () (final_world (Listener.main_acquire Examples.stale)) /\
  Kill MoreExamples.second_view (Getpid Examples.stale) 0 = None /\
  exists w2',
    Listener.main_acquire MoreExamples.second_view = Exit 0 w2' /\
    files w2' !! Listener.pidFilePath = Some (Itoa (Getpid Examples.stale)) /\
    spawned w2' = spawned MoreExamples.second_view.
Proof.
  split; [reflexivity|]. split; [reflexivity|].
  refine (second_process_exits_while_first_lives Examples.stale _
            MoreExamples.second_view _ _ eq_refl _ eq_refl eq_refl _ eq_refl eq_refl).
  - vm_compute. split; [discriminate|reflexivity].
  - vm_compute. intros Hin. discriminate Hin.
Defined.

Lemma next_process_takes_over_after_crash_witness :
  Listener.main_acquire Examples.stale
    = Ret () (final_world (Listener.main_acquire Examples.stale)) /\
  Kill MoreExamples.second_view_after_crash (Getpid Examples.stale) 0
    = Some "no such process" /\
  exists w2',
    Listener.main_acquire MoreExamples.second_view_after_crash = Ret () w2' /\
    files w2' !! Listener.pidFilePath = Some "5000".
Proof.
  split; [reflexivity|]. split; [reflexivity|].
  refine (next_process_takes_over_after_crash Examples.stale _
            MoreExamples.second_view_after_crash _ _ "no such process"
            eq_refl _ eq_refl eq_refl _ eq_refl eq_refl).
  - vm_compute. split; [discriminate|reflexivity].
  - vm_compute. intros Hin. discriminate Hin.
Defined.

Lemma pid_file_with_trailing_text_is_stale_witness :
  Kill MoreExamples.newline_pid 4242 0 = None /\
  Listener.isRunning Listener.pidFilePath MoreExamples.newline_pid = false /\
  exists w',
    Listener.main_acquire MoreExamples.newline_pid = Ret () w' /\
    files w' !! Listener.pidFilePath = Some "4711".
Proof.
  split; [reflexivity|].
  assert (Hfile : files MoreExamples.newline_pid !! Listener.pidFilePath
                  = Some ("4242" +:+ String "010" "")) by reflexivity.
  assert (Hdigits : "4242" <> "") by discriminate.
  destruct (pid_file_with_trailing_text_is_stale MoreExamples.newline_pid _
              "4242" "010"%char "" Hfile Hdigits eq_refl eq_refl)
    as (Hrun & Hwritable & _).
  split; [exact Hrun|]. apply Hwritable.
  vm_compute. intros Hin. discriminate Hin.
Defined.

(** ** What [main] of the listener does before the worker starts *)

Section StartupOutcomes.
Context `{RegexpLib} `{UrlLib} `{PathLib} `{LogrusLib} `{JsonLib Listener.Config}.

Lemma startup_guard_world (w : World) config :
  Listener.loadConfig (Listener.defaultConfigPath w) w = (config, None) ->
  Listener.logFilePath ∉ write_faults w ->
  exists w1,
    logger w1 = Some {| level := Listener.parsedLogLevel config; written := [] |} /\
    spawned w1 = spawned w /\ Getpid w1 = Getpid w /\
    Listener.main_startup w = (Listener.main_acquire ;; mret config) w1.
Proof.
  intros Hload Hlog. unfold Listener.main_startup. rewrite Hload.
  unfold os_OpenFile_append, logrus_New_SetLevel. unfold_proc.
  rewrite decide_False by done.
  destruct (files w !! Listener.logFilePath).
  - by exists (set_logger (Some {| level := Listener.parsedLogLevel config;
                                   written := [] |}) w).
  - by exists (set_logger (Some {| level := Listener.parsedLogLevel config;
                                   written := [] |})
                 (set_files (<[Listener.logFilePath := ""]> (files w)) w)).
Qed.

(** X4.  Before the worker starts, [main] of the listener runs no command and
    never panics; it exits only with status 0 or 2, and with status 2
    whenever the configuration does not load, the file system then being
    left as it was.  When it goes on, the configuration is the one loaded,
    the pid file holds the identifier of the process, and the logger is set
    to the level of the configuration. *)
Theorem listener_startup_outcomes (w : World) :
  spawned (final_world (Listener.main_startup w)) = spawned w /\
  (forall w', Listener.main_startup w <> Crash w') /\
  (forall code w', Listener.main_startup w = Exit code w' -> code = 0 \/ code = 2) /\
  (forall cfg e,
     Listener.loadConfig (Listener.defaultConfigPath w) w = (cfg, Some e) ->
     exists w', Listener.main_startup w = Exit 2 w' /\ files w' = files w) /\
  (forall config w',
     Listener.main_startup w = Ret config w' ->
     Listener.loadConfig (Listener.defaultConfigPath w) w = (config, None) /\
     files w' !! Listener.pidFilePath = Some (Itoa (Getpid w)) /\
     exists lg, logger w' = Some lg /\ level lg = Listener.parsedLogLevel config).
Proof.
  destruct (Listener.loadConfig (Listener.defaultConfigPath w) w) as [cfg [e|]] eqn:Hload.
  { assert (Hrun : Listener.main_startup w
                   = Exit 2 (set_stderr (stderr w ++ [{| format := "Error loading config: %v\n";
                                                       args := [e] |}]) w)).
    { unfold Listener.main_startup. by rewrite Hload. }
    rewrite Hrun. split; [done|]. split; [done|].
    split; [intros code w' [= <- _]; by right|].
    split; [|done]. intros cfg' e' _. by eexists. }
  destruct (decide (Listener.logFilePath ∈ write_faults w)) as [Hfault|Hok].
  { assert (Hrun : exists w1, Listener.main_startup w = Exit 2 w1 /\ spawned w1 = spawned w).
    { unfold Listener.main_startup. rewrite Hload. unfold os_OpenFile_append. unfold_proc.
      rewrite decide_True by done. by eexists. }
    destruct Hrun as (w1 & Hrun & Hsp). rewrite Hrun.
    split; [done|]. split; [done|].
    split; [intros code w' [= <- _]; by right|]. split; done. }
  destruct (startup_guard_world w cfg Hload Hok) as (w1 & Hlg1 & Hsp1 & Hpid1 & Hrun).
  rewrite Hrun. unfold mbind, mret, Proc_bind, Proc_ret.
  destruct (Listener.isRunning Listener.pidFilePath w1) eqn:Hheld.
  { destruct (acquire_held w1 _ Hlg1 Hheld) as (w2 & -> & _ & Hsp2).
    split; [simpl; congruence|]. split; [done|].
    split; [intros code w' [= <- _]; by left|]. split; done. }
  destruct (decide (Listener.pidFilePath ∈ write_faults w1)) as [Hw|Hw].
  { destruct (acquire_unwritable w1 _ Hlg1 Hheld Hw) as (w2 & -> & _ & Hsp2 & _).
    split; [simpl; congruence|]. split; [done|].
    split; [intros code w' [= <- _]; by right|]. split; done. }
  destruct (acquire_stale w1 _ Hlg1 Hheld Hw)
    as (w2 & -> & Hf2 & Hsp2 & (lg & Hlg & Hlvl) & _).
  split; [simpl; congruence|]. split; [done|]. split; [done|]. split; [done|].
  intros config w' [= <- <-]. split; [done|]. split.
  - by rewrite Hf2, Hpid1.
  - by exists lg.
Qed.

End StartupOutcomes.

(** ** What a loaded configuration looks like *)

Section LoadFacts.
Context `{RegexpLib} `{LogrusLib}.

Lemma loadConfig_rules_compiled (rules : list Rule) (cr : list compiledRule) :
  loadConfig_rules 0 rules [] = (cr, None) ->
  Forall2 compiled_from rules cr /\
  Forall (fun c => profileDirectory c <> "") cr.
Proof.
  intros Hrun. pose proof (loadConfig_rules_no_error _ _ _ _ Hrun) as Hvalid.
  destruct (loadConfig_rules_success rules 0 [] Hvalid) as (cr' & Hrun' & Hfrom).
  rewrite Hrun in Hrun'. simpl in Hrun'. injection Hrun' as ->.
  split; [done|]. clear Hrun.
  induction Hfrom as [|r c rules cr' [_ Hp] _ IH]; [constructor|].
  apply Forall_cons in Hvalid as [Hr Hvalid]. constructor; [|by apply IH].
  rewrite Hp. intros Hempty. apply Hr. unfold offending. tauto.
Qed.

Lemma loadConfig_rules_offending (rules : list Rule) :
  Exists offending rules ->
  exists e, loadConfig_rules 0 rules [] = ([], Some e).
Proof.
  intros Hex. destruct (loadConfig_rules 0 rules []) as [cr [e|]] eqn:Hrun.
  - destruct (loadConfig_rules_failure _ _ _ _ _ Hrun) as [-> _]. by exists e.
  - apply loadConfig_rules_no_error in Hrun. by destruct (valid_not_offending rules).
Qed.

Lemma loadConfig_finish_profiles (decoded config : Listener.Config) :
  Listener.loadConfig_finish decoded = (config, None) ->
  Listener.DefaultProfileDirectory config <> "" /\
  Forall (fun c => profileDirectory c <> "") (Listener.compiledRules config).
Proof.
  unfold Listener.loadConfig_finish.
  destruct decoded as [app dflt strat rules lvl cr plvl]. simpl.
  destruct (decide (app = "")); simpl; destruct (decide (dflt = "")); simpl;
    destruct (loadConfig_rules 0 rules []) as [cr' [err|]] eqn:Hrun; simpl; try done;
    destruct (loadConfig_rules_compiled rules cr' Hrun) as [_ Hprof];
    destruct (decide (lvl = "")); simpl;
    match goal with
    | |- context [logrus_ParseLevel ?l] => destruct (logrus_ParseLevel l) eqn:Hlvl
    end; try done; by intros [= <-].
Qed.

(** X5.  A configuration that [loadConfig] of the listener accepts has an
    application path, a default profile directory and a log level that are
    not empty: the ones decoded, or the defaults where the decoded field is
    empty.  The strategy and the rules are as decoded, there is one compiled
    rule per rule, in order, each with a profile directory that is not
    empty, and the parsed log level is that of the log level. *)
Theorem loadConfig_finish_loaded (decoded config : Listener.Config) :
  Listener.loadConfig_finish decoded = (config, None) ->
  Listener.ChromeAppPath config =
    (if decide (Listener.ChromeAppPath decoded = "")
     then "/Applications/Google Chrome.app" else Listener.ChromeAppPath decoded) /\
  Listener.DefaultProfileDirectory config =
    (if decide (Listener.DefaultProfileDirectory decoded = "")
     then "Default" else Listener.DefaultProfileDirectory decoded) /\
  Listener.LogLevel config =
    (if decide (Listener.LogLevel decoded = "")
     then "info" else Listener.LogLevel decoded) /\
  (Listener.ChromeAppPath config <> "" /\
   Listener.DefaultProfileDirectory config <> "" /\
   Listener.LogLevel config <> "") /\
  Listener.StrategyForUnknownUrls config = Listener.StrategyForUnknownUrls decoded /\
  Listener.Rules config = Listener.Rules decoded /\
  Forall2 compiled_from (Listener.Rules decoded) (Listener.compiledRules config) /\
  Forall (fun c => profileDirectory c <> "") (Listener.compiledRules config) /\
  logrus_ParseLevel (Listener.LogLevel config) = inl (Listener.parsedLogLevel config).
Proof.
  unfold Listener.loadConfig_finish.
  destruct decoded as [app dflt strat rules lvl cr plvl]. simpl.
  destruct (decide (app = "")); simpl; destruct (decide (dflt = "")); simpl;
    destruct (loadConfig_rules 0 rules []) as [cr' [err|]] eqn:Hrun; simpl; try done;
    destruct (loadConfig_rules_compiled rules cr' Hrun) as [Hfrom Hprof];
    destruct (decide (lvl = "")); simpl;
    match goal with
    | |- context [logrus_ParseLevel ?l] => destruct (logrus_ParseLevel l) eqn:Hlvl
    end; try done; intros [= <-]; simpl; repeat split; try done.
Qed.

(** X6.  [loadConfig] of the listener rejects a decoded configuration for
    two reasons only: an offending rule, reported as the rule loop reports
    it, or, when every rule is valid, a log level that [logrus.ParseLevel]
    does not know, the empty level being read as "info".  A rule error is
    reported whatever the log level is. *)
Theorem loadConfig_finish_rejects (decoded : Listener.Config) :
  let lvl := if decide (Listener.LogLevel decoded = "")
             then "info" else Listener.LogLevel decoded in
  (forall cfg e,
     Listener.loadConfig_finish decoded = (cfg, Some e) ->
     (Exists offending (Listener.Rules decoded) /\
      loadConfig_rules 0 (Listener.Rules decoded) [] = ([], Some e) /\
      Listener.compiledRules cfg = Listener.compiledRules decoded) \/
     (Forall (fun r => ~ offending r) (Listener.Rules decoded) /\
      exists e', logrus_ParseLevel lvl = inr e' /\ e = "parse log level: " +:+ e')) /\
  (Exists offending (Listener.Rules decoded) ->
     exists cfg e,
       Listener.loadConfig_finish decoded = (cfg, Some e) /\
       loadConfig_rules 0 (Listener.Rules decoded) [] = ([], Some e)) /\
  (Forall (fun r => ~ offending r) (Listener.Rules decoded) ->
   forall e', logrus_ParseLevel lvl = inr e' ->
     exists cfg,
       Listener.loadConfig_finish decoded = (cfg, Some ("parse log level: " +:+ e'))).
Proof.
  intros lvl. subst lvl. unfold Listener.loadConfig_finish.
  destruct decoded as [app dflt strat rules lv cr plvl]. simpl.
  split; [|split].
  - intros cfg e.
    destruct (decide (app = "")); simpl; destruct (decide (dflt = "")); simpl;
      (destruct (loadConfig_rules 0 rules []) as [cr' [err|]] eqn:Hrun; simpl;
       [ intros [= <- <-]; left;
         destruct (loadConfig_rules_failure _ _ _ _ _ Hrun) as (-> & k & r & Hk & Hoff & _);
         split; [|done]; apply Exists_exists; exists r; split; [|done];
         by eapply list_elem_of_lookup_2
       | pose proof (loadConfig_rules_no_error _ _ _ _ Hrun) as Hvalid;
         destruct (decide (lv = "")); simpl;
         match goal with
         | |- context [logrus_ParseLevel ?l] =>
             destruct (logrus_ParseLevel l) as [?|e'] eqn:Hlvl
         end; try done; intros [= <- <-]; right; (split; [done|]); by exists e' ]).
  - intros Hex. destruct (loadConfig_rules_offending rules Hex) as [e He].
    destruct (decide (app = "")); simpl; destruct (decide (dflt = "")); simpl;
      rewrite He; by eexists _, e.
  - intros Hvalid e' Hlvl.
    destruct (loadConfig_rules_success rules 0 [] Hvalid) as (cr' & Hrun & _).
    destruct (decide (app = "")); simpl; destruct (decide (dflt = "")); simpl;
      rewrite Hrun; simpl; destruct (decide (lv = "")); simpl in *; rewrite Hlvl;
      by eexists.
Qed.

End LoadFacts.

Lemma loadConfig_finish_loaded_witness :
  Listener.loadConfig_finish (Examples.acme_decoded "" "")
    = (Examples.acme "" "", None) /\
  Listener.ChromeAppPath (Examples.acme "" "") = "/Applications/Google Chrome.app" /\
  Listener.DefaultProfileDirectory (Examples.acme "" "") = "Default" /\
  Listener.LogLevel (Examples.acme "" "") = "info".
Proof.
  assert (Hload : Listener.loadConfig_finish (Examples.acme_decoded "" "")
                  = (Examples.acme "" "", None)) by reflexivity.
  split; [exact Hload|].
  destruct (loadConfig_finish_loaded _ _ Hload) as (Happ & Hdflt & Hlvl & _).
  split; [exact Happ|]. split; [exact Hdflt|exact Hlvl].
Defined.

(** A log level that is not one of logrus is the reason a configuration with
    valid rules is rejected. *)
Example loadConfig_finish_rejects_example :
  (exists e,
     (Listener.loadConfig_finish (Examples.acme_decoded "" "verbose")).2
       = Some ("parse log level: " +:+ e)) /\
  (Listener.loadConfig_finish (Examples.acme_decoded "" "WARNING")).2 = None.
Proof. split; [eexists|]; reflexivity. Qed.

(** ** From the configuration to the command *)

Section CommandFacts.
Context `{RegexpLib} `{UrlLib} `{LogrusLib}.

(** X7.  With a configuration that [loadConfig] of the listener accepted, the
    command for a URL carries no profile-selection argument exactly when no
    rule matches the URL and the strategy is not use-default-profile; in
    every other case it carries one, with a profile directory that is not
    empty. *)
Theorem profile_flag_omitted_iff
    (decoded config : Listener.Config) (urlStr : string) :
  Listener.loadConfig_finish decoded = (config, None) ->
  let unrouted :=
    chooseProfile_range urlStr (Listener.compiledRules config) = None /\
    Listener.StrategyForUnknownUrls config
      <> Listener.StrategyForUnknownUrlsUseDefaultProfile in
  (unrouted ->
     cmd_args (Listener.launch_cmd config urlStr) =
       ["-na"; Listener.ChromeAppPath config; "--args"; openInChrome_url urlStr]) /\
  (~ unrouted ->
     Listener.chooseProfile urlStr config <> "" /\
     cmd_args (Listener.launch_cmd config urlStr) =
       ["-na"; Listener.ChromeAppPath config; "--args";
        "--profile-directory=" +:+ Listener.chooseProfile urlStr config;
        openInChrome_url urlStr]).
Proof.
  intros Hload unrouted. subst unrouted.
  destruct (loadConfig_finish_profiles decoded config Hload) as [Hdflt Hprof].
  unfold Listener.launch_cmd, Listener.openInChrome_args, Listener.chooseProfile. simpl.
  split.
  - intros [-> Hs].
    destruct (decide (Listener.StrategyForUnknownUrls config
                      = Listener.StrategyForUnknownUrlsUseDefaultProfile)); [done|].
    by case_decide.
  - intros Hrouted.
    assert (Hne : match chooseProfile_range urlStr (Listener.compiledRules config) with
                  | Some profile => profile
                  | None =>
                      if decide (Listener.StrategyForUnknownUrls config
                                 = Listener.StrategyForUnknownUrlsUseDefaultProfile)
                      then Listener.DefaultProfileDirectory config else ""
                  end <> "").
    { destruct (chooseProfile_range urlStr (Listener.compiledRules config)) as [p|] eqn:Hp.
      - apply chooseProfile_range_elem in Hp as (c & Hin & _ & ->).
        rewrite Forall_forall in Hprof. by apply Hprof.
      - case_decide; [done|]. exfalso. by apply Hrouted. }
    split; [done|]. by rewrite decide_True.
Qed.

End CommandFacts.

Lemma profile_flag_omitted_iff_witness :
  Listener.loadConfig_finish (Examples.acme_decoded "use-browser-default" "")
    = (Examples.acme "use-browser-default" "", None) /\
  cmd_args (Listener.launch_cmd (Examples.acme "use-browser-default" "")
              "https://example.com")
    = ["-na"; "/Applications/Google Chrome.app"; "--args"; "https://example.com"].
Proof.
  assert (Hload : Listener.loadConfig_finish (Examples.acme_decoded "use-browser-default" "")
                  = (Examples.acme "use-browser-default" "", None)) by reflexivity.
  split; [exact Hload|].
  refine (proj1 (profile_flag_omitted_iff _ _ "https://example.com" Hload) _).
  split; [reflexivity|discriminate].
Defined.

Section UrlFacts.
Context `{UrlLib}.

Lemma HasPrefix_http (urlStr : string) : HasPrefix ("http://" +:+ urlStr) "http" = true.
Proof. unfold HasPrefix, String.append. simpl. by destruct urlStr. Qed.

(** X8.  Handing a URL off is idempotent: a URL that [openInChrome] has
    prefixed or left alone is left alone when it is handed off again,
    whatever [url.Parse] makes of it. *)
Theorem openInChrome_url_idempotent (urlStr : string) :
  openInChrome_url (openInChrome_url urlStr) = openInChrome_url urlStr.
Proof.
  assert (Hprefixed : openInChrome_url ("http://" +:+ urlStr) = "http://" +:+ urlStr).
  { unfold openInChrome_url. rewrite HasPrefix_http.
    destruct (url_Parse ("http://" +:+ urlStr)) as [u'|e']; [|done].
    by rewrite andb_false_r. }
  assert (Hcases : openInChrome_url urlStr = "http://" +:+ urlStr
                   \/ openInChrome_url urlStr = urlStr).
  { unfold openInChrome_url. destruct (url_Parse urlStr) as [u|e]; [|by right].
    destruct (bool_decide (Scheme u = "") && negb (HasPrefix urlStr "http")); auto. }
  destruct Hcases as [Heq|Heq]; rewrite Heq; [exact Hprefixed|exact Heq].
Qed.

End UrlFacts.

(** ** What the running dispatcher touches *)

Section FrameFacts.
Context `{RegexpLib} `{UrlLib} `{PathLib}.


Lemma step_frame (config : Listener.Config) (s s' : Listener.System) :
  Listener.step config s s' ->
  log_grows (Listener.world s) (Listener.world s') /\
  stderr (Listener.world s') = stderr (Listener.world s) /\
  level <$> logger (Listener.world s') = level <$> logger (Listener.world s) /\
  exists h,
    Listener.history s' = Listener.history s ++ h /\
    spawned (Listener.world s') =
      spawned (Listener.world s) ++ (Listener.launch_cmd config <$> started h).
Proof.
  intros Hstep.
  destruct Hstep as [u es wk w h|u es w h|u es nt w h n c w' Hl|u es nt w h n c w' Hc]; simpl.
  - split; [apply log_grows_refl|]. split; [done|]. split; [done|].
    exists []. by rewrite !app_nil_r.
  - split; [apply log_grows_refl|]. split; [done|]. split; [done|].
    exists [Listener.EvReceive u]. by rewrite app_nil_r.
  - destruct (logger w) as [lg|] eqn:Hlg.
    + destruct (processURL_launch_spec u config w lg Hlg)
        as (w1 & Hl1 & Hsp & _ & Hf & Hs & _ & lg1 & Hlg1 & Hlvl).
      rewrite Hl1 in Hl. injection Hl as _ _ <-.
      split; [done|]. split; [done|].
      split; [rewrite Hlg1; simpl; by rewrite Hlvl|].
      by exists [Listener.EvLaunchStart u].
    + exfalso. unfold Listener.processURL_launch, logger_Debugf, logger_Logf in Hl.
      unfold mbind, Proc_bind in Hl. by rewrite Hlg in Hl.
  - destruct (logger w) as [lg|] eqn:Hlg.
    + destruct (processURL_complete_spec n c w lg Hlg)
        as (w1 & Hc1 & Hsp & _ & Hf & Hs & _ & lg1 & Hlg1 & Hlvl).
      rewrite Hc1 in Hc. injection Hc as <-.
      split; [done|]. split; [done|].
      split; [rewrite Hlg1; simpl; by rewrite Hlvl|].
      exists [Listener.EvLaunchEnd u]. by rewrite Hsp, app_nil_r.
    + assert (Hsame : w' = w /\ True).
      { unfold Listener.processURL_complete, cmd_Wait, logger_Errorf, logger_Logf in Hc.
        unfold mbind, mret, Proc_bind, Proc_ret in Hc.
        destruct (Run w n c); [by rewrite Hlg in Hc|]. by injection Hc as <-. }
      destruct Hsame as [-> _].
      split; [apply log_grows_refl|]. split; [done|]. split; [by rewrite Hlg|].
      exists [Listener.EvLaunchEnd u]. by rewrite app_nil_r.
Qed.

Lemma steps_log_grows (config : Listener.Config) (s s' : Listener.System) :
  Listener.steps config s s' -> log_grows (Listener.world s) (Listener.world s').
Proof.
  intros Hsteps. induction Hsteps as [s|s s1 s' Hstep _ IH]; [apply log_grows_refl|].
  destruct (step_frame config s s1 Hstep) as (Hf1 & _). by eapply log_grows_trans.
Qed.


End FrameFacts.



(** The log file of the example after a launch that fails, at the level
    debug: the line of the routing decision and the line of the failure. *)
Example log_file_example :
  files (final_world
           (Listener.processURL "a" (Examples.acme "" "")
              (MoreExamples.with_log (Examples.failing DebugLevel)))) !! logFilePath
    = Some ("msg=Routing: %s  ->  profile-directory=%q\n"
            +:+ "msg=Failed to open URL in Chrome: %v\n").
Proof. reflexivity. Qed.

(** ** The one-shot build as a whole *)

Section OneShotProcess.
Context `{RegexpLib} `{UrlLib} `{PathLib} `{JsonLib OneShot.Config}.

Lemma OneShot_processURL_frame (config : OneShot.Config) (compiled : list compiledRule)
    (urlStr : string) (w : World) :
  exists w',
    OneShot.processURL config compiled urlStr w = Ret () w' /\
    files w' = files w /\
    length (spawned w') = S (length (spawned w)).
Proof.
  unfold OneShot.processURL, OneShot.openInChrome. unfold_proc. simpl.
  destruct (Run w _ _); eexists; (split; [reflexivity|]); simpl;
    (split; [done|]); rewrite length_app; simpl; lia.
Qed.

(** X10.  The one-shot process always ends in [os.Exit], with the files as
    they were: with status 2 exactly when the configuration does not load,
    with status 1 exactly when it loads and the timer fires, with status 0
    exactly when it loads and a URL is received.  One command has been run
    when the status is 0, none otherwise. *)
Theorem one_shot_exit_codes (c : OneShot.SelectCase) (w : World) :
  exists code w',
    OneShot.main c w = Exit code w' /\
    files w' = files w /\
    (code = 2 <-> is_Some (OneShot.loadConfig (OneShot.defaultConfigPath w) w).2) /\
    (code = 1 <->
       (OneShot.loadConfig (OneShot.defaultConfigPath w) w).2 = None /\
       c = OneShot.TimeoutFired) /\
    (code = 0 <->
       (OneShot.loadConfig (OneShot.defaultConfigPath w) w).2 = None /\
       exists u, c = OneShot.RecvURL u) /\
    (code <> 0 -> spawned w' = spawned w) /\
    (code = 0 -> length (spawned w') = S (length (spawned w))).
Proof.
  unfold OneShot.main, OneShot.main_startup. unfold mbind, Proc_bind.
  destruct (OneShot.loadConfig (OneShot.defaultConfigPath w) w) as [[cfg cr] [e|]] eqn:Hload;
    simpl.
  - exists 2. eexists. split; [reflexivity|]. simpl. split; [done|].
    split; [split; [by eexists|done]|].
    split; [split; [done|by intros [? _]]|].
    split; [split; [done|by intros [? _]]|]. split; done.
  - destruct c as [u|]; simpl.
    + destruct (OneShot_processURL_frame cfg cr u w) as (w' & Hp & Hf & Hsp).
      exists 0, w'. unfold mbind, Proc_bind, os_Exit. rewrite Hp.
      split; [done|]. split; [done|].
      split; [split; [done|by intros [? ?]]|].
      split; [split; [done|by intros [_ ?]]|].
      split; [split; [by eauto|done]|]. split; done.
    + exists 1. eexists. split; [reflexivity|]. simpl. split; [done|].
      split; [split; [done|by intros [? ?]]|].
      split; [done|].
      split; [split; [done|by intros [_ [? ?]]]|]. split; done.
Qed.

(** X11.  [loadConfig] of the one-shot build returns compiled rules only
    with a nil error.  Its error is one of four: the file does not open,
    it opens but cannot be read, its text is not decoded, or a rule is
    offending; in the first two the configuration returned is the zero
    value.  On success the file was read and decoded, the application path
    and the default profile directory are not empty, the rules are the
    decoded ones, and there is one compiled rule per rule, in order, each
    with a profile directory that is not empty. *)
Theorem one_shot_loadConfig_result (path : string) (w : World) :
  match OneShot.loadConfig path w with
  | (cfg, cr, Some e) =>
      cr = [] /\
      ((files w !! path = None /\ cfg = OneShot.zero_Config /\
        e = "open config: " +:+ PathError w "open" path) \/
       (is_Some (files w !! path) /\ path ∈ read_faults w /\
        cfg = OneShot.zero_Config /\
        e = "read config: " +:+ PathError w "read" path) \/
       (exists data e',
          Open_ReadAll path w = Data data /\
          json_Unmarshal data OneShot.zero_Config = (cfg, Some e') /\
          e = "parse config JSON: " +:+ e') \/
       (exists data decoded,
          Open_ReadAll path w = Data data /\
          json_Unmarshal data OneShot.zero_Config = (decoded, None) /\
          Exists offending (OneShot.Rules decoded) /\
          loadConfig_rules 0 (OneShot.Rules decoded) [] = ([], Some e)))
  | (cfg, cr, None) =>
      exists data decoded,
        Open_ReadAll path w = Data data /\
        json_Unmarshal data OneShot.zero_Config = (decoded, None) /\
        OneShot.ChromeAppPath cfg <> "" /\
        OneShot.DefaultProfileDirectory cfg <> "" /\
        OneShot.Rules cfg = OneShot.Rules decoded /\
        Forall2 compiled_from (OneShot.Rules decoded) cr /\
        Forall (fun c => profileDirectory c <> "") cr
  end.
Proof.
  unfold OneShot.loadConfig.
  destruct (Open_ReadAll path w) as [e0|e0|data] eqn:Hopen.
  - split; [done|]. left. unfold Open_ReadAll in Hopen.
    destruct (files w !! path); [by case_decide|]. by injection Hopen as <-.
  - split; [done|]. right; left. unfold Open_ReadAll in Hopen.
    destruct (files w !! path); [|done]. case_decide; [|done].
    injection Hopen as <-. split; [by eexists|]. done.
  - destruct (json_Unmarshal data OneShot.zero_Config) as [decoded [e'|]] eqn:Hjson.
    { split; [done|]. right; right; left. by exists data, e'. }
    unfold OneShot.loadConfig_finish.
    destruct decoded as [app dflt rules]. simpl.
    destruct (decide (app = "")); simpl; destruct (decide (dflt = "")); simpl;
      (destruct (loadConfig_rules 0 rules []) as [cr [e1|]] eqn:Hrun;
       [ destruct (loadConfig_rules_failure _ _ _ _ _ Hrun) as (-> & k & r & Hk & Hoff & _);
         split; [done|]; right; right; right; eexists data, _;
         split; [done|]; split; [done|]; split; [|done];
         apply Exists_exists; exists r; split; [|done];
         by eapply list_elem_of_lookup_2
       | destruct (loadConfig_rules_compiled rules cr Hrun) as [Hfrom Hprof];
         eexists data, _; split; [done|]; split; [done|]; by repeat split ]).
Qed.

End OneShotProcess.

(** ** The lock-file guard *)

Section LockFacts.
Context `{RegexpLib} `{UrlLib} `{PathLib} `{LogrusLib} `{JsonLib Listener.Config}.

Lemma lock_acquire_refused (w : World) lg :
  logger w = Some lg ->
  is_Some (files w !! LockFile.lockFilePath) \/ LockFile.lockFilePath ∈ write_faults w ->
  exists w',
    LockFile.main_acquire w = Exit 0 w' /\
    log_grows w w' /\ spawned w' = spawned w /\ stderr w' = stderr w.
Proof.
  intros Hlg Hheld.
  destruct (logger_Logf_spec DebugLevel "%v"
              ["Another instance is already running, exiting"] w lg Hlg)
    as (w1 & Hl & Hsp & _ & Hf & Hs & _).
  exists w1. split; [|done].
  unfold LockFile.main_acquire, os_OpenFile_excl, logger_Debugf.
  unfold mbind, Proc_bind, os_Exit.
  destruct Hheld as [[data Hdata]|Hfault].
  - rewrite Hdata. by rewrite Hl.
  - destruct (files w !! LockFile.lockFilePath); [by rewrite Hl|].
    rewrite decide_True by done. by rewrite Hl.
Qed.

Lemma lock_refusal_unlogged (w w' : World) lg :
  logger w = Some lg ->
  IsLevelEnabled (level lg) DebugLevel = false ->
  LockFile.main_acquire w = Exit 0 w' ->
  w' = w.
Proof.
  intros Hlg Hlevel. unfold LockFile.main_acquire, os_OpenFile_excl, logger_Debugf,
    logger_Logf.
  unfold mbind, mret, Proc_bind, Proc_ret, os_Exit.
  destruct (files w !! LockFile.lockFilePath); [|case_decide]; simpl;
    rewrite ?Hlg, ?Hlevel; congruence.
Qed.

Lemma lock_acquire_taken (w : World) :
  files w !! LockFile.lockFilePath = None ->
  LockFile.lockFilePath ∉ write_faults w ->
  LockFile.main_acquire w
    = Ret () (set_files (<[LockFile.lockFilePath := ""]> (files w)) w).
Proof.
  intros Hfree Hok. unfold LockFile.main_acquire, os_OpenFile_excl.
  unfold mbind, mret, Proc_bind, Proc_ret. rewrite Hfree. by rewrite decide_False.
Qed.

Lemma lock_acquire_ret (w w' : World) lg :
  logger w = Some lg ->
  LockFile.main_acquire w = Ret () w' ->
  files w !! LockFile.lockFilePath = None /\
  (LockFile.lockFilePath ∉ write_faults w) /\
  w' = set_files (<[LockFile.lockFilePath := ""]> (files w)) w.
Proof.
  intros Hlg Hret.
  destruct (files w !! LockFile.lockFilePath) as [data|] eqn:Hfile.
  { destruct (lock_acquire_refused w lg Hlg) as (w1 & Hexit & _); [left; by eexists|].
    by rewrite Hexit in Hret. }
  destruct (decide (LockFile.lockFilePath ∈ write_faults w)) as [Hfault|Hok].
  { destruct (lock_acquire_refused w lg Hlg) as (w1 & Hexit & _); [by right|].
    by rewrite Hexit in Hret. }
  rewrite (lock_acquire_taken w Hfile Hok) in Hret. by injection Hret as <-.
Qed.

(** X12.  The lock-file guard asks the file system only: when the lock file
    exists, or cannot be created, the process exits with status 0, whatever
    processes are alive, with commands and standard error as they were and
    no file changed but the log file, to which the logger appends the
    refusal when its level admits it; when the file does not exist and can
    be created, it is created empty and the process goes on.  The guard
    never exits with another status and never panics once the logger is
    set. *)
Theorem lock_acquire_outcomes (w : World) lg :
  logger w = Some lg ->
  (is_Some (files w !! LockFile.lockFilePath) \/ LockFile.lockFilePath ∈ write_faults w ->
     exists w',
       LockFile.main_acquire w = Exit 0 w' /\
       (forall p, p <> logFilePath -> files w' !! p = files w !! p) /\
       (forall old, files w !! logFilePath = Some old ->
          exists added, files w' !! logFilePath = Some (old +:+ added)) /\
       (IsLevelEnabled (level lg) DebugLevel = false -> files w' = files w) /\
       spawned w' = spawned w /\ stderr w' = stderr w) /\
  (files w !! LockFile.lockFilePath = None ->
   LockFile.lockFilePath ∉ write_faults w ->
     exists w',
       LockFile.main_acquire w = Ret () w' /\
       files w' = <[LockFile.lockFilePath := ""]> (files w) /\
       spawned w' = spawned w /\ logger w' = logger w) /\
  (forall w', LockFile.main_acquire w <> Crash w') /\
  (forall code w', LockFile.main_acquire w = Exit code w' -> code = 0).
Proof.
  intros Hlg. split.
  { intros Hheld.
    destruct (lock_acquire_refused w lg Hlg Hheld) as (w' & Hexit & [Hother Hlog] & Hsp & Hs).
    exists w'. split; [done|]. split; [exact Hother|].
    split; [intros old Hold; by rewrite Hold in Hlog|]. split; [|done].
    intros Hlevel. rewrite (lock_refusal_unlogged w w' lg Hlg Hlevel Hexit). done. }
  split.
  { intros Hfree Hok. rewrite (lock_acquire_taken w Hfree Hok). by eexists. }
  assert (Hcases : (exists w', LockFile.main_acquire w = Exit 0 w')
                   \/ (exists w', LockFile.main_acquire w = Ret () w')).
  { destruct (files w !! LockFile.lockFilePath) as [data|] eqn:Hfile.
    - left. destruct (lock_acquire_refused w lg Hlg) as (w1 & Hexit & _);
        [left; by eexists|]. by exists w1.
    - destruct (decide (LockFile.lockFilePath ∈ write_faults w)) as [Hfault|Hok].
      + left. destruct (lock_acquire_refused w lg Hlg) as (w1 & Hexit & _);
          [by right|]. by exists w1.
      + right. rewrite (lock_acquire_taken w Hfile Hok). by eexists. }
  destruct Hcases as [[w1 Hrun]|[w1 Hrun]]; rewrite Hrun; split; try done.
  by intros code w' [= <- _].
Qed.

(** X13.  A lock that was taken and not released shuts every later process
    out: after a process has passed the guard, a process that finds the
    lock file as the first left it exits with status 0, runs no command and
    leaves the lock file as it found it, changing no file but the log file,
    so the same holds for the process after it, whether the first process
    is alive or not. *)
Theorem lock_left_behind_blocks (w w' w2 : World) lg lg2 :
  logger w = Some lg ->
  LockFile.main_acquire w = Ret () w' ->
  files w2 !! LockFile.lockFilePath = files w' !! LockFile.lockFilePath ->
  logger w2 = Some lg2 ->
  exists w2',
    LockFile.main_acquire w2 = Exit 0 w2' /\
    files w2' !! LockFile.lockFilePath = files w' !! LockFile.lockFilePath /\
    (forall p, p <> logFilePath -> files w2' !! p = files w2 !! p) /\
    spawned w2' = spawned w2.
Proof.
  intros Hlg Hret Hsame Hlg2.
  destruct (lock_acquire_ret w w' lg Hlg Hret) as (_ & _ & ->).
  simpl in *. rewrite lookup_insert_eq in *.
  destruct (lock_acquire_refused w2 lg2 Hlg2) as (w2' & Hexit & Hf & Hsp & _);
    [left; by eexists|].
  exists w2'. split; [done|].
  split; [by rewrite (log_grows_other _ _ _ Hf lock_not_log)|].
  split; [|done]. intros p Hp. by apply (log_grows_other _ _ _ Hf).
Qed.


(** X15.  Before the worker starts, [main] of the lock-file build runs no
    command and never panics; it exits only with status 0 or 2, with status
    2 whenever the configuration does not load, and with status 0, not 2,
    when the lock file cannot be created.  When it goes on, the lock file
    did not exist, it exists now, and the logger is set to the level of the
    configuration loaded. *)
Theorem lockfile_startup_outcomes (w : World) :
  spawned (final_world (LockFile.main_startup w)) = spawned w /\
  (forall w', LockFile.main_startup w <> Crash w') /\
  (forall code w', LockFile.main_startup w = Exit code w' -> code = 0 \/ code = 2) /\
  (forall cfg e,
     Listener.loadConfig (Listener.defaultConfigPath w) w = (cfg, Some e) ->
     exists w', LockFile.main_startup w = Exit 2 w' /\ files w' = files w) /\
  (forall cfg,
     Listener.loadConfig (Listener.defaultConfigPath w) w = (cfg, None) ->
     LockFile.logFilePath ∉ write_faults w ->
     LockFile.lockFilePath ∈ write_faults w ->
     exists w', LockFile.main_startup w = Exit 0 w') /\
  (forall config w',
     LockFile.main_startup w = Ret config w' ->
     Listener.loadConfig (Listener.defaultConfigPath w) w = (config, None) /\
     files w !! LockFile.lockFilePath = None /\
     files w' !! LockFile.lockFilePath = Some "" /\
     logger w' = Some {| level := Listener.parsedLogLevel config; written := [] |}).
Proof.
  destruct (Listener.loadConfig (Listener.defaultConfigPath w) w) as [cfg [e|]] eqn:Hload.
  { assert (Hrun : LockFile.main_startup w
                   = Exit 2 (set_stderr (stderr w ++ [{| format := "Error loading config: %v\n";
                                                       args := [e] |}]) w)).
    { unfold LockFile.main_startup. by rewrite Hload. }
    rewrite Hrun. split; [done|]. split; [done|].
    split; [intros code w' [= <- _]; by right|].
    split; [intros cfg' e' _; by eexists|]. split; done. }
  destruct (decide (LockFile.logFilePath ∈ write_faults w)) as [Hfault|Hok].
  { assert (Hrun : exists w1, LockFile.main_startup w = Exit 2 w1 /\ spawned w1 = spawned w).
    { unfold LockFile.main_startup. rewrite Hload. unfold os_OpenFile_append. unfold_proc.
      rewrite decide_True by done. by eexists. }
    destruct Hrun as (w1 & Hrun & Hsp). rewrite Hrun.
    split; [done|]. split; [done|].
    split; [intros code w' [= <- _]; by right|]. split; [done|]. split; done. }
  assert (Hguard : exists w1,
             logger w1 = Some {| level := Listener.parsedLogLevel cfg; written := [] |} /\
             spawned w1 = spawned w /\ write_faults w1 = write_faults w /\
             (files w1 !! LockFile.lockFilePath = None ->
              files w !! LockFile.lockFilePath = None) /\
             LockFile.main_startup w = (LockFile.main_acquire ;; mret cfg) w1).
  { unfold LockFile.main_startup. rewrite Hload.
    unfold os_OpenFile_append, logrus_New_SetLevel. unfold_proc.
    rewrite decide_False by done.
    destruct (files w !! LockFile.logFilePath) eqn:Hlogfile.
    - by exists (set_logger (Some {| level := Listener.parsedLogLevel cfg;
                                     written := [] |}) w).
    - exists (set_logger (Some {| level := Listener.parsedLogLevel cfg; written := [] |})
                (set_files (<[LockFile.logFilePath := ""]> (files w)) w)).
      repeat split; try done. simpl. intros Hnone.
      apply lookup_insert_None in Hnone. tauto. }
  destruct Hguard as (w1 & Hlg1 & Hsp1 & Hwf1 & Hfree1 & Hrun).
  rewrite Hrun. unfold mbind, mret, Proc_bind, Proc_ret.
  destruct (files w1 !! LockFile.lockFilePath) as [data|] eqn:Hfile.
  { destruct (lock_acquire_refused w1 _ Hlg1) as (w2 & -> & _ & Hsp2 & _);
      [left; by eexists|].
    split; [simpl; congruence|]. split; [done|].
    split; [intros code w' [= <- _]; by left|]. split; [done|].
    split; [by eexists|done]. }
  destruct (decide (LockFile.lockFilePath ∈ write_faults w1)) as [Hw|Hw].
  { destruct (lock_acquire_refused w1 _ Hlg1) as (w2 & -> & _ & Hsp2 & _); [by right|].
    split; [simpl; congruence|]. split; [done|].
    split; [intros code w' [= <- _]; by left|]. split; [done|].
    split; [by eexists|done]. }
  rewrite (lock_acquire_taken w1 Hfile Hw).
  split; [simpl; congruence|]. split; [done|]. split; [done|]. split; [done|].
  split; [intros cfg' [= <-] _ Hlock; by rewrite Hwf1 in Hw|].
  intros config w' [= <- <-]. split; [done|]. split; [by apply Hfree1|].
  split; [simpl; apply lookup_insert_eq|done].
Qed.

End LockFacts.

Lemma lock_acquire_outcomes_witness :
  logger (Examples.quiet InfoLevel) = Some {| level := InfoLevel; written := [] |} /\
  exists w',
    LockFile.main_acquire (Examples.quiet InfoLevel) = Ret () w' /\
    files w' = <[LockFile.lockFilePath := ""]> ∅.
Proof.
  split; [reflexivity|].
  destruct (proj1 (proj2 (lock_acquire_outcomes (Examples.quiet InfoLevel) _ eq_refl)))
    as (w' & Hret & Hfiles & _); [reflexivity|vm_compute; set_solver|].
  exists w'. split; [exact Hret|exact Hfiles].
Defined.

Lemma lock_left_behind_blocks_witness :
  LockFile.main_acquire (Examples.quiet InfoLevel)
    = Ret () (final_world (LockFile.main_acquire (Examples.quiet InfoLevel))) /\
  exists w2',
    LockFile.main_acquire MoreExamples.lock_left_behind = Exit 0 w2' /\
    files w2' !! LockFile.lockFilePath
      = files (final_world (LockFile.main_acquire (Examples.quiet InfoLevel)))
          !! LockFile.lockFilePath.
Proof.
  assert (Hret : LockFile.main_acquire (Examples.quiet InfoLevel)
                 = Ret () (final_world (LockFile.main_acquire (Examples.quiet InfoLevel))))
    by reflexivity.
  split; [exact Hret|].
  destruct (lock_left_behind_blocks (Examples.quiet InfoLevel) _
              MoreExamples.lock_left_behind _ _ eq_refl Hret eq_refl eq_refl)
    as (w2' & Hexit & Hfiles & _).
  exists w2'. split; [exact Hexit|exact Hfiles].
Defined.


(** ** The command-line build *)

Section CommandLineFacts.
Context `{RegexpLib} `{UrlLib} `{PathLib} `{StringsLib} `{JsonLib OneShot.Config}.

Lemma main_loop_spec (cfg : OneShot.Config) (cr : list compiledRule) (dryRun : bool)
    (args : list string) (firstErr : option error) (w : World) :
  let cmds := if dryRun then []
              else CommandLine.launch_cmd cfg cr <$> CommandLine.routed args in
  exists w',
    CommandLine.main_loop cfg cr dryRun args firstErr w
      = Ret (match firstErr with
             | Some e => Some e
             | None => head (run_failures (Run w) (length (spawned w)) cmds)
             end) w' /\
    spawned w' = spawned w ++ cmds /\ files w' = files w /\ Run w' = Run w.
Proof.
  simpl. revert firstErr w.
  induction args as [|raw rest IH]; intros firstErr w.
  { exists w. simpl. destruct dryRun, firstErr; by rewrite ?app_nil_r. }
  simpl. unfold CommandLine.routed.
  destruct (CommandLine.isLikelyURL raw) eqn:Hlikely; simpl.
  2:{ rewrite filter_cons_False by (by rewrite Hlikely). apply IH. }
  rewrite filter_cons_True by done. rewrite fmap_cons.
  fold (CommandLine.routed rest).
  unfold mbind at 1. unfold Proc_bind at 1. unfold Fprintf_Stderr at 1.
  set (w1 := set_stderr _ w).
  destruct dryRun.
  { destruct (IH firstErr w1) as (w' & Hrun & Hsp & Hf & Hr). by exists w'. }
  unfold OneShot.openInChrome, exec_Run, cmd_Start, cmd_Wait.
  unfold mbind, Proc_bind. simpl.
  fold (CommandLine.launch_cmd cfg cr (strings_TrimSpace raw)).
  set (c := CommandLine.launch_cmd cfg cr (strings_TrimSpace raw)).
  set (w2 := set_spawned _ w1).
  assert (Hlen : length (spawned w2) = S (length (spawned w))).
  { subst w2 w1. simpl. rewrite length_app. simpl. lia. }
  destruct (Run w (length (spawned w)) c) as [e|] eqn:Hc.
  - set (w3 := set_stderr _ w2).
    destruct (IH (match firstErr with None => Some e | Some _ => firstErr end) w3)
      as (w' & Hrun & Hsp & Hf & Hr).
    exists w'. split; [|split; [|done]].
    + rewrite Hrun. by destruct firstErr.
    + rewrite Hsp. subst w3 w2 w1. simpl. by rewrite <- app_assoc.
  - destruct (IH firstErr w2) as (w' & Hrun & Hsp & Hf & Hr).
    exists w'. split; [|split; [|done]].
    + rewrite Hrun. by rewrite Hlen.
    + rewrite Hsp. subst w2 w1. simpl. by rewrite <- app_assoc.
Qed.

Lemma Contains_char (s : string) (c : ascii) :
  Contains s (String c "") = true <-> c ∈ list_ascii_of_string s.
Proof.
  induction s as [|a s IH]; simpl.
  - split; [done|]. by intros ?%elem_of_nil.
  - rewrite elem_of_cons, orb_true_iff, IH.
    destruct (ascii_dec c a) as [->|Hne].
    + split; [by left|]. intros _. left. by destruct s.
    + split; [intros [?|?]; [done|by right]|]. intros [?|?]; [done|by right].
Qed.

Lemma prefix_chars (p s : string) (c : ascii) :
  String.prefix p s = true ->
  c ∈ list_ascii_of_string p -> c ∈ list_ascii_of_string s.
Proof.
  revert s. induction p as [|a p IH]; intros s; simpl.
  - by intros _ ?%elem_of_nil.
  - destruct s as [|b s]; simpl; [done|]. destruct (ascii_dec a b) as [->|]; [|done].
    intros Hp. rewrite !elem_of_cons. intros [->|Hc]; [by left|].
    right. by apply IH.
Qed.

(** X16.  [isLikelyURL] accepts exactly the arguments that contain a dot or
    a colon: its four tests for a scheme at the start decide nothing, every
    scheme tested having a colon. *)
Theorem isLikelyURL_iff (s : string) :
  CommandLine.isLikelyURL s = Contains s "." || Contains s ":" /\
  (CommandLine.isLikelyURL s = true <->
   "."%char ∈ list_ascii_of_string s \/ ":"%char ∈ list_ascii_of_string s).
Proof.
  assert (Heq : CommandLine.isLikelyURL s = Contains s "." || Contains s ":").
  { unfold CommandLine.isLikelyURL, HasPrefix.
    destruct (String.prefix "http://" s || String.prefix "https://" s
              || String.prefix "file://" s || String.prefix "mailto:" s) eqn:Hscheme;
      [|done].
    assert (Hcolon : ":"%char ∈ list_ascii_of_string s).
    { rewrite !orb_true_iff in Hscheme.
      destruct Hscheme as [[[Hp|Hp]|Hp]|Hp]; apply (prefix_chars _ _ _ Hp);
        simpl; rewrite !elem_of_cons; tauto. }
    apply Contains_char in Hcolon. rewrite Hcolon. by rewrite orb_true_r. }
  split; [exact Heq|].
  rewrite Heq, orb_true_iff. by rewrite !Contains_char.
Qed.

Lemma main_args_world (flag_Args : list string) (stdin : CommandLine.Stdin) (w : World) :
  CommandLine.main_args flag_Args stdin w = Crash w \/
  exists args, CommandLine.main_args flag_Args stdin w = Ret args w.
Proof.
  unfold CommandLine.main_args.
  destruct flag_Args as [|a rest]; [|right; by eexists].
  destruct stdin as [| |bytes]; [by left|right; by eexists|].
  right. case_decide; by eexists.
Qed.

(** X17.  With [--dry-run] the command-line build runs no command and
    leaves the files as they are, whatever its arguments, its standard
    input and its configuration; it never exits with status 3. *)
Theorem dry_run_launches_nothing
    (cfgPath : string) (v : bool) (flag_Args : list string)
    (stdin : CommandLine.Stdin) (w : World) :
  let run := CommandLine.main
               {| CommandLine.config := cfgPath; CommandLine.dry_run := true;
                  CommandLine.version := v |} flag_Args stdin w in
  spawned (final_world run) = spawned w /\
  files (final_world run) = files w /\
  (forall w', run <> Exit 3 w').
Proof.
  intros run. subst run. unfold CommandLine.main. simpl.
  destruct v; [done|].
  destruct (OneShot.loadConfig _ w) as [[cfg cr] [e|]] eqn:Hload; [done|].
  unfold mbind, Proc_bind.
  destruct (main_args_world flag_Args stdin w) as [->|[args ->]]; [done|].
  destruct args as [|a args]; [done|].
  destruct (main_loop_spec cfg cr true (a :: args) None w) as (w' & Hrun & Hsp & Hf & _).
  cbv zeta iota in Hrun. cbv beta iota. rewrite Hrun. simpl.
  by rewrite Hsp, app_nil_r.
Qed.

(** X18.  The command-line build, the version not being asked for: it
    exits with status 2 and nothing run when the configuration does not
    load; it panics when there is no argument and standard input cannot be
    examined; it exits with status 1 and nothing run when there is nothing
    to route.  Otherwise every argument that looks like a URL is handed
    off, trimmed, in the order given, a failed launch not stopping the
    later ones (none is handed off in a dry run), and the process exits
    with status 3 exactly when one of the commands failed. *)
Theorem command_line_outcomes
    (cfgPath : string) (dryRun : bool) (flag_Args : list string)
    (stdin : CommandLine.Stdin) (w : World) :
  let run := CommandLine.main
               {| CommandLine.config := cfgPath; CommandLine.dry_run := dryRun;
                  CommandLine.version := false |} flag_Args stdin w in
  let path := if decide (cfgPath = "") then OneShot.defaultConfigPath w else cfgPath in
  match OneShot.loadConfig path w with
  | (_, _, Some e) => exists w', run = Exit 2 w' /\ spawned w' = spawned w
  | (cfg, cr, None) =>
      match CommandLine.main_args flag_Args stdin w with
      | Ret [] _ => exists w', run = Exit 1 w' /\ spawned w' = spawned w
      | Ret args _ =>
          let cmds := if dryRun then []
                      else CommandLine.launch_cmd cfg cr <$> CommandLine.routed args in
          exists w',
            spawned w' = spawned w ++ cmds /\ files w' = files w /\
            run = match run_failures (Run w) (length (spawned w)) cmds with
                  | [] => Ret [] w'
                  | _ :: _ => Exit 3 (set_stderr
                                (stderr w' ++
                                   [{| format := "%v\n";
                                       args := ["One or more URLs failed to open."] |}]) w')
                  end
      | _ => run = Crash w
      end
  end.
Proof.
  intros run path. subst run path. unfold CommandLine.main. simpl.
  destruct (OneShot.loadConfig _ w) as [[cfg cr] [e|]] eqn:Hload;
    [eexists; split; reflexivity|].
  unfold mbind, Proc_bind.
  destruct (main_args_world flag_Args stdin w) as [->|[args ->]]; [done|].
  destruct args as [|a args]; [eexists; split; reflexivity|].
  destruct (main_loop_spec cfg cr dryRun (a :: args) None w) as (w' & Hrun & Hsp & Hf & _).
  cbv zeta iota in Hrun. cbv beta iota zeta. rewrite Hrun.
  destruct (run_failures _ _ _) as [|e es]; simpl.
  - exists w'. by destruct dryRun.
  - exists w'. by destruct dryRun.
Qed.

(** X19.  Text on standard input is one URL: with no argument given, the
    whole text, trimmed, is routed as a single argument, so at most one
    command is run however many lines the text has. *)
Theorem stdin_is_one_url
    (flags : CommandLine.Flags) (bytes : string) (w : World) :
  let run := CommandLine.main flags [] (CommandLine.Piped bytes) w in
  spawned (final_world run) = spawned w \/
  exists cfg cr,
    spawned (final_world run) =
      spawned w ++
        [CommandLine.launch_cmd cfg cr
           (strings_TrimSpace (strings_TrimSpace bytes))].
Proof.
  intros run. subst run. unfold CommandLine.main.
  destruct (CommandLine.version flags); [by left|].
  destruct (OneShot.loadConfig _ w) as [[cfg cr] [e|]] eqn:Hload; [by left|].
  unfold mbind, Proc_bind. unfold CommandLine.main_args.
  destruct (decide (strings_TrimSpace bytes <> "")) as [Htxt|Htxt];
    unfold mret, Proc_ret; [|by left].
  destruct (main_loop_spec cfg cr (CommandLine.dry_run flags)
              [strings_TrimSpace bytes] None w) as (w' & Hrun & Hsp & _).
  cbv zeta iota in Hrun. cbv beta iota.
  change ([] ++ [strings_TrimSpace bytes]) with [strings_TrimSpace bytes].
  cbv beta iota. rewrite Hrun.
  assert (Hend : spawned w' = spawned w \/
                 exists cfg cr,
                   spawned w' = spawned w ++
                     [CommandLine.launch_cmd cfg cr
                        (strings_TrimSpace (strings_TrimSpace bytes))]).
  { rewrite Hsp.
    destruct (CommandLine.dry_run flags); [left; by rewrite app_nil_r|].
    unfold CommandLine.routed.
    destruct (decide (CommandLine.isLikelyURL (strings_TrimSpace bytes) = true)) as [Hl|Hl].
    - right. exists cfg, cr. by rewrite filter_cons_True, filter_nil by done.
    - left. rewrite filter_cons_False, filter_nil by done. by rewrite app_nil_r. }
  destruct (head _); simpl; exact Hend.
Qed.

End CommandLineFacts.

(** Three arguments, the second of which does not look like a URL: the
    first goes to the profile of its rule, the third, trimmed and given a
    scheme, to the default profile; when every command fails the first
    error is the one kept. *)
Example command_line_example :
  let args := ["https://github.com/acme/x"; "notes"; " example.com "] in
  let run w := CommandLine.main_loop MoreExamples.acme_oneshot
                 MoreExamples.acme_oneshot_rules false args None w in
  CommandLine.routed args = ["https://github.com/acme/x"; "example.com"] /\
  spawned (final_world (run (Examples.quiet InfoLevel))) =
    [ {| cmd_name := "open";
         cmd_args := ["-na"; "/Applications/Google Chrome.app"; "--args";
                      "--profile-directory=Work"; "https://github.com/acme/x"] |};
      {| cmd_name := "open";
         cmd_args := ["-na"; "/Applications/Google Chrome.app"; "--args";
                      "--profile-directory=Default"; "http://example.com"] |} ] /\
  (exists w', run (Examples.quiet InfoLevel) = Ret None w') /\
  (exists w', run (Examples.failing InfoLevel) = Ret (Some "exit status 1") w' /\
              length (spawned w') = 2%nat) /\
  CommandLine.isLikelyURL "localhost:3000" = true /\
  CommandLine.isLikelyURL "notes" = false.
Proof.
  simpl. split; [reflexivity|]. split; [reflexivity|].
  split; [eexists; reflexivity|]. split; [|split; reflexivity].
  eexists. split; reflexivity.
Qed.

(** ** One listener at a time *)

Section SingleInstance.
Context `{RegexpLib} `{UrlLib} `{PathLib}.

(** X20.  While a listener routes URLs it stays the only one: after a
    process has passed the pid-file guard, in every state its dispatcher
    reaches, a second process that sees the files of that moment and to
    which the first answers signal 0 exits with status 0, the pid file
    still holding the identifier of the first. *)
Theorem single_instance_while_running
    (config : Listener.Config) (urls : list string) (s : Listener.System)
    (w w' w2 : World) lg lg2 :
  logger w = Some lg ->
  - 2 ^ 63 <= Getpid w < 2 ^ 63 ->
  Listener.main_acquire w = Ret () w' ->
  Listener.steps config (Listener.init urls w') s ->
  files w2 = files (Listener.world s) ->
  Listener.pidFilePath ∉ read_faults w2 ->
  logger w2 = Some lg2 ->
  Kill w2 (Getpid w) 0 = None ->
  exists w2',
    Listener.main_acquire w2 = Exit 0 w2' /\
    files w2' !! Listener.pidFilePath = Some (Itoa (Getpid w)) /\
    spawned w2' = spawned w2.
Proof.
  intros Hlg Hrange Hret Hsteps Hfiles Hread Hlg2 Hkill.
  destruct (main_acquire_ret w w' lg Hlg Hret) as (_ & _ & Hw').
  pose proof (steps_log_grows config _ _ Hsteps) as Hgrow. simpl in Hgrow.
  assert (Hfile : files w2 !! Listener.pidFilePath = Some (Itoa (Getpid w))).
  { by rewrite Hfiles, (log_grows_other _ _ _ Hgrow pid_not_log). }
  assert (Hrun : Listener.isRunning Listener.pidFilePath w2 = true).
  { apply isRunning_spec. exists (Itoa (Getpid w)), (Getpid w).
    split; [|split; [by apply Atoi_Itoa|done]].
    unfold os_ReadFile, Open_ReadAll. rewrite Hfile. by rewrite decide_False. }
  destruct (acquire_held w2 lg2 Hlg2 Hrun) as (w2' & Hexit & Hf & Hsp).
  exists w2'. split; [done|]. split; [|done].
  by rewrite (log_grows_other _ _ _ Hf pid_not_log).
Qed.

End SingleInstance.

Lemma running_reachable :
  Listener.steps (Examples.acme "" "")
    (Listener.init ["a"] (final_world (Listener.main_acquire Examples.stale)))
    MoreExamples.running.
Proof.
  unfold Listener.steps, Listener.init.
  eapply rtc_l; [apply Listener.step_HandleURL|].
  eapply rtc_l; [apply Listener.step_handoff|].
  eapply rtc_l.
  { apply (Listener.step_launch _ "a" [] Listener.NIdle
             (final_world (Listener.main_acquire Examples.stale)) _
             0%nat (Listener.launch_cmd (Examples.acme "" "") "a")
             (final_world (Listener.processURL_launch "a" (Examples.acme "" "")
                             (final_world (Listener.main_acquire Examples.stale))))).
    reflexivity. }
  apply rtc_refl.
Qed.

Lemma single_instance_while_running_witness :
  Listener.main_acquire Examples.stale
    = Ret () (final_world (Listener.main_acquire Examples.stale)) /\
  Kill MoreExamples.second_view (Getpid Examples.stale) 0 = None /\
  exists w2',
    Listener.main_acquire MoreExamples.second_view = Exit 0 w2' /\
    files w2' !! Listener.pidFilePath = Some (Itoa (Getpid Examples.stale)) /\
    spawned w2' = spawned MoreExamples.second_view.
Proof.
  split; [reflexivity|]. split; [reflexivity|].
  refine (single_instance_while_running (Examples.acme "" "") ["a"] MoreExamples.running
            Examples.stale _ MoreExamples.second_view _ _
            eq_refl _ eq_refl running_reachable eq_refl _ eq_refl eq_refl).
  - vm_compute. split; [discriminate|reflexivity].
  - vm_compute. intros Hin. discriminate Hin.
Defined.
